(** * A shallow embedding of the Scrabble placement engine
      (scrabble_real_code.py) and the properties checked against it.

    Python values are modelled as the code has them: the board is a list of
    rows of display strings (with their ANSI colour codes), integers are [Z],
    a Python list is a Rocq list in the same order (index 0 is the head,
    [append] and [pop] work at the end), and the module globals together with
    the mutable objects live in one record, [World], threaded through a small
    state-and-exception monad.  Text is modelled over 8-bit characters; case
    conversion acts on the ASCII letters. *)

From Stdlib Require Import ZArith List String Ascii Bool Lia Permutation Arith.
Import ListNotations.

Open Scope string_scope.
Open Scope Z_scope.

(* ------------------------------------------------------------------ *)
(** ** Python text primitives *)

Module Py.

Definition isspace (c : ascii) : bool :=
  let n := N_of_ascii c in
  ((9 <=? n) && (n <=? 13) || (28 <=? n) && (n <=? 32)
   || (n =? 133) || (n =? 160))%N.

Definition upper_char (c : ascii) : ascii :=
  let n := N_of_ascii c in
  if ((97 <=? n) && (n <=? 122))%N then ascii_of_N (n - 32) else c.

Definition lower_char (c : ascii) : ascii :=
  let n := N_of_ascii c in
  if ((65 <=? n) && (n <=? 90))%N then ascii_of_N (n + 32) else c.

Fixpoint map_str (f : ascii -> ascii) (s : string) : string :=
  match s with
  | EmptyString => EmptyString
  | String c r => String (f c) (map_str f r)
  end.

Definition upper : string -> string := map_str upper_char.
Definition lower : string -> string := map_str lower_char.

Fixpoint lstrip (s : string) : string :=
  match s with
  | EmptyString => EmptyString
  | String c r => if isspace c then lstrip r else s
  end.

Fixpoint rstrip (s : string) : string :=
  match s with
  | EmptyString => EmptyString
  | String c r =>
      match rstrip r with
      | EmptyString => if isspace c then EmptyString else String c EmptyString
      | r' => String c r'
      end
  end.

(** [s.strip()] *)
Definition strip (s : string) : string := rstrip (lstrip s).

(** Iterating over a string yields its one-character strings. *)
Fixpoint chars (s : string) : list string :=
  match s with
  | EmptyString => []
  | String c r => String c EmptyString :: chars r
  end.

(** [s * n] *)
Fixpoint repeat_str (s : string) (n : nat) : string :=
  match n with
  | O => EmptyString
  | S k => s ++ repeat_str s k
  end.

(** [s.count(c)] for a one-character [c] *)
Definition count (s c : string) : Z :=
  Z.of_nat (List.length (filter (String.eqb c) (chars s))).

(** [sep.join(xs)] *)
Fixpoint join (sep : string) (xs : list string) : string :=
  match xs with
  | [] => EmptyString
  | [x] => x
  | x :: r => x ++ sep ++ join sep r
  end.

(** [x in xs] for a list of strings *)
Definition str_in (x : string) (xs : list string) : bool :=
  existsb (String.eqb x) xs.

(** Index normalisation of a Python sequence of length [len]: indices
    [0 .. len-1] and [-len .. -1] are valid, the rest raise IndexError. *)
Definition norm_index (len : nat) (i : Z) : option nat :=
  if (0 <=? i) && (i <? Z.of_nat len) then Some (Z.to_nat i)
  else if (- Z.of_nat len <=? i) && (i <? 0)
       then Some (Z.to_nat (Z.of_nat len + i))
       else None.

(** [l[i]] *)
Definition get {A} (l : list A) (i : Z) : option A :=
  match norm_index (List.length l) i with
  | Some n => nth_error l n
  | None => None
  end.

Fixpoint set_nth {A} (l : list A) (n : nat) (v : A) : list A :=
  match l, n with
  | [], _ => []
  | _ :: r, O => v :: r
  | x :: r, S k => x :: set_nth r k v
  end.

(** [l[i] = v] *)
Definition set {A} (l : list A) (i : Z) (v : A) : option (list A) :=
  match norm_index (List.length l) i with
  | Some n => Some (set_nth l n v)
  | None => None
  end.

(** [s[i]] on a string, for a non-negative literal index *)
Definition str_at (s : string) (n : nat) : option string :=
  nth_error (chars s) n.

End Py.

(* ------------------------------------------------------------------ *)
(** ** Constants of the module *)

Definition ESC : string := String "027"%char EmptyString.

Definition RED_TEXT : string := ESC ++ "[1;31m".
Definition BLUE_TEXT : string := ESC ++ "[0;34m".
Definition LIGHT_BLUE_TEXT : string := ESC ++ "[1;34m".
Definition CYAN_TEXT : string := ESC ++ "[0;36m".
Definition LIGHT_CYAN_TEXT : string := ESC ++ "[1;36m".
Definition YELLOW_TEXT : string := ESC ++ "[0;33m".
Definition RESET_TEXT : string := ESC ++ "[0m".

Definition LETTER_VALUES : list (string * Z) :=
  [("A", 1); ("B", 3); ("C", 3); ("D", 2); ("E", 1); ("F", 4); ("G", 2);
   ("H", 4); ("I", 1); ("J", 8); ("K", 5); ("L", 1); ("M", 3); ("N", 1);
   ("O", 1); ("P", 3); ("Q", 10); ("R", 1); ("S", 1); ("T", 1); ("U", 1);
   ("V", 4); ("W", 4); ("X", 8); ("Y", 4); ("Z", 10)].

(** [d[k]] on a dict with string keys; [None] stands for KeyError. *)
Fixpoint dict_get (d : list (string * Z)) (k : string) : option Z :=
  match d with
  | [] => None
  | (k', v) :: r => if String.eqb k k' then Some v else dict_get r k
  end.

(* ------------------------------------------------------------------ *)
(** ** Objects *)

(** A [Tile] object.  [obj] is the identity of the Python object: [Tile]
    defines no [__eq__], so [list.remove] compares tiles by identity, and
    [add_to_bag] puts the same object into the bag several times. *)
Record Tile := mkTile { letter : string; tscore : Z; obj : nat }.

(** [Tile(letter, letter_values)], allocated as object [o] *)
Definition Tile_new (l : string) (letter_values : list (string * Z))
  (o : nat) : Tile :=
  let l' := Py.upper l in
  match dict_get letter_values l' with
  | Some v => mkTile l' v o
  | None => mkTile l' 0 o
  end.

Record Player := mkPlayer { name : string; rack : list Tile; score : Z }.

(** The uniform shuffle primitive of the [random] module: some permutation
    of its argument, chosen by the generator state. *)
Class Shuffler := {
  shuffle : nat -> list Tile -> list Tile;
  shuffle_perm : forall g l, Permutation (shuffle g l) l
}.

(** The globals of the module and the objects they reach. *)
Record World := mkWorld {
  board : list (list string);
  players : list Player;
  bag : list Tile;
  next_obj : nat;
  rng : nat;
  round_number : Z;
  skipped_turns : Z;
  premium_spots : list (string * string);
  dictionary : option (list string);
  dic_txt : list string
}.

Definition set_board (b : list (list string)) (w : World) : World :=
  mkWorld b (players w) (bag w) (next_obj w) (rng w) (round_number w)
    (skipped_turns w) (premium_spots w) (dictionary w) (dic_txt w).
Definition set_players (p : list Player) (w : World) : World :=
  mkWorld (board w) p (bag w) (next_obj w) (rng w) (round_number w)
    (skipped_turns w) (premium_spots w) (dictionary w) (dic_txt w).
Definition set_bag (b : list Tile) (w : World) : World :=
  mkWorld (board w) (players w) b (next_obj w) (rng w) (round_number w)
    (skipped_turns w) (premium_spots w) (dictionary w) (dic_txt w).
Definition set_next_obj (n : nat) (w : World) : World :=
  mkWorld (board w) (players w) (bag w) n (rng w) (round_number w)
    (skipped_turns w) (premium_spots w) (dictionary w) (dic_txt w).
Definition set_rng (n : nat) (w : World) : World :=
  mkWorld (board w) (players w) (bag w) (next_obj w) n (round_number w)
    (skipped_turns w) (premium_spots w) (dictionary w) (dic_txt w).
Definition set_round_number (n : Z) (w : World) : World :=
  mkWorld (board w) (players w) (bag w) (next_obj w) (rng w) n
    (skipped_turns w) (premium_spots w) (dictionary w) (dic_txt w).
Definition set_skipped_turns (n : Z) (w : World) : World :=
  mkWorld (board w) (players w) (bag w) (next_obj w) (rng w) (round_number w)
    n (premium_spots w) (dictionary w) (dic_txt w).
Definition set_premium_spots (p : list (string * string)) (w : World)
  : World :=
  mkWorld (board w) (players w) (bag w) (next_obj w) (rng w) (round_number w)
    (skipped_turns w) p (dictionary w) (dic_txt w).
Definition set_dictionary (d : option (list string)) (w : World) : World :=
  mkWorld (board w) (players w) (bag w) (next_obj w) (rng w) (round_number w)
    (skipped_turns w) (premium_spots w) d (dic_txt w).

(* ------------------------------------------------------------------ *)
(** ** The state-and-exception monad *)

Inductive exn := IndexError | KeyError | TypeError | ValueError | OutOfFuel.

Inductive result (A : Type) :=
| Ok (a : A)
| Raise (e : exn).
Arguments Ok {A} a.
Arguments Raise {A} e.

Definition M (A : Type) : Type := World -> result A * World.

Definition ret {A} (a : A) : M A := fun w => (Ok a, w).
Definition raise {A} (e : exn) : M A := fun w => (Raise e, w).
Definition bind {A B} (m : M A) (k : A -> M B) : M B :=
  fun w => match m w with
           | (Ok a, w') => k a w'
           | (Raise e, w') => (Raise e, w')
           end.
Definition gets {A} (f : World -> A) : M A := fun w => (Ok (f w), w).
Definition modify (f : World -> World) : M unit := fun w => (Ok tt, f w).
Definition of_option {A} (e : exn) (o : option A) : M A :=
  match o with Some a => ret a | None => raise e end.

Notation "x <- m ;; k" := (bind m (fun x => k))
  (at level 61, m at next level, right associativity).
Notation "m ;;; k" := (bind m (fun _ => k))
  (at level 61, right associativity).

(** [for x in xs: acc = body(x, acc)] *)
Fixpoint for_each {A S} (xs : list A) (body : A -> S -> M S) (acc : S)
  : M S :=
  match xs with
  | [] => ret acc
  | x :: r => acc' <- body x acc ;; for_each r body acc'
  end.

(** [range(n)] *)
Definition range (n : nat) : list Z := map Z.of_nat (seq 0 n).

(* ------------------------------------------------------------------ *)
(** ** Board *)

Definition EMPTY_CELL : string := "   ".
Definition TWS_CELL : string := LIGHT_BLUE_TEXT ++ "TWS" ++ RESET_TEXT.
Definition TLS_CELL : string := BLUE_TEXT ++ "TLS" ++ RESET_TEXT.
Definition DWS_CELL : string := LIGHT_CYAN_TEXT ++ "DWS" ++ RESET_TEXT.
Definition DLS_CELL : string := CYAN_TEXT ++ "DLS" ++ RESET_TEXT.
Definition CENTER_CELL : string := RED_TEXT ++ " * " ++ RESET_TEXT.
(** the cell text written for a placed letter *)
Definition letter_cell (l : string) : string :=
  " " ++ RED_TEXT ++ l ++ RESET_TEXT ++ " ".

Definition TRIPLE_WORD_SCORE : list (Z * Z) :=
  [(0,0); (7,0); (14,0); (0,7); (14,7); (0,14); (7,14); (14,14)].
Definition DOUBLE_WORD_SCORE : list (Z * Z) :=
  [(1,1); (2,2); (3,3); (4,4); (1,13); (2,12); (3,11); (4,10); (13,1);
   (12,2); (11,3); (10,4); (13,13); (12,12); (11,11); (10,10)].
Definition TRIPLE_LETTER_SCORE : list (Z * Z) :=
  [(1,5); (1,9); (5,1); (5,5); (5,9); (5,13); (9,1); (9,5); (9,9); (9,13);
   (13,5); (13,9)].
Definition DOUBLE_LETTER_SCORE : list (Z * Z) :=
  [(0,3); (0,11); (2,6); (2,8); (3,0); (3,7); (3,14); (6,2); (6,6); (6,8);
   (6,12); (7,3); (7,11); (8,2); (8,6); (8,8); (8,12); (11,0); (11,7);
   (11,14); (12,6); (12,8); (14,3); (14,11)].

(** [self.board[r][c]] *)
Definition board_get (b : list (list string)) (r c : Z) : option string :=
  match Py.get b r with
  | Some row => Py.get row c
  | None => None
  end.

(** [self.board[r][c] = v] *)
Definition board_set (b : list (list string)) (r c : Z) (v : string)
  : option (list (list string)) :=
  match Py.get b r with
  | Some row =>
      match Py.set row c v with
      | Some row' => Py.set b r row'
      | None => None
      end
  | None => None
  end.

Definition read_cell (r c : Z) : M string :=
  b <- gets board ;; of_option IndexError (board_get b r c).

Definition write_cell (r c : Z) (v : string) : M unit :=
  b <- gets board ;;
  b' <- of_option IndexError (board_set b r c v) ;;
  modify (set_board b').

Definition mark_all (cs : list (Z * Z)) (v : string) : M unit :=
  for_each cs (fun rc _ => write_cell (fst rc) (snd rc) v) tt.

(** [Board.add_premium_squares] *)
Definition add_premium_squares : M unit :=
  mark_all TRIPLE_WORD_SCORE TWS_CELL ;;;
  mark_all TRIPLE_LETTER_SCORE TLS_CELL ;;;
  mark_all DOUBLE_WORD_SCORE DWS_CELL ;;;
  mark_all DOUBLE_LETTER_SCORE DLS_CELL.

(** [Board.__init__] *)
Definition Board_init : M unit :=
  modify (set_board (repeat (repeat EMPTY_CELL 15) 15)) ;;;
  add_premium_squares ;;;
  write_cell 7 7 CENTER_CELL.

(* ------------------------------------------------------------------ *)
(** ** Word.check_word *)

(** A [Word] object.  [wplayer] is the reference to the acting [Player], an
    index into the global player list; the [board] attribute is the very
    array of the [Board], so it is read from the world. *)
Record Word := mkWord {
  word : string;
  location : Z * Z;
  wplayer : nat;
  direction : string
}.

(** [Word(word, location, player, direction, board)] *)
Definition Word_new (w : string) (loc : Z * Z) (p : nat) (d : string)
  : Word :=
  mkWord (Py.upper w) loc p (Py.lower d).

(** What [check_word] returns: [True], a message, or [None] when control
    falls off the end of the function. *)
Inductive verdict :=
| VTrue
| VStr (msg : string)
| VNone.

Definition MSG_DIRECTION : string :=
  "Error: Please enter a valid direction (right or down).".
Definition MSG_DICTIONARY : string :=
  String.append "Please enter a valid dictionary word."
    (String "010"%char EmptyString).
Definition MSG_CONNECT : string :=
  "The word must connect to an existing letter on the board.".
Definition MSG_TILES (w : string) : string :=
  "You do not have the necessary tiles to play the word '" ++ w ++ "'.".
Definition MSG_BOUNDS : string := "The word placement is out of bounds.".
Definition MSG_CENTER : string :=
  "The first word must begin at the center of the board (7, 7).".

Definition BLANKS : list string := [""; "TWS"; "DWS"; "TLS"; "DLS"; "*"].

Definition get_player (p : nat) (w : World) : Player :=
  nth p (players w) (mkPlayer "" [] 0).

(** [Rack.get_rack_str] *)
Definition get_rack_str (r : list Tile) : string :=
  Py.join ", " (map (fun t => YELLOW_TEXT ++ letter t ++ RESET_TEXT) r).

(** One iteration of the loops of lines 341-346 and 348-353. *)
Definition scan_cell (r c : Z) (current_board_ltr : string) : M string :=
  board_tile <- read_cell r c ;;
  if Py.str_in (Py.strip board_tile) BLANKS
  then ret (current_board_ltr ++ " ")
  else
    ch <- of_option IndexError (Py.str_at (Py.strip board_tile) 1) ;;
    ret (current_board_ltr ++ ch).

Definition cell_right (loc : Z * Z) (i : Z) : Z * Z := (fst loc, snd loc + i).
Definition cell_down (loc : Z * Z) (i : Z) : Z * Z := (fst loc + i, snd loc).

Definition scan (cell : Z * Z -> Z -> Z * Z) (self : Word) : M string :=
  for_each (range (String.length (word self)))
    (fun i cur => scan_cell (fst (cell (location self) i))
                            (snd (cell (location self) i)) cur)
    "".

(** The bare subscript expressions of lines 362-367. *)
Definition touch (cell : Z * Z -> Z -> Z * Z) (self : Word) : M unit :=
  for_each (range (String.length (word self)))
    (fun i _ => read_cell (fst (cell (location self) i))
                          (snd (cell (location self) i)) ;;; ret tt)
    tt.

(** Lines 362-367. *)
Definition touch_cells (self : Word) : M unit :=
  if String.eqb (direction self) "right" then touch cell_right self
  else if String.eqb (direction self) "down" then touch cell_down self
  else ret tt.

(** The loop of lines 374-376; [Some msg] is an early return. *)
Fixpoint check_tiles (self : Word) (needed_tiles : string)
  (letters : list string) : M (option string) :=
  match letters with
  | [] => ret None
  | l :: r =>
      p <- gets (get_player (wplayer self)) ;;
      if Py.count (get_rack_str (rack p)) l <? Py.count needed_tiles l
      then ret (Some (MSG_TILES (word self)))
      else check_tiles self needed_tiles r
  end.

Definition loc_eqb (a b : Z * Z) : bool :=
  (fst a =? fst b) && (snd a =? snd b).

(** Lines 357-391, after [current_board_ltr] has been collected. *)
Definition check_rest (self : Word) (current_board_ltr needed_tiles : string)
  : M verdict :=
  dict <- gets dictionary ;;
  if negb (Py.str_in (word self) (match dict with Some d => d | None => [] end))
  then ret (VStr MSG_DICTIONARY)
  else
    touch_cells self ;;;
    rn <- gets round_number ;;
    if (1 <? rn)
       && String.eqb current_board_ltr
            (Py.repeat_str " " (String.length (word self)))
    then ret (VStr MSG_CONNECT)
    else
      missing <- check_tiles self needed_tiles (Py.chars needed_tiles) ;;
      match missing with
      | Some msg => ret (VStr msg)
      | None =>
          if (fst (location self) <? 0)
             || (snd (location self) <? 0)
             || (String.eqb (direction self) "right"
                 && (15 <? snd (location self)
                           + Z.of_nat (String.length (word self))))
             || (String.eqb (direction self) "down"
                 && (15 <? fst (location self)
                           + Z.of_nat (String.length (word self))))
          then ret (VStr MSG_BOUNDS)
          else
            if rn =? 1
            then
              ps <- gets players ;;
              _ <- of_option IndexError (Py.get ps 0) ;;
              if Nat.eqb 0 (wplayer self)
                 && negb (loc_eqb (location self) (7, 7))
              then ret (VStr MSG_CENTER)
              else ret VTrue
            else ret VTrue
      end.

(** Lines 333-335: the lexicon is read from [dic.txt] on first use. *)
Definition load_dictionary : M unit :=
  d <- gets dictionary ;;
  match d with
  | Some _ => ret tt
  | None => f <- gets dic_txt ;; modify (set_dictionary (Some f))
  end.

(** Lines 337-391, everything after the lexicon has been loaded. *)
Definition check_word_body (self : Word) : M verdict :=
  if negb (String.eqb (word self) "")
  then
    if String.eqb (direction self) "right"
    then cur <- scan cell_right self ;; check_rest self cur ""
    else if String.eqb (direction self) "down"
    then cur <- scan cell_down self ;; check_rest self cur ""
    else ret (VStr MSG_DIRECTION)
  else ret VNone.

(** [Word.check_word] *)
Definition check_word (self : Word) : M verdict :=
  load_dictionary ;;; check_word_body self.

(* ------------------------------------------------------------------ *)
(** ** Bag and Rack *)

Section Engine.

Context {RNG : Shuffler}.

(** The letters and quantities of the 26 [add_to_bag] calls of
    [Bag.initialize_bag], in order. *)
Definition BAG_FILL : list (string * nat) :=
  [("A", 9); ("B", 2); ("C", 2); ("D", 4); ("E", 12); ("F", 2); ("G", 3);
   ("H", 2); ("I", 9); ("J", 9); ("K", 1); ("L", 4); ("M", 2); ("N", 6);
   ("O", 8); ("P", 2); ("Q", 1); ("R", 6); ("S", 4); ("T", 6); ("U", 4);
   ("V", 2); ("W", 2); ("X", 1); ("Y", 2); ("Z", 1)]%nat.

(** [Bag.add_to_bag]: the same tile object is appended [quantity] times. *)
Definition add_to_bag (tile : Tile) (quantity : nat) : M unit :=
  for_each (seq 0 quantity)
    (fun _ _ => modify (fun w => set_bag (bag w ++ [tile]) w)) tt.

(** Evaluating [Tile(l, LETTER_VALUES)] allocates a new object. *)
Definition new_tile (l : string) : M Tile :=
  o <- gets next_obj ;;
  modify (set_next_obj (S o)) ;;;
  ret (Tile_new l LETTER_VALUES o).

(** [shuffle(self.bag)] *)
Definition shuffle_bag : M unit :=
  modify (fun w => set_rng (S (rng w)) (set_bag (shuffle (rng w) (bag w)) w)).

(** [Bag.initialize_bag] *)
Definition initialize_bag : M unit :=
  for_each BAG_FILL
    (fun lq _ => t <- new_tile (fst lq) ;; add_to_bag t (snd lq)) tt ;;;
  shuffle_bag.

(** [Bag.__init__] *)
Definition Bag_init : M unit :=
  modify (set_bag []) ;;; initialize_bag.

(** [Bag.get_remaining_tiles] *)
Definition get_remaining_tiles : M Z :=
  gets (fun w => Z.of_nat (List.length (bag w))).

(** [self.bag.pop()] *)
Definition bag_pop : M Tile :=
  b <- gets bag ;;
  match rev b with
  | [] => raise IndexError
  | t :: r => modify (set_bag (rev r)) ;;; ret t
  end.

(** [Bag.take_from_bag] *)
Definition take_from_bag : M Tile :=
  n <- get_remaining_tiles ;;
  (if n <? 10 then initialize_bag else ret tt) ;;;
  bag_pop.

Definition set_rack (r : list Tile) (p : Player) : Player :=
  mkPlayer (name p) r (score p).

Fixpoint update_nth {A} (l : list A) (n : nat) (f : A -> A) : list A :=
  match l, n with
  | [], _ => []
  | x :: r, O => f x :: r
  | x :: r, S k => x :: update_nth r k f
  end.

(** Mutation of the player object [p]. *)
Definition update_player (p : nat) (f : Player -> Player) : M unit :=
  modify (fun w => set_players (update_nth (players w) p f) w).

Definition get_rack (p : nat) : M (list Tile) :=
  gets (fun w => rack (get_player p w)).

(** [Rack.add_to_rack] *)
Definition add_to_rack (p : nat) : M unit :=
  t <- take_from_bag ;;
  update_player p (fun pl => set_rack (rack pl ++ [t]) pl).

(** [Rack.get_rack_length] *)
Definition get_rack_length (p : nat) : M Z :=
  r <- get_rack p ;; ret (Z.of_nat (List.length r)).

(** The [while] loop of [Rack.replenish_rack]; every iteration adds a tile,
    so [fuel] bounds the number of iterations. *)
Fixpoint replenish_loop (fuel : nat) (p : nat) : M unit :=
  len <- get_rack_length p ;;
  n <- get_remaining_tiles ;;
  if (len <? 7) && (0 <? n)
  then match fuel with
       | O => raise OutOfFuel
       | S k => add_to_rack p ;;; replenish_loop k p
       end
  else ret tt.

(** [Rack.replenish_rack] *)
Definition replenish_rack (p : nat) : M unit := replenish_loop 7 p.

(** [Rack.initialize] *)
Definition Rack_initialize (p : nat) : M unit :=
  for_each (seq 0 7) (fun _ _ => add_to_rack p) tt.

(** [Rack.shuffle_rack] *)
Definition shuffle_rack (p : nat) : M unit :=
  g <- gets rng ;;
  modify (set_rng (S g)) ;;;
  update_player p (fun pl => set_rack (shuffle g (rack pl)) pl).

(** Equality of tile references.  A Python object has one letter and one
    score, so two references with the same [obj] agree on every field. *)
Definition tile_eqb (a b : Tile) : bool :=
  Nat.eqb (obj a) (obj b) && String.eqb (letter a) (letter b)
  && (tscore a =? tscore b).

(** [list.remove(x)]: drops the first occurrence, ValueError if there is
    none. *)
Fixpoint list_remove (x : Tile) (l : list Tile) : option (list Tile) :=
  match l with
  | [] => None
  | y :: r =>
      if tile_eqb y x then Some r
      else match list_remove x r with
           | Some r' => Some (y :: r')
           | None => None
           end
  end.

(** [Rack.remove_from_rack] *)
Definition remove_from_rack (p : nat) (tile : Tile) : M unit :=
  r <- get_rack p ;;
  r' <- of_option ValueError (list_remove tile r) ;;
  update_player p (set_rack r').

(* ------------------------------------------------------------------ *)
(** ** Board.place_word *)

(** One iteration of the loop of lines 273-276 ([chk] and [tgt] are the same
    cell) and of lines 280-283 ([chk] is the cell tested, [tgt] the cell
    written). *)
Definition place_letter (chk tgt : Z * Z) (wi : string) : M unit :=
  c <- read_cell (fst chk) (snd chk) ;;
  (if negb (String.eqb c EMPTY_CELL)
   then modify (fun w => set_premium_spots (premium_spots w ++ [(wi, c)]) w)
   else ret tt) ;;;
  write_cell (fst tgt) (snd tgt) (letter_cell wi).

Definition enumerate {A} (l : list A) : list (Z * A) :=
  combine (range (List.length l)) l.

(** The inner loop of lines 287-289: a [for] over the rack list while
    [remove_from_rack] shrinks that same list.  The list iterator keeps an
    index [i]; it yields [rack[i]] and advances while [i < len(rack)].  At
    most [len(rack)] items are ever yielded, which [fuel] bounds. *)
Fixpoint strike_loop (fuel : nat) (p : nat) (l : string) (i : nat)
  : M unit :=
  r <- get_rack p ;;
  match nth_error r i with
  | None => ret tt
  | Some tile =>
      match fuel with
      | O => raise OutOfFuel
      | S k =>
          (if String.eqb (letter tile) l
           then remove_from_rack p tile
           else ret tt) ;;;
          strike_loop k p l (S i)
      end
  end.

Definition strike_letter (p : nat) (l : string) : M unit :=
  r <- get_rack p ;; strike_loop (List.length r) p l 0.

(** Lines 272-283: the letters go onto the board. *)
Definition place_letters (word : string) (loc : Z * Z) (direction : string)
  : M unit :=
  if String.eqb (Py.lower direction) "right"
  then for_each (enumerate (Py.chars word))
         (fun iw _ => place_letter (cell_right loc (fst iw))
                                   (cell_right loc (fst iw)) (snd iw)) tt
  else if String.eqb (Py.lower direction) "down"
  then for_each (enumerate (Py.chars word))
         (fun iw _ => place_letter (cell_right loc (fst iw))
                                   (cell_down loc (fst iw)) (snd iw)) tt
  else ret tt.

(** Lines 286-289: the tiles used leave the rack. *)
Definition use_tiles (word : string) (p : nat) : M unit :=
  for_each (Py.chars word) (fun l _ => strike_letter p l) tt.

(** [Board.place_word] *)
Definition place_word (word0 : string) (loc : Z * Z) (direction0 : string)
  (p : nat) : M unit :=
  modify (set_premium_spots []) ;;;
  let direction := Py.lower direction0 in
  let word := Py.upper word0 in
  place_letters word loc direction ;;;
  use_tiles word p ;;;
  replenish_rack p.

(* ------------------------------------------------------------------ *)
(** ** Word.calculate_word_score *)

Definition letter_value (l : string) : M Z :=
  of_option KeyError (dict_get LETTER_VALUES l).

(** [Player.increase_score] *)
Definition increase_score (p : nat) (increase : Z) : M unit :=
  update_player p (fun pl => mkPlayer (name pl) (rack pl)
                                      (score pl + increase)).

(** The body of the loop of lines 408-413. *)
Definition letter_bonus (l : string) (spot : string * string)
  (word_score : Z) : M Z :=
  if String.eqb l (fst spot)
  then
    if String.eqb (snd spot) "TLS"
    then v <- letter_value l ;; ret (word_score + v * 2)
    else if String.eqb (snd spot) "DLS"
    then v <- letter_value l ;; ret (word_score + v)
    else ret word_score
  else ret word_score.

(** The body of the loop of lines 417-421. *)
Definition word_bonus (spot : string * string) (word_score : Z) : M Z :=
  if String.eqb (snd spot) "TWS" then ret (word_score * 3)
  else if String.eqb (snd spot) "DWS" then ret (word_score * 2)
  else ret word_score.

(** The score computed by lines 404-421. *)
Definition word_score_of (self : Word) : M Z :=
  spots <- gets premium_spots ;;
  s <- for_each (Py.chars (word self))
         (fun l acc =>
            acc' <- for_each spots (letter_bonus l) acc ;;
            v <- letter_value l ;;
            ret (acc' + v))
         0 ;;
  for_each spots word_bonus s.

(** [Word.calculate_word_score] *)
Definition calculate_word_score (self : Word) : M unit :=
  s <- word_score_of self ;;
  increase_score (wplayer self) s.

(* ------------------------------------------------------------------ *)
(** ** end_game and turn *)

(** The two kinds of Python value that meet in the comparison of line 628:
    an integer, and the bound method [player.get_score] (not its result). *)
Inductive pyval :=
| PInt (n : Z)
| PMethod (self : Player).

(** [a > b]: integers compare; a method and an integer are unorderable. *)
Definition py_gt (a b : pyval) : M bool :=
  match a, b with
  | PInt x, PInt y => ret (y <? x)
  | _, _ => raise TypeError
  end.

(** [end_game], up to the message naming [winning_player]. *)
Definition end_game : M string :=
  ps <- gets players ;;
  hw <- for_each ps
          (fun player hw =>
             b <- py_gt (PMethod player) (PInt (fst hw)) ;;
             if b then ret (score player, name player) else ret hw)
          (0, "") ;;
  ret (snd hw).

(** One attempt typed in at the three prompts; [a_loc] is [None] when the
    row or column typed is not one of 0..14. *)
Record Attempt := mkAttempt {
  a_word : string;
  a_loc : option (Z * Z);
  a_dir : string
}.

(** A menu choice of the turn loop. *)
Inductive Command :=
| CShuffle
| CRenew
| CSkip
| CExit
| CPlay (first : Attempt) (retries : list Attempt).

Inductive Outcome :=
| Ended (winning_player : string)
| Exited
| Waiting (player : nat).

(** The test of line 453. *)
Definition turn_continues (p : nat) : M bool :=
  st <- gets skipped_turns ;;
  len <- get_rack_length p ;;
  n <- get_remaining_tiles ;;
  ret ((st <? 6) || ((len =? 0) && (n =? 0))).

(** Lines 494-498 and 562-566: the next player, and the round counter. *)
Definition next_player (p : nat) : M nat :=
  ps <- gets players ;;
  if negb (Z.of_nat p =? Z.of_nat (List.length ps) - 1)
  then ret (S p)
  else modify (fun w => set_round_number (round_number w + 1) w) ;;; ret 0%nat.

Definition loc_of (a : Attempt) : Z * Z :=
  match a_loc a with Some l => l | None => (-1, -1) end.

(** The retry loop of lines 537-551: [self] is the [Word] object, [wtp],
    [loc] and [dir] the locals [word_to_play], [location] and [direction]. *)
Fixpoint retry (self : Word) (wtp : string) (loc : Z * Z) (dir : string)
  (more : list Attempt) : M (option (Word * string * (Z * Z) * string)) :=
  checked <- check_word self ;;
  match checked with
  | VTrue => ret (Some (self, wtp, loc, dir))
  | _ =>
      match more with
      | [] => ret None
      | a :: r =>
          let self1 := mkWord (Py.upper (a_word a)) (location self)
                         (wplayer self) (direction self) in
          let self2 := match a_loc a with
                       | Some l => mkWord (word self1) l (wplayer self1)
                                     (direction self1)
                       | None => self1
                       end in
          let self3 := mkWord (word self2) (location self2) (wplayer self2)
                         (a_dir a) in
          retry self3 (a_word a) (loc_of a) (a_dir a) r
      end
  end.

(** [turn], driven by the commands typed by the players.  [menu] is the
    body entered when the test of line 453 holds. *)
Fixpoint menu (cmds : list Command) (p : nat) : M Outcome :=
  let turn cmds' p' :=
    go <- turn_continues p' ;;
    if go then menu cmds' p' else w <- end_game ;; ret (Ended w) in
  match cmds with
  | [] => ret (Waiting p)
  | CShuffle :: r => shuffle_rack p ;;; menu r p
  | CRenew :: r =>
      update_player p (set_rack []) ;;; replenish_rack p ;;; menu r p
  | CSkip :: r =>
      modify (fun w => set_skipped_turns (skipped_turns w + 1) w) ;;;
      p' <- next_player p ;;
      turn r p'
  | CExit :: _ => ret Exited
  | CPlay a more :: r =>
      ok <- retry (Word_new (a_word a) (loc_of a) p (a_dir a))
              (a_word a) (loc_of a) (a_dir a) more ;;
      match ok with
      | None => ret (Waiting p)
      | Some (self, wtp, loc, dir) =>
          place_word wtp loc dir p ;;;
          calculate_word_score self ;;;
          modify (set_skipped_turns 0) ;;;
          p' <- next_player p ;;
          turn r p'
      end
  end.

Definition turn (cmds : list Command) (p : nat) : M Outcome :=
  go <- turn_continues p ;;
  if go then menu cmds p else w <- end_game ;; ret (Ended w).

(** [Player(bag)] followed by [players.append]: the new player draws an
    initial rack of seven tiles. *)
Definition Player_new : M nat :=
  ps <- gets players ;;
  modify (set_players (ps ++ [mkPlayer "" [] 0])) ;;;
  Rack_initialize (List.length ps) ;;;
  ret (List.length ps).

(** [Player.set_name] *)
Definition set_name (p : nat) (n : string) : M unit :=
  update_player p (fun pl => mkPlayer n (rack pl) (score pl)).

(** [start_game], up to the first call of [turn]: [names] are the names
    typed in, one per player. *)
Definition start_game (names : list string) : M unit :=
  Board_init ;;;
  Bag_init ;;;
  modify (set_players []) ;;;
  for_each names (fun n _ => p <- Player_new ;; set_name p n) tt ;;;
  modify (set_round_number 1) ;;;
  modify (set_skipped_turns 0).

(** The two steps of lines 554-555 that follow a successful validation. *)
Definition apply_and_score (self : Word) (wtp : string) (loc : Z * Z)
  (dir : string) : M unit :=
  place_word wtp loc dir (wplayer self) ;;;
  calculate_word_score self.

End Engine.

(* ------------------------------------------------------------------ *)
(** * Vocabulary of the statements *)

(** ** Computations that only read *)

(** A computation that leaves the world as it found it, whatever it
    returns or raises. *)
Definition readonly {A} (m : M A) : Prop := forall w, snd (m w) = w.

(** The result of a loop whose body only reads the world. *)
Fixpoint fold_res {A S} (f : A -> S -> result S) (xs : list A) (acc : S)
  : result S :=
  match xs with
  | [] => Ok acc
  | x :: r => match f x acc with
              | Ok acc' => fold_res f r acc'
              | Raise e => Raise e
              end
  end.

(** ** Validation *)

(** The lexicon in force during a call: the global if it is set, the
    contents of the file otherwise. *)
Definition lexicon (w : World) : list string :=
  match dictionary w with Some d => d | None => dic_txt w end.

Definition loaded (w : World) : World :=
  set_dictionary (Some (lexicon w)) w.

(** The character that lines 343-346 append for a cell holding [c];
    [None] is the IndexError of [strip()[1]] on a text of one character. *)
Definition cell_piece (c : string) : option string :=
  if Py.str_in (Py.strip c) BLANKS then Some " "
  else Py.str_at (Py.strip c) 1.

Definition scan_step (b : list (list string)) (cell : Z * Z -> Z -> Z * Z)
  (loc : Z * Z) (i : Z) (cur : string) : result string :=
  match board_get b (fst (cell loc i)) (snd (cell loc i)) with
  | Some c => match cell_piece c with
              | Some ch => Ok (cur ++ ch)
              | None => Raise IndexError
              end
  | None => Raise IndexError
  end.

(** The board is a 15 x 15 array. *)
Definition grid15 (b : list (list string)) : Prop :=
  List.length b = 15%nat /\ Forall (fun row => List.length row = 15%nat) b.

(** The cells the program itself puts on a board: the blank cell, the four
    premium markers, the centre marker, and a placed letter. *)
Definition program_cell (c : string) : Prop :=
  c = EMPTY_CELL
  \/ In c [TWS_CELL; TLS_CELL; DWS_CELL; DLS_CELL; CENTER_CELL]
  \/ exists ch, c = letter_cell (String ch EmptyString).

(** The cells a word would cover. *)
Definition target_cells (self : Word) : list (Z * Z) :=
  if String.eqb (direction self) "right"
  then map (cell_right (location self)) (range (String.length (word self)))
  else if String.eqb (direction self) "down"
  then map (cell_down (location self)) (range (String.length (word self)))
  else [].

(** The cell exists and holds a cell text of the program. *)
Definition readable (b : list (list string)) (rc : Z * Z) : Prop :=
  exists c, board_get b (fst rc) (snd rc) = Some c /\ program_cell c.

(** The cell holds exactly the blank text. *)
Definition is_blank (b : list (list string)) (rc : Z * Z) : bool :=
  match board_get b (fst rc) (snd rc) with
  | Some c => String.eqb c EMPTY_CELL
  | None => false
  end.

Inductive reason :=
| InvalidDirection
| NotAWord
| OutOfBounds
| Disconnected
| MustStartAtCenter
| MissingTiles.

Definition message (r : reason) (w : string) : string :=
  match r with
  | InvalidDirection => MSG_DIRECTION
  | NotAWord => MSG_DICTIONARY
  | OutOfBounds => MSG_BOUNDS
  | Disconnected => MSG_CONNECT
  | MustStartAtCenter => MSG_CENTER
  | MissingTiles => MSG_TILES w
  end.

(** When each rule rejects a placement. *)
Definition fails (self : Word) (w : World) (r : reason) : bool :=
  match r with
  | InvalidDirection =>
      negb (String.eqb (direction self) "right"
            || String.eqb (direction self) "down")
  | NotAWord => negb (Py.str_in (word self) (lexicon w))
  | Disconnected =>
      (1 <? round_number w) && forallb (is_blank (board w)) (target_cells self)
  | MissingTiles => false
  | OutOfBounds =>
      (fst (location self) <? 0) || (snd (location self) <? 0)
      || (String.eqb (direction self) "right"
          && (15 <? snd (location self)
                    + Z.of_nat (String.length (word self))))
      || (String.eqb (direction self) "down"
          && (15 <? fst (location self)
                    + Z.of_nat (String.length (word self))))
  | MustStartAtCenter =>
      (round_number w =? 1) && Nat.eqb (wplayer self) 0
      && negb (loc_eqb (location self) (7, 7))
  end.

(** The order in which the code applies the rules. *)
Definition code_order : list reason :=
  [InvalidDirection; NotAWord; Disconnected; MissingTiles; OutOfBounds;
   MustStartAtCenter].

Definition first_failure (order : list reason) (self : Word) (w : World)
  : verdict :=
  match find (fails self w) order with
  | Some r => VStr (message r (word self))
  | None => VTrue
  end.

Definition mark (b : list (list string)) (rc : Z * Z) : string :=
  if is_blank b rc then " " else "[".

(** The verdict of lines 357-391 once the cells have been collected. *)
Definition rest_verdict (self : Word) (cur : string) (w : World) : verdict :=
  if negb (Py.str_in (word self)
             (match dictionary w with Some d => d | None => [] end))
  then VStr MSG_DICTIONARY
  else if (1 <? round_number w)
          && String.eqb cur (Py.repeat_str " " (String.length (word self)))
  then VStr MSG_CONNECT
  else if fails self w OutOfBounds then VStr MSG_BOUNDS
  else if (round_number w =? 1) && Nat.eqb 0 (wplayer self)
          && negb (loc_eqb (location self) (7, 7))
  then VStr MSG_CENTER
  else VTrue.

(** ** A concrete game *)

(** A shuffle that happens to leave the order alone. *)
Definition keep_order : Shuffler :=
  {| shuffle := fun _ l => l;
     shuffle_perm := fun _ l => Permutation_refl l |}.

(** The globals before [start_game] runs, with the words of [dic.txt]. *)
Definition boot (lex : list string) : World :=
  mkWorld [] [] [] 0 0 0 0 [] None lex.

Definition LEXICON : list string := ["AT"; "CAT"; "ATE"; "BA"].

(** Ann and Bob sit down: round 1, nothing placed. *)
Definition fresh_game : World :=
  Eval vm_compute in
    snd (@start_game keep_order ["Ann"; "Bob"] (boot LEXICON)).

(** Both skip their first turn: round 2, and still nothing placed. *)
Definition round2_game : World :=
  Eval vm_compute in snd (@turn keep_order [CSkip; CSkip] 0%nat fresh_game).

(** Decision procedure for [program_cell]: a placed letter is recognised
    by its ninth character. *)
Definition program_cellb (c : string) : bool :=
  String.eqb c EMPTY_CELL
  || existsb (String.eqb c)
       [TWS_CELL; TLS_CELL; DWS_CELL; DLS_CELL; CENTER_CELL]
  || match Py.str_at c 8 with
     | Some l => String.eqb c (letter_cell l)
     | None => false
     end.

Definition readableb (b : list (list string)) (rc : Z * Z) : bool :=
  match board_get b (fst rc) (snd rc) with
  | Some c => program_cellb c
  | None => false
  end.

(** ** Turns and the bag *)

(** The game is over at the start of the turn of player [p]. *)
Definition ends_game (p : nat) (w : World) : bool :=
  (6 <=? skipped_turns w)
  && negb ((List.length (rack (get_player p w)) =? 0)%nat
           && (List.length (bag w) =? 0)%nat).

(** A state made by hand, which no run reaches: no skip so far, the rack
    of the player to move is empty and so is the bag. *)
Definition nothing_left : World :=
  set_bag [] (set_players [mkPlayer "Ann" [] 0; mkPlayer "Bob" [] 0]
                fresh_game).

(** The tiles appended by the [add_to_bag] calls for the table [fill], the
    first of them allocated as object [o]. *)
Fixpoint fill_tiles (o : nat) (fill : list (string * nat)) : list Tile :=
  match fill with
  | [] => []
  | lq :: r =>
      (repeat (Tile_new (fst lq) LETTER_VALUES o) (snd lq)
       ++ fill_tiles (S o) r)%list
  end.

(** The number of tiles showing the letter [l]. *)
Definition count_letter (l : string) (ts : list Tile) : nat :=
  List.length (filter (fun t => String.eqb (letter t) l) ts).

(** The letter quantities of standard Scrabble (98 letter tiles; the two
    blanks, which the program does not have, make 100). *)
Definition STANDARD_FILL : list (string * nat) :=
  [("A", 9); ("B", 2); ("C", 2); ("D", 4); ("E", 12); ("F", 2); ("G", 3);
   ("H", 2); ("I", 9); ("J", 1); ("K", 1); ("L", 4); ("M", 2); ("N", 6);
   ("O", 8); ("P", 2); ("Q", 1); ("R", 6); ("S", 4); ("T", 6); ("U", 4);
   ("V", 2); ("W", 2); ("X", 1); ("Y", 2); ("Z", 1)]%nat.

(** The world after the 26 [add_to_bag] calls. *)
Definition filled (fill : list (string * nat)) (w : World) : World :=
  set_next_obj (next_obj w + List.length fill)
    (set_bag (bag w ++ fill_tiles (next_obj w) fill) w).

(** The bag right before the [pop] of [take_from_bag]. *)
Definition refilled {RNG : Shuffler} (w : World) : World :=
  if (Z.of_nat (List.length (bag w)) <? 10)
  then snd (initialize_bag w) else w.

(** ** Placement and scoring *)

(** The contents of the cells [cells] of the board of [w]. *)
Definition contents (w : World) (cells : list (Z * Z))
  : list (option string) :=
  map (fun rc => board_get (board w) (fst rc) (snd rc)) cells.

(** The points [calculate_word_score] adds for the word of [self] when the
    recorded bonus triggers are [spots]. *)
Definition score_added (self : Word) (spots : list (string * string))
  (w : World) : Z :=
  score (get_player (wplayer self)
           (snd (calculate_word_score self (set_premium_spots spots w))))
  - score (get_player (wplayer self) w).

(** The points Ann gains by the two steps that follow validation. *)
Definition gain (w : World) (wtp : string) (loc : Z * Z) (dir : string)
  : result Z :=
  match @apply_and_score keep_order (Word_new wtp loc 0 dir) wtp loc dir w
  with
  | (Ok _, w') => Ok (score (get_player 0 w') - score (get_player 0 w))
  | (Raise e, _) => Raise e
  end.

(** The cell lies on the 15 x 15 grid. *)
Definition in_grid (rc : Z * Z) : Prop :=
  0 <= fst rc < 15 /\ 0 <= snd rc < 15.

(** The bonus triggers of the letters [letters] for the cells [cells] of the
    board [b]: a letter is paired with the content of its cell when that
    content is not the blank text. *)
Fixpoint triggers (b : list (list string)) (cells : list (Z * Z))
  (letters : list string) : list (string * string) :=
  match cells, letters with
  | rc :: cells', l :: letters' =>
      match board_get b (fst rc) (snd rc) with
      | Some c =>
          if negb (String.eqb c EMPTY_CELL)
          then (l, c) :: triggers b cells' letters'
          else triggers b cells' letters'
      | None => triggers b cells' letters'
      end
  | _, _ => []
  end.

(** ** The rack passes of place_word *)

(** The rack after the pass of lines 287-289 for the letter [l], as a
    function of the rack before: [i] is the index of the list iterator. *)
Fixpoint strike_from (fuel i : nat) (l : string) (r : list Tile)
  : list Tile :=
  match nth_error r i with
  | None => r
  | Some tile =>
      match fuel with
      | O => r
      | S k =>
          strike_from k (S i) l
            (if String.eqb (letter tile) l
             then match list_remove tile r with
                  | Some r' => r'
                  | None => r
                  end
             else r)
      end
  end.

Definition strike (l : string) (r : list Tile) : list Tile :=
  strike_from (List.length r) 0 l r.

(** The rack after the passes for the letters [ls] of the word, in order. *)
Definition strike_word (ls : list string) (r : list Tile) : list Tile :=
  fold_left (fun r l => strike l r) ls r.

(** [r'] is [r] without some of its tiles showing [l]. *)
Inductive Deletes (l : string) : list Tile -> list Tile -> Prop :=
| del_nil : Deletes l [] []
| del_keep t r r' : Deletes l r r' -> Deletes l (t :: r) (t :: r')
| del_drop t r r' : letter t = l -> Deletes l r r' -> Deletes l (t :: r) r'.

(** No tile of [r] shows [l]. *)
Definition lacks (l : string) (r : list Tile) : Prop :=
  forall t, In t r -> letter t <> l.

(** The pass from index [i] on, with the fuel it needs. *)
Definition run (i : nat) (l : string) (r : list Tile) : list Tile :=
  strike_from (List.length r - i) i l r.

(** The world in which the rack of player [p] is [r]. *)
Definition with_rack (p : nat) (r : list Tile) (w : World) : World :=
  set_players (update_nth (players w) p (set_rack r)) w.

(** The rack length that [replenish_rack] aims at. *)
Definition replenished_length (len : nat) (b : list Tile) : nat :=
  match b with
  | [] => len
  | _ :: _ => Nat.max len 7
  end.

(** A step that leaves the players and the bag as they are. *)
Definition keeps {A} (m : M A) : Prop :=
  forall w, players (snd (m w)) = players w /\ bag (snd (m w)) = bag w.

(** A tile as the first fill of the bag makes it. *)
Definition tile (l : string) (o : nat) : Tile := Tile_new l LETTER_VALUES o.

(** Ann holds A B A C D E F: two A tiles, not next to each other. *)
Definition aba_game : World :=
  Eval vm_compute in
    with_rack 0 [tile "A" 0; tile "B" 1; tile "A" 0; tile "C" 2; tile "D" 3;
                 tile "E" 4; tile "F" 5] fresh_game.

(* ------------------------------------------------------------------ *)
(** * Vocabulary of the further properties *)

(** ** Frames *)

(** The computation leaves the component [f] of the world as it found it,
    whatever it returns or raises. *)
Definition preserves {X A} (f : World -> X) (m : M A) : Prop :=
  forall w, f (snd (m w)) = f w.

(** The computation keeps the property [P] of the world. *)
Definition maintains {A} (P : World -> Prop) (m : M A) : Prop :=
  forall w, P w -> P (snd (m w)).

(** ** The Word object *)

(** [Word.set_word] *)
Definition set_word (self : Word) (w : string) : Word :=
  mkWord (Py.upper w) (location self) (wplayer self) (direction self).

(** [Word.set_location] *)
Definition set_location (self : Word) (loc : Z * Z) : Word :=
  mkWord (word self) loc (wplayer self) (direction self).

(** [Word.set_direction] *)
Definition set_direction (self : Word) (d : string) : Word :=
  mkWord (word self) (location self) (wplayer self) d.

(** The [Word] object after the attempt [a] has been typed in during the
    retry loop (lines 539-550). *)
Definition retyped (self : Word) (a : Attempt) : Word :=
  set_direction
    (match a_loc a with
     | Some l => set_location (set_word self (a_word a)) l
     | None => set_word self (a_word a)
     end)
    (a_dir a).

(** ** Accepted placements *)

(** What [check_word] has established when it answers True. *)
Definition accepted (self : Word) (w : World) : Prop :=
  word self <> ""
  /\ (direction self = "right" \/ direction self = "down")
  /\ Py.str_in (word self) (lexicon w) = true
  /\ fails self w OutOfBounds = false
  /\ fails self w MustStartAtCenter = false
  /\ fails self w Disconnected = false
  /\ (grid15 (board w) -> Forall in_grid (target_cells self)).

(** ** What the rack and bag operations cannot see *)

(** A component of the world that no write to the generator or to one
    player object changes. *)
Definition player_blind {X} (f : World -> X) : Prop :=
  (forall n w, f (set_rng n w) = f w)
  /\ (forall p g w, f (set_players (update_nth (players w) p g) w) = f w).

(** A component of the world that no write to the bag, to the allocator, to
    the generator or to one player object changes. *)
Definition rack_blind {X} (f : World -> X) : Prop :=
  (forall b w, f (set_bag b w) = f w)
  /\ (forall n w, f (set_next_obj n w) = f w)
  /\ (forall n w, f (set_rng n w) = f w)
  /\ (forall p g w, f (set_players (update_nth (players w) p g) w) = f w).

(** ** The board through a placement *)

(** A cell is left as it was or holds a placed letter. *)
Definition cell_step (old new : string) : Prop :=
  new = old \/ exists ch, new = letter_cell (String ch EmptyString).

(** The board [b'] is [b] with letters placed on some cells. *)
Definition evolves (b b' : list (list string)) : Prop :=
  Forall2 (Forall2 cell_step) b b'.

(** Every cell holds a cell text of the program. *)
Definition cells_ok (b : list (list string)) : Prop :=
  Forall (Forall program_cell) b.

(** Every recorded trigger carries a cell text of the program. *)
Definition tags_ok (spots : list (string * string)) : Prop :=
  Forall (fun lc => program_cell (snd lc)) spots.

(** The sum of the letter values of [ls]; [None] when a letter has none. *)
Fixpoint face_value (ls : list string) : option Z :=
  match ls with
  | [] => Some 0
  | l :: r =>
      match dict_get LETTER_VALUES l, face_value r with
      | Some v, Some s => Some (v + s)
      | _, _ => None
      end
  end.

(** ** The start of a game *)

(** The board that [Board.__init__] builds. *)
Definition STANDARD_BOARD : list (list string) :=
  Eval vm_compute in board (snd (Board_init (boot []))).

(** The world in which the players of [start_game] take their seats. *)
Definition seated {RNG : Shuffler} (w : World) : World :=
  set_players []
    (set_rng (S (rng w))
       (set_bag (shuffle (rng w) (fill_tiles (next_obj w) BAG_FILL))
          (set_next_obj (next_obj w + 26) (set_board STANDARD_BOARD w)))).

(** ** The turn loop with another test *)

Section TurnWith.

Context {RNG : Shuffler}.

(** [menu] and [turn] with the test of line 453 replaced by [test]. *)
Fixpoint menu_with (test : nat -> M bool) (cmds : list Command) (p : nat)
  : M Outcome :=
  let turn cmds' p' :=
    go <- test p' ;;
    if go then menu_with test cmds' p' else w <- end_game ;; ret (Ended w) in
  match cmds with
  | [] => ret (Waiting p)
  | CShuffle :: r => shuffle_rack p ;;; menu_with test r p
  | CRenew :: r =>
      update_player p (set_rack []) ;;; replenish_rack p ;;;
      menu_with test r p
  | CSkip :: r =>
      modify (fun w => set_skipped_turns (skipped_turns w + 1) w) ;;;
      p' <- next_player p ;;
      turn r p'
  | CExit :: _ => ret Exited
  | CPlay a more :: r =>
      ok <- retry (Word_new (a_word a) (loc_of a) p (a_dir a))
              (a_word a) (loc_of a) (a_dir a) more ;;
      match ok with
      | None => ret (Waiting p)
      | Some (self, wtp, loc, dir) =>
          place_word wtp loc dir p ;;;
          calculate_word_score self ;;;
          modify (set_skipped_turns 0) ;;;
          p' <- next_player p ;;
          turn r p'
      end
  end.

Definition turn_with (test : nat -> M bool) (cmds : list Command) (p : nat)
  : M Outcome :=
  go <- test p ;;
  if go then menu_with test cmds p else w <- end_game ;; ret (Ended w).

(** The test that only looks at the skip counter. *)
Definition skips_only (p : nat) : M bool :=
  st <- gets skipped_turns ;; ret (st <? 6).

End TurnWith.

(** A property of the world that no step of a turn can break, given that
    a draw keeps it. *)
Definition turn_closed (Q : World -> Prop) : Prop :=
  (forall n w, Q w -> Q (set_skipped_turns n w))
  /\ (forall n w, Q w -> Q (set_round_number n w))
  /\ (forall s w, Q w -> Q (set_premium_spots s w))
  /\ (forall d w, Q w -> Q (set_dictionary d w))
  /\ (forall b w, Q w -> Q (set_board b w))
  /\ (forall n w, Q w -> Q (set_rng n w))
  /\ (forall p g w, Q w -> Q (set_players (update_nth (players w) p g) w)).

(** ** The location [-1, -1] *)

(** The cell that [board[-1][-1 + i]] denotes on a 15 x 15 board: Python
    counts a negative index from the end of the list. *)
Definition corner_cell (i : Z) : Z * Z :=
  (14, if i =? 0 then 14 else i - 1).

(** ** The end of the game in the words of the specification *)



(* ------------------------------------------------------------------ *)
(** * Properties *)

(** ** Laws of the monad and of its loops *)

Ltac monad_unfold :=
  unfold of_option in *; unfold bind, ret, raise, gets, modify in *.

Lemma readonly_ret {A} (a : A) : readonly (ret a).
Proof. intro w; reflexivity. Qed.

Lemma readonly_raise {A} (e : exn) : readonly (@raise A e).
Proof. intro w; reflexivity. Qed.

Lemma readonly_gets {A} (f : World -> A) : readonly (gets f).
Proof. intro w; reflexivity. Qed.

Lemma readonly_of_option {A} e (o : option A) : readonly (of_option e o).
Proof. destruct o; intro w; reflexivity. Qed.

Lemma readonly_bind {A B} (m : M A) (k : A -> M B) :
  readonly m -> (forall a, readonly (k a)) -> readonly (bind m k).
Proof.
  intros Hm Hk w. unfold bind.
  specialize (Hm w). destruct (m w) as [[a | e] w']; simpl in Hm; subst.
  - apply Hk.
  - reflexivity.
Qed.

Lemma readonly_for_each {A S} (xs : list A) (body : A -> S -> M S) :
  (forall x acc, readonly (body x acc)) ->
  forall acc, readonly (for_each xs body acc).
Proof.
  intros Hb. induction xs as [| x r IH]; intro acc; simpl.
  - apply readonly_ret.
  - apply readonly_bind; [apply Hb | intro; apply IH].
Qed.

Lemma readonly_if {A} (b : bool) (m1 m2 : M A) :
  readonly m1 -> readonly m2 -> readonly (if b then m1 else m2).
Proof. destruct b; auto. Qed.

Create HintDb ro.

#[local] Hint Resolve readonly_ret readonly_raise readonly_gets
  readonly_of_option readonly_if : ro.

Ltac ro_step :=
  first [ apply readonly_bind; [ | intro ]
        | apply readonly_for_each; intros
        | apply readonly_if
        | solve [auto with ro] ].

(** A read-only computation run from [w] is a function of [w]. *)
Lemma readonly_run {A} (m : M A) w : readonly m -> m w = (fst (m w), w).
Proof. intro H. specialize (H w). destruct (m w); simpl in *; congruence. Qed.

Lemma for_each_fold_res {A S} (body : A -> S -> M S)
  (f : A -> S -> result S) (w : World) :
  (forall x acc, body x acc w = (f x acc, w)) ->
  forall xs acc, for_each xs body acc w = (fold_res f xs acc, w).
Proof.
  intros Hb. induction xs as [| x r IH]; intro acc; simpl.
  - reflexivity.
  - unfold bind. rewrite Hb. destruct (f x acc); [apply IH | reflexivity].
Qed.

(** ** check_word reads, and never writes *)

Lemma readonly_read_cell r c : readonly (read_cell r c).
Proof. unfold read_cell. repeat ro_step. Qed.

Lemma readonly_scan_cell r c cur : readonly (scan_cell r c cur).
Proof.
  unfold scan_cell. apply readonly_bind; [apply readonly_read_cell |].
  intro. repeat ro_step.
Qed.

Lemma readonly_scan cell self : readonly (scan cell self).
Proof.
  unfold scan. apply readonly_for_each. intros. apply readonly_scan_cell.
Qed.

Lemma readonly_touch cell self : readonly (touch cell self).
Proof.
  unfold touch. apply readonly_for_each. intros.
  apply readonly_bind; [apply readonly_read_cell | intro; auto with ro].
Qed.

Lemma readonly_check_tiles self needed letters :
  readonly (check_tiles self needed letters).
Proof.
  induction letters as [| l r IH]; simpl; [auto with ro |].
  apply readonly_bind; [auto with ro | intro].
  apply readonly_if; auto with ro.
Qed.

Lemma readonly_check_rest self cur needed :
  readonly (check_rest self cur needed).
Proof.
  unfold check_rest.
  apply readonly_bind; [auto with ro | intro dict].
  apply readonly_if; [auto with ro |].
  apply readonly_bind.
  { unfold touch_cells.
    repeat apply readonly_if; auto using readonly_touch with ro. }
  intros _. apply readonly_bind; [auto with ro | intro rn].
  apply readonly_if; [auto with ro |].
  apply readonly_bind; [apply readonly_check_tiles | intros [msg |]].
  - auto with ro.
  - apply readonly_if; [auto with ro |].
    apply readonly_if; [| auto with ro].
    repeat ro_step.
Qed.

Lemma readonly_check_word_body self : readonly (check_word_body self).
Proof.
  unfold check_word_body.
  repeat apply readonly_if; auto with ro;
    (apply readonly_bind;
     [apply readonly_scan | intro; apply readonly_check_rest]).
Qed.

Lemma load_dictionary_run w : load_dictionary w = (Ok tt, loaded w).
Proof.
  unfold load_dictionary, loaded, lexicon. monad_unfold.
  destruct w as [b ps bg no rg rn st sp [d |] f]; reflexivity.
Qed.

Lemma loaded_idem w : loaded (loaded w) = loaded w.
Proof. reflexivity. Qed.

Lemma check_word_run self w :
  check_word self w = (fst (check_word_body self (loaded w)), loaded w).
Proof.
  unfold check_word. unfold bind at 1. rewrite load_dictionary_run.
  apply readonly_run, readonly_check_word_body.
Qed.

(** C9.  [check_word] leaves the board array, every player (rack and score)
    and the bag as they were, for every input and whether it returns or
    raises; run again on the world it left, it gives the same verdict. *)
Theorem check_word_frame (self : Word) (w : World) :
  board (snd (check_word self w)) = board w
  /\ players (snd (check_word self w)) = players w
  /\ bag (snd (check_word self w)) = bag w
  /\ fst (check_word self (snd (check_word self w)))
     = fst (check_word self w).
Proof.
  rewrite (check_word_run self w). simpl snd.
  rewrite (check_word_run self (loaded w)), loaded_idem.
  repeat split; reflexivity.
Qed.

(** ** What the scan of the target cells computes *)

Lemma scan_cell_run r c cur w :
  scan_cell r c cur w
  = (match board_get (board w) r c with
     | Some cl => match cell_piece cl with
                  | Some ch => Ok (cur ++ ch)
                  | None => Raise IndexError
                  end
     | None => Raise IndexError
     end, w).
Proof.
  unfold scan_cell, read_cell, cell_piece. monad_unfold.
  destruct (board_get (board w) r c) as [cl |]; [| reflexivity].
  unfold ret, raise.
  destruct (Py.str_in (Py.strip cl) BLANKS); [reflexivity |].
  destruct (Py.str_at (Py.strip cl) 1); reflexivity.
Qed.

Lemma scan_run cell self w :
  scan cell self w
  = (fold_res (scan_step (board w) cell (location self))
       (range (String.length (word self))) "", w).
Proof.
  unfold scan. apply for_each_fold_res. intros i cur.
  rewrite scan_cell_run. reflexivity.
Qed.

Lemma fold_res_raises {A S} (f : A -> S -> result S) (e : exn) :
  (forall x acc, f x acc = Raise e \/ exists a, f x acc = Ok a) ->
  forall xs, (exists x, In x xs /\ forall acc, f x acc = Raise e) ->
  forall acc, fold_res f xs acc = Raise e.
Proof.
  intros Hf. induction xs as [| y r IH]; intros [x [Hin Hx]] acc.
  - destruct Hin.
  - simpl. destruct Hin as [Heq | Hin].
    + subst y. rewrite Hx. reflexivity.
    + destruct (Hf y acc) as [Hy | [a Hy]]; rewrite Hy; [reflexivity |].
      apply IH. exists x; auto.
Qed.

Lemma scan_step_cases b cell loc i cur :
  scan_step b cell loc i cur = Raise IndexError
  \/ exists a, scan_step b cell loc i cur = Ok a.
Proof.
  unfold scan_step.
  destruct (board_get b _ _) as [c |]; [| auto].
  destruct (cell_piece c); eauto.
Qed.

(** ** C2: a placement running past the last row or column *)

Lemma in_range n i : In i (range n) <-> 0 <= i < Z.of_nat n.
Proof.
  unfold range. rewrite in_map_iff. split.
  - intros [k [<- Hk]]. apply in_seq in Hk. lia.
  - intros H. exists (Z.to_nat i). split; [lia |]. apply in_seq. lia.
Qed.

Lemma get_past_end {A} (l : list A) :
  Py.get l (Z.of_nat (List.length l)) = None.
Proof.
  unfold Py.get, Py.norm_index.
  destruct (_ && _) eqn:E1; [lia |].
  destruct ((- _ <=? _) && _) eqn:E2; [lia | reflexivity].
Qed.

Lemma get_in {A} (l : list A) i x : Py.get l i = Some x -> In x l.
Proof.
  unfold Py.get. destruct (Py.norm_index _ _); [| discriminate].
  apply nth_error_In.
Qed.

Lemma board_get_col15 b r : grid15 b -> board_get b r 15 = None.
Proof.
  intros [_ Hrows]. unfold board_get.
  destruct (Py.get b r) as [row |] eqn:E; [| reflexivity].
  apply get_in in E. rewrite Forall_forall in Hrows.
  specialize (Hrows _ E). change 15 with (Z.of_nat 15).
  rewrite <- Hrows. apply get_past_end.
Qed.

Lemma board_get_row15 b c : grid15 b -> board_get b 15 c = None.
Proof.
  intros [Hlen _]. unfold board_get.
  change 15 with (Z.of_nat 15). rewrite <- Hlen, get_past_end. reflexivity.
Qed.

Lemma check_word_body_right self :
  word self <> "" -> direction self = "right" ->
  check_word_body self
  = (cur <- scan cell_right self ;; check_rest self cur "").
Proof.
  intros Hne Hd. unfold check_word_body.
  apply String.eqb_neq in Hne. rewrite Hne, Hd. reflexivity.
Qed.

Lemma check_word_body_down self :
  word self <> "" -> direction self = "down" ->
  check_word_body self
  = (cur <- scan cell_down self ;; check_rest self cur "").
Proof.
  intros Hne Hd. unfold check_word_body.
  apply String.eqb_neq in Hne. rewrite Hne, Hd. reflexivity.
Qed.

(** C2, on the code.  On a 15 x 15 board, for a word at a location with row
    and column in 0..14 and direction right or down, if the location plus the
    length of the word along the placement axis exceeds 15 then
    [check_word] raises IndexError while it collects the cells under the
    word (it reads the cell of index 15): the test that returns the
    out-of-bounds message is never reached. *)
Theorem check_word_overflow_raises (self : Word) (w : World) :
  grid15 (board w) ->
  0 <= fst (location self) <= 14 ->
  0 <= snd (location self) <= 14 ->
  (direction self = "right"
   /\ 15 < snd (location self) + Z.of_nat (String.length (word self)))
  \/ (direction self = "down"
      /\ 15 < fst (location self) + Z.of_nat (String.length (word self))) ->
  fst (check_word self w) = Raise IndexError.
Proof.
  intros Hgrid Hrow Hcol Hover.
  assert (Hne : word self <> "").
  { intro He. rewrite He in Hover. simpl in Hover. lia. }
  rewrite check_word_run. simpl fst.
  assert (Hg : grid15 (board (loaded w))) by exact Hgrid.
  destruct Hover as [[Hd Hlen] | [Hd Hlen]];
    [rewrite check_word_body_right by assumption
    | rewrite check_word_body_down by assumption];
    unfold bind; rewrite scan_run.
  - rewrite (fold_res_raises _ IndexError).
    + reflexivity.
    + intros; apply scan_step_cases.
    + exists (15 - snd (location self)). split; [apply in_range; lia |].
      intro acc. unfold scan_step, cell_right. cbn [fst snd].
      replace (snd (location self) + (15 - snd (location self))) with 15
        by lia.
      rewrite board_get_col15 by assumption. reflexivity.
  - rewrite (fold_res_raises _ IndexError).
    + reflexivity.
    + intros; apply scan_step_cases.
    + exists (15 - fst (location self)). split; [apply in_range; lia |].
      intro acc. unfold scan_step, cell_down. cbn [fst snd].
      replace (fst (location self) + (15 - fst (location self))) with 15
        by lia.
      rewrite board_get_row15 by assumption. reflexivity.
Qed.

(** ** C3: the checks in the order of the code, and what counts as connected *)

Lemma chars_app a b : Py.chars (a ++ b) = (Py.chars a ++ Py.chars b)%list.
Proof. induction a as [| c a IH]; simpl; [| rewrite IH]; reflexivity. Qed.

Lemma chars_inj a : forall b, Py.chars a = Py.chars b -> a = b.
Proof.
  induction a as [| c a IH]; intros [| d b] H; simpl in H;
    try discriminate; [reflexivity |].
  injection H as -> H. f_equal. auto.
Qed.

Lemma chars_repeat n : Py.chars (Py.repeat_str " " n) = repeat " " n.
Proof. induction n as [| n IH]; simpl; [| rewrite IH]; reflexivity. Qed.

Lemma program_cell_piece c :
  program_cell c ->
  cell_piece c = Some (if String.eqb c EMPTY_CELL then " " else "[").
Proof.
  intros [-> | [Hin | [ch ->]]].
  - reflexivity.
  - simpl in Hin.
    destruct Hin as [<- | [<- | [<- | [<- | [<- | []]]]]]; reflexivity.
  - reflexivity.
Qed.

Lemma scan_readable b cell loc :
  forall xs acc,
    Forall (readable b) (map (cell loc) xs) ->
    exists cur,
      fold_res (scan_step b cell loc) xs acc = Ok cur
      /\ Py.chars cur
         = (Py.chars acc ++ map (mark b) (map (cell loc) xs))%list.
Proof.
  induction xs as [| i r IH]; intros acc H; simpl.
  - exists acc. rewrite app_nil_r. auto.
  - inversion H as [| ? ? [c [Hget Hc]] Hr]; subst.
    unfold scan_step at 1. rewrite Hget, (program_cell_piece c Hc).
    destruct (IH (acc ++ (if String.eqb c EMPTY_CELL then " " else "["))
                Hr) as [cur [Hcur Hch]].
    exists cur. split; [exact Hcur |].
    rewrite Hch, chars_app, <- app_assoc. f_equal.
    unfold mark, is_blank. rewrite Hget.
    destruct (String.eqb c EMPTY_CELL); reflexivity.
Qed.

Lemma marks_blank b cells :
  map (mark b) cells = repeat " " (List.length cells)
  <-> forallb (is_blank b) cells = true.
Proof.
  induction cells as [| rc r IH]; simpl; [tauto |].
  unfold mark at 1. destruct (is_blank b rc); simpl.
  - split; intro H; [injection H as H | f_equal]; tauto.
  - split; discriminate.
Qed.

Lemma range_length n : List.length (range n) = n.
Proof. unfold range. rewrite length_map, length_seq. reflexivity. Qed.

Lemma touch_readable cell self w :
  Forall (readable (board w))
    (map (cell (location self)) (range (String.length (word self)))) ->
  touch cell self w = (Ok tt, w).
Proof.
  intro H. unfold touch.
  rewrite (for_each_fold_res _
             (fun i (_ : unit) =>
                match board_get (board w) (fst (cell (location self) i))
                        (snd (cell (location self) i)) with
                | Some _ => Ok tt
                | None => Raise IndexError
                end)).
  - f_equal. induction (range (String.length (word self))) as [| i r IH];
      [reflexivity |].
    inversion H as [| ? ? [c [Hget Hc]] Hr]; subst.
    simpl. rewrite Hget. apply IH, Hr.
  - intros i acc. unfold read_cell. monad_unfold.
    destruct (board_get _ _ _); reflexivity.
Qed.

Lemma check_rest_run self cur w :
  touch_cells self w = (Ok tt, w) ->
  (round_number w = 1 -> players w <> []) ->
  check_rest self cur "" w = (Ok (rest_verdict self cur w), w).
Proof.
  intros Ht Hp. unfold check_rest, rest_verdict.
  cbv beta iota delta [bind gets].
  destruct (negb (Py.str_in _ _)); [reflexivity |].
  rewrite Ht.
  destruct ((1 <? round_number w) && _); [reflexivity |].
  cbn [Py.chars check_tiles]. unfold ret at 1.
  unfold fails.
  destruct (_ || _ || _ || _); [reflexivity |].
  destruct (round_number w =? 1) eqn:Ern; [| reflexivity].
  apply Z.eqb_eq in Ern. specialize (Hp Ern).
  destruct (players w) as [| p0 ps]; [congruence |].
  cbn. destruct (_ && _); reflexivity.
Qed.

Lemma blank_scan_iff b cells cur :
  Py.chars cur = map (mark b) cells ->
  String.eqb cur (Py.repeat_str " " (List.length cells))
  = forallb (is_blank b) cells.
Proof.
  intro H. apply eq_true_iff_eq.
  rewrite String.eqb_eq, <- marks_blank, <- H, <- chars_repeat.
  split; [intros ->; reflexivity | apply chars_inj].
Qed.

Lemma rest_verdict_first_failure self cur w cells :
  (String.eqb (direction self) "right" || String.eqb (direction self) "down")
  = true ->
  target_cells self = cells ->
  List.length cells = String.length (word self) ->
  Py.chars cur = map (mark (board w)) cells ->
  rest_verdict self cur (loaded w) = first_failure code_order self w.
Proof.
  intros Hdir Hcells Hlen Hcur.
  unfold rest_verdict, first_failure, code_order, find.
  unfold fails at 2. rewrite Hdir. cbn [negb].
  unfold fails at 2.
  change (dictionary (loaded w)) with (Some (lexicon w)).
  destruct (negb (Py.str_in _ _)); [reflexivity |].
  unfold fails at 2. rewrite Hcells.
  change (round_number (loaded w)) with (round_number w).
  rewrite <- Hlen, (blank_scan_iff _ _ _ Hcur).
  destruct (_ && _); [reflexivity |].
  unfold fails at 2.
  change (fails self (loaded w) OutOfBounds) with (fails self w OutOfBounds).
  destruct (fails self w OutOfBounds); [reflexivity |].
  unfold fails. rewrite (Nat.eqb_sym 0).
  destruct (_ && _ && _); reflexivity.
Qed.

Lemma check_word_scanned cell self w :
  check_word_body self
  = (cur <- scan cell self ;; check_rest self cur "") ->
  touch_cells self = touch cell self ->
  target_cells self = map (cell (location self))
                        (range (String.length (word self))) ->
  (String.eqb (direction self) "right" || String.eqb (direction self) "down")
  = true ->
  (round_number w = 1 -> players w <> []) ->
  Forall (readable (board w)) (target_cells self) ->
  fst (check_word self w) = Ok (first_failure code_order self w).
Proof.
  intros Hbody Htouch Hcells Hdir Hp Hread.
  rewrite check_word_run, Hbody. simpl fst.
  unfold bind. rewrite scan_run.
  change (board (loaded w)) with (board w).
  rewrite Hcells in Hread.
  destruct (scan_readable (board w) cell (location self) _ "" Hread)
    as [cur [Hcur Hch]].
  rewrite Hcur, check_rest_run.
  - simpl fst. f_equal.
    apply (rest_verdict_first_failure self cur w _ Hdir Hcells).
    + rewrite length_map, range_length. reflexivity.
    + exact Hch.
  - rewrite Htouch. apply touch_readable. exact Hread.
  - exact Hp.
Qed.

(** For an empty word [check_word] returns nothing (None).
    For a non-empty word whose target cells exist and hold cell texts of the
    program (and, in round 1, with at least one player), it returns the
    message of the first rule that fails in the order InvalidDirection,
    NotAWord, Disconnected, MissingTiles, OutOfBounds, MustStartAtCenter,
    and True when none fails; the MissingTiles rule never fails. *)
Lemma check_word_decision (self : Word) (w : World) :
  (round_number w = 1 -> players w <> []) ->
  Forall (readable (board w)) (target_cells self) ->
  fst (check_word self w)
  = Ok (if String.eqb (word self) "" then VNone
        else first_failure code_order self w).
Proof.
  intros Hp Hread.
  destruct (String.eqb (word self) "") eqn:Ew.
  - rewrite check_word_run. unfold check_word_body. rewrite Ew. reflexivity.
  - apply String.eqb_neq in Ew.
    destruct (String.eqb (direction self) "right") eqn:Er.
    + apply String.eqb_eq in Er.
      apply (check_word_scanned cell_right); auto.
      * apply check_word_body_right; assumption.
      * unfold touch_cells. rewrite Er. reflexivity.
      * unfold target_cells. rewrite Er. reflexivity.
      * rewrite Er. reflexivity.
    + destruct (String.eqb (direction self) "down") eqn:Ed.
      * apply String.eqb_eq in Ed.
        apply (check_word_scanned cell_down); auto.
        -- apply check_word_body_down; assumption.
        -- unfold touch_cells. rewrite Er, Ed. reflexivity.
        -- unfold target_cells. rewrite Er, Ed. reflexivity.
        -- rewrite Ed. apply orb_true_r.
      * rewrite check_word_run. unfold check_word_body.
        apply String.eqb_neq in Ew. rewrite Ew, Er, Ed. simpl fst.
        unfold first_failure, code_order, find, fails. rewrite Er, Ed.
        reflexivity.
Qed.

(** On a board of program cells, a validated direction and a word of the
    lexicon, after round 1: the Disconnected message is returned exactly
    when every target cell holds the blank text.  A premium marker, the
    centre marker and a placed letter all count as content. *)
Lemma disconnected_iff_all_blank (self : Word) (w : World) :
  word self <> "" ->
  direction self = "right" \/ direction self = "down" ->
  Py.str_in (word self) (lexicon w) = true ->
  1 < round_number w ->
  Forall (readable (board w)) (target_cells self) ->
  fst (check_word self w) = Ok (VStr MSG_CONNECT)
  <-> forallb (is_blank (board w)) (target_cells self) = true.
Proof.
  intros Hne Hdir Hlex Hrn Hread.
  rewrite check_word_decision by (assumption || lia).
  apply String.eqb_neq in Hne. rewrite Hne.
  unfold first_failure, code_order, find.
  assert (Hd : fails self w InvalidDirection = false).
  { unfold fails. destruct Hdir as [-> | ->]; reflexivity. }
  rewrite Hd. unfold fails at 1. rewrite Hlex. cbn [negb].
  unfold fails at 1. apply Z.ltb_lt in Hrn. rewrite Hrn. cbn [andb].
  destruct (forallb _ _); [split; reflexivity |].
  unfold fails at 1.
  destruct (fails self w OutOfBounds);
    [split; intro H; [inversion H | discriminate] |].
  destruct (fails self w MustStartAtCenter);
    split; intro H; (inversion H || discriminate).
Qed.

(* ------------------------------------------------------------------ *)
(** ** Deciding the hypotheses on a concrete board *)

Lemma chars_single s l : In l (Py.chars s) -> exists ch, l = String ch "".
Proof.
  induction s as [| c s IH]; simpl; [tauto |].
  intros [<- | H]; eauto.
Qed.

Lemma program_cellb_sound c : program_cellb c = true -> program_cell c.
Proof.
  unfold program_cellb, program_cell. intro H.
  apply orb_true_iff in H. destruct H as [H | H].
  - apply orb_true_iff in H. destruct H as [H | H].
    + left. apply String.eqb_eq, H.
    + right; left. apply existsb_exists in H.
      destruct H as [x [Hin Hx]]. apply String.eqb_eq in Hx. subst. exact Hin.
  - right; right. destruct (Py.str_at c 8) as [l |] eqn:E; [| discriminate].
    apply nth_error_In, chars_single in E. destruct E as [ch ->].
    exists ch. apply String.eqb_eq, H.
Defined.

Lemma readableb_sound b cells :
  forallb (readableb b) cells = true -> Forall (readable b) cells.
Proof.
  intro H. apply Forall_forall. intros rc Hin.
  rewrite forallb_forall in H. specialize (H rc Hin).
  unfold readableb in H. unfold readable.
  destruct (board_get b (fst rc) (snd rc)) as [c |]; [| discriminate].
  exists c. split; [reflexivity | apply program_cellb_sound, H].
Defined.

Lemma grid15_fresh_game : grid15 (board fresh_game).
Proof.
  split; [reflexivity |]. repeat constructor.
Defined.

(** The example of C2: a 3-letter word at (14,14), direction right. *)
Lemma check_word_overflow_raises_witness :
  let self := Word_new "cat" (14, 14) 0 "right" in
  grid15 (board fresh_game)
  /\ 0 <= fst (location self) <= 14
  /\ 0 <= snd (location self) <= 14
  /\ (direction self = "right"
      /\ 15 < snd (location self) + Z.of_nat (String.length (word self)))
  /\ fst (check_word self fresh_game) = Raise IndexError.
Proof.
  intro self.
  assert (Hg : grid15 (board fresh_game)) by apply grid15_fresh_game.
  assert (Hr : 0 <= fst (location self) <= 14) by (simpl; lia).
  assert (Hc : 0 <= snd (location self) <= 14) by (simpl; lia).
  assert (Ho : direction self = "right"
               /\ 15 < snd (location self)
                       + Z.of_nat (String.length (word self)))
    by (split; [reflexivity | simpl; lia]).
  refine (conj Hg (conj Hr (conj Hc (conj Ho _)))).
  exact (check_word_overflow_raises self fresh_game Hg Hr Hc (or_introl Ho)).
Defined.

(** C3, at the failing input.  In round 2 with no letter on the board, the
    word AT at (0,0) to the right covers the triple-word marker of the
    corner and one blank cell; [check_word] accepts it instead of returning
    the Disconnected message, because the marker text (with its colour
    codes) is not recognised as empty. *)
Theorem premium_marker_counts_as_connected :
  let self := Word_new "at" (0, 0) 0 "right" in
  round_number round2_game = 2
  /\ board round2_game = board fresh_game
  /\ board_get (board round2_game) 0 0 = Some TWS_CELL
  /\ board_get (board round2_game) 0 1 = Some EMPTY_CELL
  /\ fst (check_word self round2_game) = Ok VTrue.
Proof. vm_compute. repeat split; reflexivity. Qed.

(* ------------------------------------------------------------------ *)
(** ** C5: end_game *)

(** C5, on the code.  With at least one player, [end_game] raises TypeError
    at the first comparison of line 628, which orders the bound method
    [player.get_score] against the integer [highest_score]; no winner is
    computed, whatever the scores. *)
Theorem end_game_raises (w : World) (p : Player) (ps : list Player) :
  fst (end_game (set_players (p :: ps) w)) = Raise TypeError.
Proof. reflexivity. Qed.

(** Ann has 10 points and Bob 5: no winner is reported. *)
Lemma end_game_two_players :
  fst (end_game (set_players [mkPlayer "Ann" [] 10; mkPlayer "Bob" [] 5]
                   fresh_game))
  = Raise TypeError.
Proof. reflexivity. Qed.

(* ------------------------------------------------------------------ *)
(** ** The test at the start of a turn *)

Section TurnFacts.

Context {RNG : Shuffler}.

(** The test of line 453 on an arbitrary state: the game goes to
    [end_game] exactly when the skip counter is at least 6 and it is not the
    case that the rack of the player and the bag are both empty. *)
Lemma turn_ends_iff (cmds : list Command) (p : nat) (w : World) :
  turn cmds p w
  = if ends_game p w
    then (winner <- end_game ;; ret (Ended winner)) w
    else menu cmds p w.
Proof.
  unfold turn, turn_continues, get_rack_length, get_remaining_tiles,
    get_rack, ends_game.
  cbv beta iota delta [bind gets ret].
  destruct (skipped_turns w <? 6) eqn:E1.
  - apply Z.ltb_lt in E1.
    destruct (6 <=? skipped_turns w) eqn:E2; [apply Z.leb_le in E2; lia |].
    reflexivity.
  - apply Z.ltb_ge in E1.
    destruct (6 <=? skipped_turns w) eqn:E2;
      [| apply Z.leb_gt in E2; lia].
    cbn [orb andb].
    destruct (rack (get_player p w)) as [| t r];
      destruct (bag w) as [| t' b]; reflexivity.
Qed.

End TurnFacts.

(** A state that no run reaches (the bag is refilled before it is empty):
    there the test lets the turn proceed. *)
Lemma turn_with_nothing_left_proceeds :
  skipped_turns nothing_left = 0
  /\ rack (get_player 0 nothing_left) = []
  /\ bag nothing_left = []
  /\ @turn keep_order [] 0%nat nothing_left = (Ok (Waiting 0), nothing_left).
Proof. repeat split; reflexivity. Qed.

(** After six skips in a row the test fails and [end_game] is entered
    (where the comparison of line 628 raises); after five it is not. *)
Lemma six_skips_reach_end_game :
  fst (@turn keep_order [CSkip; CSkip; CSkip; CSkip; CSkip; CSkip] 0%nat
         fresh_game) = Raise TypeError
  /\ fst (@turn keep_order [CSkip; CSkip; CSkip; CSkip; CSkip] 0%nat
            fresh_game) = Ok (Waiting 1).
Proof. split; vm_compute; reflexivity. Qed.

(* ------------------------------------------------------------------ *)
(** ** C7: what a fill puts into the bag, and what a draw leaves *)

Section BagFacts.

Context {RNG : Shuffler}.

Lemma set_bag_set_bag b1 b2 w : set_bag b2 (set_bag b1 w) = set_bag b2 w.
Proof. reflexivity. Qed.

Lemma add_to_bag_from tile k quantity w :
  for_each (seq k quantity)
    (fun _ _ => modify (fun w => set_bag (bag w ++ [tile]) w)) tt w
  = (Ok tt, set_bag (bag w ++ repeat tile quantity) w).
Proof.
  revert k w. induction quantity as [| q IH]; intros k w; simpl.
  - rewrite app_nil_r. destruct w; reflexivity.
  - unfold bind at 1, modify at 1. rewrite IH. f_equal.
    rewrite set_bag_set_bag. cbn [bag set_bag]. rewrite <- app_assoc.
    reflexivity.
Qed.

Lemma add_to_bag_run tile quantity w :
  add_to_bag tile quantity w
  = (Ok tt, set_bag (bag w ++ repeat tile quantity) w).
Proof. apply add_to_bag_from. Qed.

Lemma fill_run fill w :
  for_each fill
    (fun lq _ => t <- new_tile (fst lq) ;; add_to_bag t (snd lq)) tt w
  = (Ok tt, filled fill w).
Proof.
  revert w. induction fill as [| lq r IH]; intro w; simpl.
  - unfold ret, filled. simpl. rewrite app_nil_r, Nat.add_0_r.
    destruct w; reflexivity.
  - unfold bind at 1. unfold new_tile.
    cbv beta iota delta [bind gets modify ret].
    rewrite add_to_bag_run, IH. f_equal.
    unfold filled. cbn [bag next_obj set_bag set_next_obj].
    rewrite <- app_assoc.
    unfold set_next_obj, set_bag.
    cbn [board players bag next_obj rng round_number skipped_turns
         premium_spots dictionary dic_txt fill_tiles List.length].
    f_equal. lia.
Qed.

Lemma initialize_bag_run w :
  initialize_bag w
  = (Ok tt,
     set_rng (S (rng w))
       (set_bag (shuffle (rng w) (bag w ++ fill_tiles (next_obj w) BAG_FILL))
          (filled BAG_FILL w))).
Proof.
  unfold initialize_bag. unfold bind at 1. rewrite fill_run.
  reflexivity.
Qed.

Lemma fill_tiles_length o fill :
  List.length (fill_tiles o fill) = list_sum (map snd fill).
Proof.
  revert o. induction fill as [| lq r IH]; intro o; simpl; [reflexivity |].
  rewrite length_app, repeat_length, IH. reflexivity.
Qed.

Lemma count_letter_app l a b :
  count_letter l (a ++ b) = (count_letter l a + count_letter l b)%nat.
Proof. unfold count_letter. rewrite filter_app, length_app. reflexivity. Qed.

Lemma count_letter_repeat l t n :
  count_letter l (repeat t n)
  = if String.eqb (letter t) l then n else 0%nat.
Proof.
  unfold count_letter. induction n as [| n IH]; simpl.
  - destruct (String.eqb (letter t) l); reflexivity.
  - destruct (String.eqb (letter t) l); simpl; [f_equal |]; exact IH.
Qed.

Lemma letter_Tile_new l o : letter (Tile_new l LETTER_VALUES o) = Py.upper l.
Proof. unfold Tile_new. destruct (dict_get _ _); reflexivity. Qed.

Lemma fill_tiles_count l o fill :
  count_letter l (fill_tiles o fill)
  = list_sum (map (fun lq => if String.eqb (Py.upper (fst lq)) l
                             then snd lq else 0%nat) fill).
Proof.
  revert o. induction fill as [| lq r IH]; intro o; simpl; [reflexivity |].
  rewrite count_letter_app, count_letter_repeat, letter_Tile_new, IH.
  reflexivity.
Qed.

Lemma count_letter_perm l a b :
  Permutation a b -> count_letter l a = count_letter l b.
Proof.
  unfold count_letter. induction 1; simpl.
  - reflexivity.
  - destruct (String.eqb (letter x) l); simpl; congruence.
  - destruct (String.eqb (letter x) l), (String.eqb (letter y) l);
      reflexivity.
  - congruence.
Qed.

Lemma Bag_init_run w :
  Bag_init w
  = (Ok tt,
     set_rng (S (rng w))
       (set_bag (shuffle (rng w) (fill_tiles (next_obj w) BAG_FILL))
          (set_next_obj (next_obj w + 26) w))).
Proof.
  unfold Bag_init. unfold bind at 1, modify at 1.
  rewrite initialize_bag_run. reflexivity.
Qed.

Lemma bag_pop_run w :
  bag w <> [] ->
  exists t, fst (bag_pop w) = Ok t
            /\ In t (bag w)
            /\ List.length (bag (snd (bag_pop w)))
               = (List.length (bag w) - 1)%nat
            /\ players (snd (bag_pop w)) = players w.
Proof.
  intro Hne. unfold bag_pop. cbv beta iota delta [bind gets].
  destruct (rev (bag w)) as [| t r] eqn:E.
  - apply (f_equal (@rev Tile)) in E. rewrite rev_involutive in E.
    contradiction.
  - exists t. unfold modify, ret. cbn [fst snd bag set_bag players].
    assert (Hb : bag w = (rev r ++ [t])%list).
    { rewrite <- (rev_involutive (bag w)), E. reflexivity. }
    repeat split.
    + rewrite Hb. apply in_or_app. right. left. reflexivity.
    + rewrite Hb, length_app. simpl. lia.
Qed.

Lemma refilled_length w :
  List.length (bag (refilled w))
  = if (List.length (bag w) <? 10)%nat
    then (List.length (bag w) + 106)%nat
    else List.length (bag w).
Proof.
  unfold refilled.
  destruct (Z.of_nat (List.length (bag w)) <? 10) eqn:E.
  - apply Z.ltb_lt in E.
    destruct (List.length (bag w) <? 10)%nat eqn:E'; 
      [| apply Nat.ltb_ge in E'; lia].
    rewrite initialize_bag_run. cbn [snd bag set_rng set_bag].
    rewrite (Permutation_length (shuffle_perm _ _)), length_app,
      fill_tiles_length.
    reflexivity.
  - apply Z.ltb_ge in E.
    destruct (List.length (bag w) <? 10)%nat eqn:E';
      [apply Nat.ltb_lt in E'; lia | reflexivity].
Qed.

Lemma take_from_bag_refilled w : take_from_bag w = bag_pop (refilled w).
Proof.
  unfold take_from_bag, refilled, get_remaining_tiles.
  cbv beta iota delta [bind gets].
  destruct (Z.of_nat (List.length (bag w)) <? 10).
  - rewrite initialize_bag_run. reflexivity.
  - reflexivity.
Qed.

Lemma refilled_nonempty w : bag (refilled w) <> [].
Proof.
  intro H. apply (f_equal (@List.length Tile)) in H.
  rewrite refilled_length in H. simpl in H.
  destruct (List.length (bag w) <? 10)%nat eqn:E; [lia |].
  apply Nat.ltb_ge in E. lia.
Qed.

Lemma refilled_players w : players (refilled w) = players w.
Proof.
  unfold refilled. destruct (_ <? 10); [| reflexivity].
  rewrite initialize_bag_run. reflexivity.
Qed.

(** A draw always yields a tile, it leaves the players alone, and the bag
    keeps at least nine tiles. *)
Lemma take_from_bag_run w :
  exists t, fst (take_from_bag w) = Ok t
            /\ players (snd (take_from_bag w)) = players w
            /\ List.length (bag (snd (take_from_bag w)))
               = (if (List.length (bag w) <? 10)%nat
                  then List.length (bag w) + 105
                  else List.length (bag w) - 1)%nat.
Proof.
  rewrite take_from_bag_refilled.
  destruct (bag_pop_run (refilled w) (refilled_nonempty w))
    as [t [Ht [_ [Hlen Hp]]]].
  exists t. split; [exact Ht |]. split.
  - rewrite Hp. apply refilled_players.
  - rewrite Hlen, refilled_length.
    destruct (List.length (bag w) <? 10)%nat; lia.
Qed.

(** The quantities of the fill are those of standard Scrabble except for J,
    which comes nine times instead of once. *)
Lemma fill_differs_from_standard_in_J :
  filter (fun ab => negb (Nat.eqb (snd (fst ab)) (snd (snd ab))))
    (combine BAG_FILL STANDARD_FILL)
  = [(("J", 9%nat), ("J", 1%nat))]
  /\ map fst BAG_FILL = map fst STANDARD_FILL
  /\ list_sum (map snd STANDARD_FILL) = 98%nat
  /\ list_sum (map snd BAG_FILL) = 106%nat.
Proof. repeat split; reflexivity. Qed.

(** C7, on the code.  The initial fill succeeds and leaves 106 tiles, nine
    of them J (K once, L four times): not the standard letter multiset.  A
    draw never fails; when it finds fewer than 10 tiles it adds a whole
    fill of 106 to the tiles still there, so the bag then holds 105 more
    tiles than before the draw, not 99. *)
Theorem bag_fill_and_draw (w : World) :
  fst (Bag_init w) = Ok tt
  /\ List.length (bag (snd (Bag_init w))) = 106%nat
  /\ count_letter "J" (bag (snd (Bag_init w))) = 9%nat
  /\ count_letter "K" (bag (snd (Bag_init w))) = 1%nat
  /\ count_letter "L" (bag (snd (Bag_init w))) = 4%nat
  /\ (exists t, fst (take_from_bag w) = Ok t)
  /\ List.length (bag (snd (take_from_bag w)))
     = (if (List.length (bag w) <? 10)%nat
        then List.length (bag w) + 105
        else List.length (bag w) - 1)%nat.
Proof.
  rewrite Bag_init_run. cbn [fst snd bag set_rng set_bag].
  split; [reflexivity |].
  split.
  { rewrite (Permutation_length (shuffle_perm _ _)), fill_tiles_length.
    reflexivity. }
  repeat split;
    try (rewrite (count_letter_perm _ _ _ (shuffle_perm _ _)),
           fill_tiles_count; reflexivity).
  - destruct (take_from_bag_run w) as [t [Ht _]]. eauto.
  - destruct (take_from_bag_run w) as [t [_ [_ Hlen]]]. exact Hlen.
Qed.

End BagFacts.

(* ------------------------------------------------------------------ *)
(** ** C6: which cells place_word tests for a bonus trigger *)

(** C6, at the failing input.  In round 2 on the untouched board, ATE goes
    down from (0,2): it covers two blank cells and the double-word marker
    at (2,2), and validation accepts it.  [place_word] writes the three
    letters into the column, but the trigger it records is (T, the
    double-letter marker of (0,3)): for direction down line 281 tests the
    cells to the right of the start, not the cells written.  The same word
    placed to the right from (2,0) records (E, the marker at (2,2)). *)
Theorem place_word_down_tests_the_row :
  let before := round2_game in
  let down := @place_word keep_order "ate" (0, 2) "down" 0%nat before in
  let right := @place_word keep_order "ate" (2, 0) "right" 0%nat before in
  fst (check_word (Word_new "ate" (0, 2) 0 "down") before) = Ok VTrue
  /\ contents before [(0, 2); (1, 2); (2, 2)]
     = [Some EMPTY_CELL; Some EMPTY_CELL; Some DWS_CELL]
  /\ contents before [(0, 2); (0, 3); (0, 4)]
     = [Some EMPTY_CELL; Some DLS_CELL; Some EMPTY_CELL]
  /\ fst down = Ok tt
  /\ contents (snd down) [(0, 2); (1, 2); (2, 2)]
     = [Some (letter_cell "A"); Some (letter_cell "T");
        Some (letter_cell "E")]
  /\ premium_spots (snd down) = [("T", DLS_CELL)]
  /\ fst right = Ok tt
  /\ contents (snd right) [(2, 0); (2, 1); (2, 2)]
     = [Some (letter_cell "A"); Some (letter_cell "T");
        Some (letter_cell "E")]
  /\ premium_spots (snd right) = [("E", DWS_CELL)].
Proof. vm_compute. repeat split; reflexivity. Qed.

(* ------------------------------------------------------------------ *)
(** ** C6 in general: the cells tested and the cells written *)

#[local] Open Scope list_scope.

Lemma get_nonneg {A} (l : list A) (i : Z) :
  0 <= i < Z.of_nat (List.length l) -> Py.get l i = nth_error l (Z.to_nat i).
Proof.
  intro H. unfold Py.get, Py.norm_index.
  destruct ((0 <=? i) && (i <? Z.of_nat (List.length l))) eqn:E;
    [reflexivity |].
  apply andb_false_iff in E. destruct E as [E | E];
    [apply Z.leb_gt in E | apply Z.ltb_ge in E]; lia.
Qed.

Lemma set_nonneg {A} (l : list A) (i : Z) (v : A) :
  0 <= i < Z.of_nat (List.length l) ->
  Py.set l i v = Some (Py.set_nth l (Z.to_nat i) v).
Proof.
  intro H. unfold Py.set, Py.norm_index.
  destruct ((0 <=? i) && (i <? Z.of_nat (List.length l))) eqn:E;
    [reflexivity |].
  apply andb_false_iff in E. destruct E as [E | E];
    [apply Z.leb_gt in E | apply Z.ltb_ge in E]; lia.
Qed.

Lemma set_nth_length {A} (l : list A) n v :
  List.length (Py.set_nth l n v) = List.length l.
Proof.
  revert n. induction l as [| x r IH]; intros [| n]; simpl; auto.
Qed.

Lemma nth_error_set_nth_same {A} (l : list A) n v :
  (n < List.length l)%nat -> nth_error (Py.set_nth l n v) n = Some v.
Proof.
  revert n. induction l as [| x r IH]; intros [| n] H; simpl in *;
    try lia; [reflexivity |].
  apply IH. lia.
Qed.

Lemma nth_error_set_nth_other {A} (l : list A) n m v :
  n <> m -> nth_error (Py.set_nth l n v) m = nth_error l m.
Proof.
  revert n m. induction l as [| x r IH]; intros [| n] [| m] H; simpl;
    try reflexivity; try congruence.
  apply IH. congruence.
Qed.

Lemma grid15_row b r row :
  grid15 b -> nth_error b r = Some row -> List.length row = 15%nat.
Proof.
  intros [_ H] E. rewrite Forall_forall in H. apply H.
  eapply nth_error_In, E.
Qed.

Lemma Forall_set_nth {A} (P : A -> Prop) (l : list A) n v :
  Forall P l -> P v -> Forall P (Py.set_nth l n v).
Proof.
  intros H Hv. revert n. induction H as [| x r Hx Hr IH]; intros [| n];
    simpl; constructor; auto.
Qed.

(** Writing a cell of the grid succeeds, is read back, and leaves the other
    cells of the grid as they were. *)
Lemma board_set_spec b rc v :
  grid15 b -> in_grid rc ->
  exists b',
    board_set b (fst rc) (snd rc) v = Some b'
    /\ grid15 b'
    /\ board_get b' (fst rc) (snd rc) = Some v
    /\ (forall rc', in_grid rc' -> rc' <> rc ->
        board_get b' (fst rc') (snd rc') = board_get b (fst rc') (snd rc')).
Proof.
  intros Hg [Hr Hc]. destruct rc as [r c]. simpl in *.
  pose proof Hg as [Hlen Hrows].
  unfold board_set, board_get.
  rewrite (get_nonneg b r) by lia.
  destruct (nth_error b (Z.to_nat r)) as [row |] eqn:Erow.
  2: { apply nth_error_None in Erow. lia. }
  pose proof (grid15_row _ _ _ Hg Erow) as Hrow.
  rewrite (set_nonneg row c) by lia.
  rewrite (set_nonneg b r) by lia.
  eexists. split; [reflexivity |]. split; [| split].
  - split; [rewrite set_nth_length; exact Hlen |].
    apply Forall_set_nth; [exact Hrows |].
    rewrite set_nth_length. exact Hrow.
  - rewrite get_nonneg by (rewrite set_nth_length; lia).
    rewrite nth_error_set_nth_same by lia.
    rewrite get_nonneg by (rewrite set_nth_length; lia).
    apply nth_error_set_nth_same. lia.
  - intros [r' c'] [Hr' Hc'] Hne. simpl in *.
    rewrite get_nonneg by (rewrite set_nth_length; lia).
    rewrite (get_nonneg b r') by lia.
    destruct (Z.eq_dec r' r) as [-> | Hrr].
    + rewrite nth_error_set_nth_same by lia. rewrite Erow.
      rewrite get_nonneg by (rewrite set_nth_length; lia).
      rewrite (get_nonneg row c') by lia.
      apply nth_error_set_nth_other. intro He.
      apply Hne. f_equal. lia.
    + rewrite nth_error_set_nth_other by lia. reflexivity.
Qed.

Lemma board_get_in_grid b rc :
  grid15 b -> in_grid rc -> exists c, board_get b (fst rc) (snd rc) = Some c.
Proof.
  intros Hg [Hr Hc]. pose proof Hg as [Hlen _]. unfold board_get.
  rewrite get_nonneg by lia.
  destruct (nth_error b (Z.to_nat (fst rc))) as [row |] eqn:Erow.
  2: { apply nth_error_None in Erow. lia. }
  pose proof (grid15_row _ _ _ Hg Erow) as Hrow.
  rewrite get_nonneg by lia.
  destruct (nth_error row (Z.to_nat (snd rc))) as [c |] eqn:Ec; [eauto |].
  apply nth_error_None in Ec. lia.
Qed.

Lemma triggers_ext b1 b2 cells :
  (forall rc, In rc cells ->
     board_get b1 (fst rc) (snd rc) = board_get b2 (fst rc) (snd rc)) ->
  forall letters, triggers b1 cells letters = triggers b2 cells letters.
Proof.
  induction cells as [| rc cells IH]; intros H [| l ls]; simpl;
    try reflexivity.
  rewrite (H rc) by (left; reflexivity).
  rewrite IH by (intros; apply H; right; assumption).
  reflexivity.
Qed.

Lemma place_letter_run chk tgt l w :
  grid15 (board w) -> in_grid chk -> in_grid tgt ->
  exists b',
    board_set (board w) (fst tgt) (snd tgt) (letter_cell l) = Some b'
    /\ place_letter chk tgt l w
       = (Ok tt,
          set_board b'
            (set_premium_spots
               (premium_spots w ++ triggers (board w) [chk] [l]) w)).
Proof.
  intros Hg Hchk Htgt.
  destruct (board_set_spec (board w) tgt (letter_cell l) Hg Htgt)
    as [b' [Hset _]].
  destruct (board_get_in_grid (board w) chk Hg Hchk) as [c Hc].
  exists b'. split; [exact Hset |].
  unfold place_letter, read_cell, write_cell.
  cbv beta iota delta [bind gets of_option]. rewrite Hc.
  unfold ret at 1. simpl triggers. rewrite Hc.
  destruct (negb (String.eqb c EMPTY_CELL)).
  - unfold modify at 1. cbn [board set_premium_spots]. rewrite Hset.
    reflexivity.
  - unfold ret at 1. rewrite Hset. unfold ret, modify.
    rewrite app_nil_r. destruct w; reflexivity.
Qed.

(** The loop over the letters [ls], numbered from [k], that tests the cell
    [chk i] and writes the cell [tgt i]: when no tested cell has been written
    before its test, the triggers recorded are those of the tested cells as
    they were before the placement, and every target cell ends up holding
    its letter. *)
Lemma place_loop_run (chk tgt : Z -> Z * Z) (ls : list string) :
  forall (k : nat) (w : World),
    grid15 (board w) ->
    (forall i, (k <= i < k + List.length ls)%nat ->
       in_grid (chk (Z.of_nat i)) /\ in_grid (tgt (Z.of_nat i))) ->
    (forall i j, (k <= j < i)%nat -> (i < k + List.length ls)%nat ->
       chk (Z.of_nat i) <> tgt (Z.of_nat j)
       /\ tgt (Z.of_nat i) <> tgt (Z.of_nat j)) ->
    let idx := map Z.of_nat (seq k (List.length ls)) in
    let run := for_each (combine idx ls)
                 (fun iw _ => place_letter (chk (fst iw)) (tgt (fst iw))
                                (snd iw)) tt w in
    fst run = Ok tt
    /\ premium_spots (snd run)
       = premium_spots w ++ triggers (board w) (map chk idx) ls
    /\ contents (snd run) (map tgt idx) = map (fun l => Some (letter_cell l)) ls
    /\ (forall rc, in_grid rc -> ~ In rc (map tgt idx) ->
        board_get (board (snd run)) (fst rc) (snd rc)
        = board_get (board w) (fst rc) (snd rc))
    /\ grid15 (board (snd run)).
Proof.
  induction ls as [| l ls IH]; intros k w Hg Hin Hne; simpl.
  - rewrite app_nil_r. repeat split; try reflexivity; apply Hg.
  - destruct (Hin k) as [Hck Htk]; [simpl; lia |].
    destruct (place_letter_run (chk (Z.of_nat k)) (tgt (Z.of_nat k)) l w
                Hg Hck Htk) as [b' [Hset Hrun]].
    destruct (board_set_spec (board w) (tgt (Z.of_nat k)) (letter_cell l)
                Hg Htk) as [b'' [Hset' [Hg' [Hsame Hother]]]].
    rewrite Hset in Hset'. injection Hset' as <-.
    unfold bind. rewrite Hrun. cbv beta iota.
    set (w1 := set_board b'
                 (set_premium_spots
                    (premium_spots w
                     ++ triggers (board w) [chk (Z.of_nat k)] [l]) w)).
    destruct (IH (S k) w1) as [H1 [H2 [H3 [H4 H5]]]].
    + exact Hg'.
    + intros i Hi. apply Hin. simpl. lia.
    + intros i j Hj Hi. apply Hne; simpl; lia.
    + cbv zeta in H1, H2, H3, H4, H5.
      assert (Hafter : forall i, In i (seq (S k) (List.length ls)) ->
                tgt (Z.of_nat i) <> tgt (Z.of_nat k)
                /\ chk (Z.of_nat i) <> tgt (Z.of_nat k)).
      { intros i Hi. apply in_seq in Hi.
        destruct (Hne i k) as [Ha Hb]; [lia | simpl; lia |]. auto. }
      split; [exact H1 |]. split; [| split; [| split]].
      * rewrite H2. unfold w1. cbn [premium_spots set_board board
                                     set_premium_spots].
        rewrite <- app_assoc. f_equal.
        rewrite (triggers_ext b' (board w)).
        -- simpl. destruct (board_get (board w) _ _) as [c |];
             [destruct (negb _) |]; reflexivity.
        -- intros rc Hrc. apply in_map_iff in Hrc.
           destruct Hrc as [z [<- Hz]]. apply in_map_iff in Hz.
           destruct Hz as [i [<- Hi]].
           apply Hother; [apply Hin; apply in_seq in Hi; simpl; lia |].
           apply Hafter, Hi.
      * unfold contents in *. simpl. f_equal; [| exact H3].
        rewrite H4; [exact Hsame | exact Htk |].
        intro Hrc. apply in_map_iff in Hrc.
        destruct Hrc as [z [Hz Hz']]. apply in_map_iff in Hz'.
        destruct Hz' as [i [<- Hi]].
        apply (proj1 (Hafter i Hi)). exact Hz.
      * intros rc Hrc Hnot. rewrite H4; [| exact Hrc |].
        -- apply Hother; [exact Hrc |].
           intro He. apply Hnot. left. symmetry. exact He.
        -- intro Hi. apply Hnot. right. exact Hi.
      * exact H5.
Qed.

Lemma chars_length s : List.length (Py.chars s) = String.length s.
Proof. induction s as [| c s IH]; simpl; [| rewrite IH]; reflexivity. Qed.

(** Direction right, on the grid: the triggers recorded are those of the
    cells written, as the claim C6 has it. *)
Lemma place_letters_right (word dir : string) (loc : Z * Z) (w : World) :
  Py.lower dir = "right" ->
  grid15 (board w) ->
  0 <= fst loc < 15 -> 0 <= snd loc ->
  snd loc + Z.of_nat (String.length word) <= 15 ->
  let cells := map (cell_right loc) (range (String.length word)) in
  let after := place_letters word loc dir w in
  fst after = Ok tt
  /\ premium_spots (snd after)
     = premium_spots w ++ triggers (board w) cells (Py.chars word)
  /\ contents (snd after) cells
     = map (fun l => Some (letter_cell l)) (Py.chars word).
Proof.
  intros Hd Hg Hr Hc Hlen cells after. unfold after, place_letters.
  rewrite Hd. cbn [String.eqb Ascii.eqb Bool.eqb andb]. cbv iota.
  unfold enumerate, range, cells. rewrite chars_length.
  rewrite <- (chars_length word) in *.
  destruct (place_loop_run (cell_right loc) (cell_right loc) (Py.chars word)
              0%nat w Hg) as [H1 [H2 [H3 _]]].
  - intros i Hi. unfold in_grid, cell_right. simpl. lia.
  - intros i j Hj Hi. unfold cell_right.
    split; intro He; injection He as He; lia.
  - cbv zeta in H1, H2, H3. unfold range. rewrite !map_map in *. auto.
Qed.

(** Direction down, on the grid: the letters go down the column, but the
    triggers recorded are those of the cells to the right of the start. *)
Lemma place_letters_down (word dir : string) (loc : Z * Z) (w : World) :
  Py.lower dir = "down" ->
  grid15 (board w) ->
  0 <= fst loc -> fst loc + Z.of_nat (String.length word) <= 15 ->
  0 <= snd loc -> snd loc + Z.of_nat (String.length word) <= 15 ->
  let tested := map (cell_right loc) (range (String.length word)) in
  let written := map (cell_down loc) (range (String.length word)) in
  let after := place_letters word loc dir w in
  fst after = Ok tt
  /\ premium_spots (snd after)
     = premium_spots w ++ triggers (board w) tested (Py.chars word)
  /\ contents (snd after) written
     = map (fun l => Some (letter_cell l)) (Py.chars word).
Proof.
  intros Hd Hg Hr Hrl Hc Hcl tested written after.
  unfold after, place_letters.
  rewrite Hd. cbn [String.eqb Ascii.eqb Bool.eqb andb]. cbv iota.
  unfold enumerate, range, tested, written. rewrite chars_length.
  rewrite <- (chars_length word) in *.
  destruct (place_loop_run (cell_right loc) (cell_down loc) (Py.chars word)
              0%nat w Hg) as [H1 [H2 [H3 _]]].
  - intros i Hi. unfold in_grid, cell_right, cell_down. simpl. lia.
  - intros i j Hj Hi. unfold cell_right, cell_down.
    split; intro He; inversion He; lia.
  - cbv zeta in H1, H2, H3. unfold range. rewrite !map_map in *. auto.
Qed.

(** A word placed down within three columns of the right edge: validation
    accepts ATE at (0,13) in round 2, and [place_word] raises IndexError at
    the test of board[0][15], after writing A and T. *)
Lemma place_word_down_near_the_edge :
  let down := @place_word keep_order "ate" (0, 13) "down" 0%nat round2_game in
  fst (check_word (Word_new "ate" (0, 13) 0 "down") round2_game) = Ok VTrue
  /\ fst down = Raise IndexError
  /\ contents (snd down) [(0, 13); (1, 13); (2, 13)]
     = [Some (letter_cell "A"); Some (letter_cell "T"); Some EMPTY_CELL].
Proof. vm_compute. repeat split; reflexivity. Qed.

(* ------------------------------------------------------------------ *)
(** ** The scorer on bare tags *)

Section ScoreFacts.

Context {RNG : Shuffler}.

Lemma nth_update_nth {A} (l : list A) (n : nat) (f : A -> A) (d : A) :
  (n < List.length l)%nat -> nth n (update_nth l n f) d = f (nth n l d).
Proof.
  revert n. induction l as [| x r IH]; intros [| n] H; simpl in *;
    try lia; [reflexivity |].
  apply IH. lia.
Qed.

Lemma update_nth_length {A} (l : list A) (n : nat) (f : A -> A) :
  List.length (update_nth l n f) = List.length l.
Proof.
  revert n. induction l as [| x r IH]; intros [| n]; simpl; auto.
Qed.

Lemma get_player_update p f w :
  (p < List.length (players w))%nat ->
  get_player p (set_players (update_nth (players w) p f) w)
  = f (get_player p w).
Proof. intro H. unfold get_player. simpl. apply nth_update_nth, H. Qed.

(** The scorer taken alone, on triggers carrying the bare tags (which
    [place_word] never records): for the word AT it adds 6 for (A, TLS) and
    (T, TLS), and 12, that is (1 + 1*3) * 3, for (A, TWS) and (T, TLS). *)
Lemma calculate_word_score_AT (w : World) (loc : Z * Z) (p : nat)
  (dir : string) :
  (p < List.length (players w))%nat ->
  score_added (Word_new "AT" loc p dir) [("A", "TLS"); ("T", "TLS")] w = 6
  /\ score_added (Word_new "AT" loc p dir) [("A", "TWS"); ("T", "TLS")] w
     = 12.
Proof.
  intro Hp. unfold score_added, calculate_word_score, increase_score,
    update_player, word_score_of.
  cbn [Word_new word wplayer]. split.
  - cbn. rewrite (nth_update_nth _ _ _ _ Hp). unfold get_player. cbn. lia.
  - cbn. rewrite (nth_update_nth _ _ _ _ Hp). unfold get_player. cbn. lia.
Qed.

End ScoreFacts.

(* ------------------------------------------------------------------ *)
(** ** C10: the tiles that leave the rack *)

Lemma tile_eqb_eq a b : tile_eqb a b = true <-> a = b.
Proof.
  unfold tile_eqb. destruct a as [la sa oa], b as [lb sb ob]. simpl.
  rewrite !andb_true_iff, Nat.eqb_eq, String.eqb_eq, Z.eqb_eq.
  split; [intros [[-> ->] ->]; reflexivity | intro H; inversion H; auto].
Qed.

Lemma tile_eqb_refl a : tile_eqb a a = true.
Proof. apply tile_eqb_eq. reflexivity. Qed.

Lemma list_remove_in t r :
  In t r -> exists r', list_remove t r = Some r'
                       /\ S (List.length r') = List.length r.
Proof.
  induction r as [| y r IH]; intro H; [destruct H |]. simpl.
  destruct (tile_eqb y t) eqn:E; [eauto |].
  destruct H as [-> | H]; [rewrite tile_eqb_refl in E; discriminate |].
  destruct (IH H) as [r' [-> Hlen]]. exists (y :: r'). simpl. auto.
Qed.

Lemma list_remove_lacks t pre post :
  lacks (letter t) pre ->
  list_remove t (pre ++ t :: post) = Some (pre ++ post).
Proof.
  induction pre as [| y pre IH]; intro H; simpl.
  - rewrite tile_eqb_refl. reflexivity.
  - destruct (tile_eqb y t) eqn:E.
    + apply tile_eqb_eq in E. subst y.
      exfalso. apply (H t); [left |]; reflexivity.
    + rewrite IH; [reflexivity |]. intros u Hu. apply H. right. exact Hu.
Qed.

Lemma Deletes_refl l r : Deletes l r r.
Proof. induction r; constructor; auto. Qed.

Lemma Deletes_trans l a b c : Deletes l a b -> Deletes l b c -> Deletes l a c.
Proof.
  intro H. revert c. induction H; intros c Hc.
  - exact Hc.
  - inversion Hc; subst.
    + apply del_keep. auto.
    + apply del_drop; auto.
  - apply del_drop; auto.
Qed.

Lemma list_remove_Deletes t r r' :
  list_remove t r = Some r' -> Deletes (letter t) r r'.
Proof.
  revert r'. induction r as [| y r IH]; intros r' H; simpl in H;
    [discriminate |].
  destruct (tile_eqb y t) eqn:E.
  - injection H as <-. apply tile_eqb_eq in E. subst y.
    apply del_drop; [reflexivity | apply Deletes_refl].
  - destruct (list_remove t r) as [r1 |]; [| discriminate].
    injection H as <-. apply del_keep. auto.
Qed.

Lemma strike_from_Deletes l fuel :
  forall i r, Deletes l r (strike_from fuel i l r).
Proof.
  induction fuel as [| k IH]; intros i r; simpl.
  - destruct (nth_error r i); apply Deletes_refl.
  - destruct (nth_error r i) as [t |]; [| apply Deletes_refl].
    destruct (String.eqb (letter t) l) eqn:E; [| apply IH].
    apply String.eqb_eq in E.
    destruct (list_remove t r) as [r' |] eqn:Hr; [| apply IH].
    apply Deletes_trans with r'; [| apply IH].
    rewrite <- E. apply list_remove_Deletes, Hr.
Qed.

Lemma strike_Deletes l r : Deletes l r (strike l r).
Proof. apply strike_from_Deletes. Qed.

Lemma Deletes_incl l r r' t : Deletes l r r' -> In t r' -> In t r.
Proof.
  induction 1; intro Hin; simpl in *; auto.
  destruct Hin; auto.
Qed.

Lemma Deletes_keeps l r r' t :
  Deletes l r r' -> In t r -> letter t <> l -> In t r'.
Proof.
  induction 1; intros Hin Hne; simpl in *; auto.
  - destruct Hin; auto.
  - destruct Hin as [-> | Hin]; [contradiction | auto].
Qed.

Lemma Deletes_lacks l l' r r' : Deletes l' r r' -> lacks l r -> lacks l r'.
Proof. intros H Hl t Ht. apply Hl. eapply Deletes_incl; eauto. Qed.

Lemma Deletes_split l pre a post r' :
  Deletes l (pre ++ a :: post) r' ->
  letter a <> l ->
  exists pre' post',
    r' = (pre' ++ a :: post')%list
    /\ Deletes l pre pre' /\ Deletes l post post'.
Proof.
  revert r'. induction pre as [| y pre IH]; intros r' H Ha; simpl in H.
  - inversion H; subst; [| contradiction].
    exists [], r'0. repeat split; [constructor | assumption].
  - inversion H; subst.
    + destruct (IH _ H3 Ha) as [pre' [post' [-> [H1 H2]]]].
      exists (y :: pre'), post'. repeat split; [constructor |]; assumption.
    + destruct (IH _ H4 Ha) as [pre' [post' [-> [H1 H2]]]].
      exists pre', post'.
      repeat split; [apply del_drop; [reflexivity | assumption] | assumption].
Qed.

(** Tiles showing another letter stay, in their order. *)
Lemma Deletes_filter l r r' :
  Deletes l r r' ->
  filter (fun t => negb (String.eqb (letter t) l)) r'
  = filter (fun t => negb (String.eqb (letter t) l)) r.
Proof.
  induction 1; simpl.
  - reflexivity.
  - rewrite IHDeletes. reflexivity.
  - apply String.eqb_eq in H. rewrite H. exact IHDeletes.
Qed.

Lemma list_remove_length t r r' :
  list_remove t r = Some r' -> S (List.length r') = List.length r.
Proof.
  revert r'. induction r as [| y r IH]; intros r' H; simpl in H;
    [discriminate |].
  destruct (tile_eqb y t); [injection H as <-; reflexivity |].
  destruct (list_remove t r) as [r1 |]; [| discriminate].
  injection H as <-. simpl. f_equal. auto.
Qed.

Lemma nth_error_Some_lt {A} (l : list A) n x :
  nth_error l n = Some x -> (n < List.length l)%nat.
Proof. intro H. apply nth_error_Some. congruence. Qed.

(** Any fuel that covers the rest of the rack gives the same rack. *)
Lemma strike_from_fuel l f1 :
  forall f2 i r,
    (List.length r - i <= f1)%nat -> (List.length r - i <= f2)%nat ->
    strike_from f1 i l r = strike_from f2 i l r.
Proof.
  induction f1 as [| k1 IH]; intros f2 i r H1 H2.
  - destruct f2; simpl; destruct (nth_error r i) eqn:E; try reflexivity.
    apply nth_error_Some_lt in E. lia.
  - destruct f2 as [| k2]; simpl; destruct (nth_error r i) as [t |] eqn:E;
      try reflexivity.
    + apply nth_error_Some_lt in E. lia.
    + apply nth_error_Some_lt in E.
      destruct (String.eqb (letter t) l); [| apply IH; lia].
      destruct (list_remove t r) as [r' |] eqn:Hr; [| apply IH; lia].
      apply list_remove_length in Hr. apply IH; lia.
Qed.

Lemma run_end i l r : nth_error r i = None -> run i l r = r.
Proof.
  intro H. unfold run. destruct (List.length r - i)%nat; simpl; rewrite H;
    reflexivity.
Qed.

Lemma run_pass i l r t :
  nth_error r i = Some t -> letter t <> l -> run i l r = run (S i) l r.
Proof.
  intros H Hne. unfold run.
  pose proof (nth_error_Some_lt _ _ _ H) as Hlt.
  replace (List.length r - i)%nat with (S (List.length r - S i)) by lia.
  simpl. rewrite H. apply String.eqb_neq in Hne. rewrite Hne. reflexivity.
Qed.

Lemma run_hit i l r t r' :
  nth_error r i = Some t -> letter t = l -> list_remove t r = Some r' ->
  run i l r = run (S i) l r'.
Proof.
  intros H He Hr. unfold run.
  pose proof (nth_error_Some_lt _ _ _ H) as Hlt.
  pose proof (list_remove_length _ _ _ Hr) as Hlen.
  replace (List.length r - i)%nat with (S (List.length r - S i)) by lia.
  simpl. rewrite H. apply String.eqb_eq in He. rewrite He, Hr.
  apply strike_from_fuel; lia.
Qed.

Lemma nth_error_middle {A} (pre : list A) x post :
  nth_error (pre ++ x :: post) (List.length pre) = Some x.
Proof.
  rewrite nth_error_app2 by lia. rewrite Nat.sub_diag. reflexivity.
Qed.

Lemma run_skip l mid :
  forall pre post,
    lacks l mid ->
    run (List.length pre) l (pre ++ mid ++ post)
    = run (List.length pre + List.length mid) l (pre ++ mid ++ post).
Proof.
  induction mid as [| y mid IH]; intros pre post H.
  - simpl. rewrite Nat.add_0_r. reflexivity.
  - simpl. rewrite (run_pass _ _ _ y).
    + replace (pre ++ y :: mid ++ post) with ((pre ++ [y]) ++ mid ++ post)
        by (rewrite <- app_assoc; reflexivity).
      replace (S (List.length pre)) with (List.length (pre ++ [y]))
        by (rewrite length_app; simpl; lia).
      rewrite IH.
      * rewrite length_app. simpl. f_equal. lia.
      * intros t Ht. apply H. right. exact Ht.
    + apply nth_error_middle.
    + apply H. left. reflexivity.
Qed.

Lemma run_skip0 l mid post :
  lacks l mid ->
  run 0 l (mid ++ post) = run (List.length mid) l (mid ++ post).
Proof. intro H. exact (run_skip l mid [] post H). Qed.

Lemma run_clean l pre post :
  lacks l post -> run (List.length pre) l (pre ++ post) = pre ++ post.
Proof.
  intro H. rewrite <- (app_nil_r post) at 1.
  rewrite run_skip by assumption. rewrite app_nil_r.
  apply run_end. apply nth_error_None. rewrite length_app. lia.
Qed.

(** After a removal the iterator steps over the tile that moved into the
    place of the removed one. *)
Lemma run_after_hit l pre post :
  lacks l (tl post) ->
  run (S (List.length pre)) l (pre ++ post) = pre ++ post.
Proof.
  intro H. destruct post as [| y post].
  - apply run_end. apply nth_error_None. rewrite length_app. simpl. lia.
  - simpl in H.
    replace (pre ++ y :: post) with ((pre ++ [y]) ++ post)
      by (rewrite <- app_assoc; reflexivity).
    replace (S (List.length pre)) with (List.length (pre ++ [y]))
      by (rewrite length_app; simpl; lia).
    apply run_clean, H.
Qed.

Lemma lacks_app l a b : lacks l a -> lacks l b -> lacks l (a ++ b).
Proof.
  intros Ha Hb t Ht. apply in_app_or in Ht. destruct Ht; auto.
Qed.

Lemma strike_run l r : strike l r = run 0 l r.
Proof. unfold strike, run. rewrite Nat.sub_0_r. reflexivity. Qed.

(** A rack without the letter is left alone. *)
Lemma strike_lacks l r : lacks l r -> strike l r = r.
Proof. intro H. rewrite strike_run. apply (run_clean l [] r H). Qed.

(** A single tile showing the letter is removed. *)
Lemma strike_one l pre a post :
  letter a = l -> lacks l pre -> lacks l post ->
  strike l (pre ++ a :: post) = pre ++ post.
Proof.
  intros Ha Hpre Hpost. rewrite strike_run.
  rewrite (run_skip0 l pre _ Hpre).
  rewrite (run_hit _ _ _ a (pre ++ post)).
  - apply run_after_hit. intros t Ht. apply Hpost.
    destruct post; [destruct Ht | right; exact Ht].
  - apply nth_error_middle.
  - exact Ha.
  - apply list_remove_lacks. rewrite Ha. exact Hpre.
Qed.

(** Two tiles showing the letter with something in between: both go. *)
Lemma strike_two_apart l pre a mid b post :
  letter a = l -> letter b = l -> mid <> [] ->
  lacks l pre -> lacks l mid -> lacks l post ->
  strike l (pre ++ a :: mid ++ b :: post) = pre ++ mid ++ post.
Proof.
  intros Ha Hb Hmid Hpre Hm Hpost.
  destruct mid as [| x mid]; [contradiction |].
  rewrite strike_run.
  rewrite (run_skip0 l pre _ Hpre).
  rewrite (run_hit _ _ _ a (pre ++ x :: mid ++ b :: post)).
  2: apply nth_error_middle.
  2: exact Ha.
  2: apply (list_remove_lacks a pre); rewrite Ha; exact Hpre.
  replace (pre ++ x :: mid ++ b :: post)
    with ((pre ++ [x]) ++ mid ++ b :: post)
    by (rewrite <- app_assoc; reflexivity).
  replace (S (List.length pre)) with (List.length (pre ++ [x]))
    by (rewrite length_app; simpl; lia).
  rewrite run_skip by (intros t Ht; apply Hm; right; exact Ht).
  replace ((pre ++ [x]) ++ mid ++ b :: post)
    with ((pre ++ x :: mid) ++ b :: post)
    by (rewrite <- !app_assoc; reflexivity).
  replace (List.length (pre ++ [x]) + List.length mid)%nat
    with (List.length (pre ++ x :: mid))
    by (rewrite !length_app; simpl; lia).
  rewrite (run_hit _ _ _ b ((pre ++ x :: mid) ++ post)).
  - rewrite run_after_hit.
    + rewrite <- app_assoc. reflexivity.
    + intros t Ht. apply Hpost.
      destruct post; [destruct Ht | right; exact Ht].
  - apply nth_error_middle.
  - exact Hb.
  - apply list_remove_lacks. rewrite Hb. apply lacks_app; assumption.
Qed.

(** Two adjacent tiles showing the letter: the second one is stepped over
    and stays. *)
Lemma strike_two_adjacent l pre a b post :
  letter a = l -> letter b = l -> lacks l pre -> lacks l post ->
  strike l (pre ++ a :: b :: post) = pre ++ b :: post.
Proof.
  intros Ha Hb Hpre Hpost.
  rewrite strike_run.
  rewrite (run_skip0 l pre _ Hpre).
  rewrite (run_hit _ _ _ a (pre ++ b :: post)).
  - apply run_after_hit. exact Hpost.
  - apply nth_error_middle.
  - exact Ha.
  - apply list_remove_lacks. rewrite Ha. exact Hpre.
Qed.

Lemma strike_word_Deletes_lacks l ls :
  forall r, lacks l r -> lacks l (strike_word ls r).
Proof.
  induction ls as [| l' ls IH]; intros r H; simpl; [exact H |].
  apply IH. eapply Deletes_lacks; [apply strike_Deletes | exact H].
Qed.

(** Tiles whose letter the word does not contain stay on the rack. *)
Lemma strike_word_keeps ls t :
  ~ In (letter t) ls -> forall r, In t r -> In t (strike_word ls r).
Proof.
  intro Hn. induction ls as [| l' ls IH]; intros r H; simpl; [exact H |].
  apply IH.
  - intro Hin. apply Hn. right. exact Hin.
  - eapply Deletes_keeps; [apply strike_Deletes | exact H |].
    intro He. apply Hn. left. symmetry. exact He.
Qed.

(** Two tiles showing a letter of the word, kept apart by a tile whose
    letter the word does not contain: both are gone after the passes. *)
Lemma strike_word_two_apart l x ls :
  In l ls -> ~ In (letter x) ls ->
  forall pre a mid b post,
    letter a = l -> letter b = l -> In x mid ->
    lacks l pre -> lacks l mid -> lacks l post ->
    lacks l (strike_word ls (pre ++ a :: mid ++ b :: post)).
Proof.
  intros Hl Hx. induction ls as [| l' ls IH]; [destruct Hl |].
  intros pre a mid b post Ha Hb Hxm Hpre Hmid Hpost. simpl.
  destruct (string_dec l' l) as [-> | Hne].
  - rewrite strike_two_apart; try assumption.
    + apply strike_word_Deletes_lacks. repeat apply lacks_app; assumption.
    + intro He. subst mid. destruct Hxm.
  - destruct Hl as [He | Hl]; [contradiction |].
    pose proof (strike_Deletes l' (pre ++ a :: mid ++ b :: post)) as Hd.
    apply Deletes_split in Hd; [| congruence].
    destruct Hd as [pre' [rest' [-> [Hd1 Hd2]]]].
    apply Deletes_split in Hd2; [| congruence].
    destruct Hd2 as [mid' [post' [-> [Hd2 Hd3]]]].
    apply IH; try assumption.
    + intro Hin. apply Hx. right. exact Hin.
    + eapply Deletes_keeps; [exact Hd2 | exact Hxm |].
      intro He. apply Hx. left. symmetry. exact He.
    + eapply Deletes_lacks; eauto.
    + eapply Deletes_lacks; eauto.
    + eapply Deletes_lacks; eauto.
Qed.

Section RackFacts.

Context {RNG : Shuffler}.

Lemma update_nth_twice {A} (l : list A) n (f g h : A -> A) :
  (forall x, g (f x) = h x) ->
  update_nth (update_nth l n f) n g = update_nth l n h.
Proof.
  intro H. revert n. induction l as [| x r IH]; intros [| n]; simpl;
    try reflexivity; [rewrite H | rewrite IH]; reflexivity.
Qed.

Lemma update_nth_same (ps : list Player) p d :
  update_nth ps p (set_rack (rack (nth p ps d))) = ps.
Proof.
  revert p. induction ps as [| x r IH]; intros [| n]; simpl;
    try reflexivity.
  - destruct x; reflexivity.
  - rewrite IH. reflexivity.
Qed.

Lemma with_rack_twice p r1 r2 w :
  with_rack p r2 (with_rack p r1 w) = with_rack p r2 w.
Proof.
  unfold with_rack. simpl players.
  rewrite (update_nth_twice _ _ _ _ (set_rack r2)) by reflexivity.
  reflexivity.
Qed.

Lemma with_rack_same p w : with_rack p (rack (get_player p w)) w = w.
Proof.
  unfold with_rack, get_player. rewrite update_nth_same.
  destruct w; reflexivity.
Qed.

Lemma rack_with_rack p r w :
  (p < List.length (players w))%nat ->
  rack (get_player p (with_rack p r w)) = r.
Proof.
  intro H. unfold with_rack, get_player. simpl players.
  rewrite nth_update_nth by assumption. reflexivity.
Qed.

Lemma players_with_rack p r w :
  List.length (players (with_rack p r w)) = List.length (players w).
Proof. unfold with_rack. simpl. apply update_nth_length. Qed.

Lemma remove_from_rack_run p tile w r' :
  list_remove tile (rack (get_player p w)) = Some r' ->
  remove_from_rack p tile w = (Ok tt, with_rack p r' w).
Proof.
  intro H. unfold remove_from_rack, get_rack, update_player.
  cbv beta iota delta [bind gets]. rewrite H. reflexivity.
Qed.

Lemma strike_loop_eq fuel p l i :
  strike_loop fuel p l i
  = (r <- get_rack p ;;
     match nth_error r i with
     | None => ret tt
     | Some tile =>
         match fuel with
         | O => raise OutOfFuel
         | S k =>
             (if String.eqb (letter tile) l
              then remove_from_rack p tile
              else ret tt) ;;;
             strike_loop k p l (S i)
         end
     end).
Proof. destruct fuel; reflexivity. Qed.

(** The loop ends by exhausting the list, never the fuel, and leaves the
    rack that [strike_from] computes. *)
Lemma strike_loop_run p l fuel :
  forall i w,
    (p < List.length (players w))%nat ->
    (List.length (rack (get_player p w)) - i <= fuel)%nat ->
    strike_loop fuel p l i w
    = (Ok tt, with_rack p (strike_from fuel i l (rack (get_player p w))) w).
Proof.
  induction fuel as [| k IH]; intros i w Hp Hf; rewrite strike_loop_eq;
    unfold get_rack; cbv beta iota delta [bind gets]; simpl strike_from;
    destruct (nth_error (rack (get_player p w)) i) as [t |] eqn:E;
    try (unfold ret; rewrite with_rack_same; reflexivity).
  - apply nth_error_Some_lt in E. lia.
  - pose proof (nth_error_Some_lt _ _ _ E) as Hlt.
    destruct (String.eqb (letter t) l).
    + destruct (list_remove_in t _ (nth_error_In _ _ E)) as [r' [Hr Hlen]].
      rewrite (remove_from_rack_run _ _ _ _ Hr), Hr.
      rewrite IH.
      * rewrite rack_with_rack by assumption.
        rewrite with_rack_twice. reflexivity.
      * rewrite players_with_rack. assumption.
      * rewrite rack_with_rack by assumption. lia.
    + unfold ret at 1. apply IH; [assumption | lia].
Qed.

Lemma strike_letter_run p l w :
  (p < List.length (players w))%nat ->
  strike_letter p l w
  = (Ok tt, with_rack p (strike l (rack (get_player p w))) w).
Proof.
  intro Hp. unfold strike_letter, get_rack. cbv beta iota delta [bind gets].
  apply strike_loop_run; [assumption | lia].
Qed.

Lemma use_tiles_from p ls :
  forall w,
    (p < List.length (players w))%nat ->
    for_each ls (fun l _ => strike_letter p l) tt w
    = (Ok tt, with_rack p (strike_word ls (rack (get_player p w))) w).
Proof.
  induction ls as [| l ls IH]; intros w Hp; simpl.
  - unfold ret. rewrite with_rack_same. reflexivity.
  - unfold bind at 1. rewrite strike_letter_run by assumption.
    rewrite IH by (rewrite players_with_rack; assumption).
    rewrite rack_with_rack by assumption.
    rewrite with_rack_twice. reflexivity.
Qed.

Lemma use_tiles_run p word w :
  (p < List.length (players w))%nat ->
  use_tiles word p w
  = (Ok tt,
     with_rack p (strike_word (Py.chars word) (rack (get_player p w))) w).
Proof. apply use_tiles_from. Qed.

End RackFacts.

Section ReplenishFacts.

Context {RNG : Shuffler}.

Lemma add_to_rack_run p w :
  (p < List.length (players w))%nat ->
  exists t,
    fst (add_to_rack p w) = Ok tt
    /\ rack (get_player p (snd (add_to_rack p w)))
       = rack (get_player p w) ++ [t]
    /\ List.length (players (snd (add_to_rack p w)))
       = List.length (players w)
    /\ bag (snd (add_to_rack p w)) <> [].
Proof.
  intro Hp. destruct (take_from_bag_run w) as [t [Ht [Hpl Hlen]]].
  exists t. unfold add_to_rack, bind.
  destruct (take_from_bag w) as [res w1]. simpl in Ht, Hpl, Hlen. subst res.
  unfold update_player, modify. cbn [fst snd].
  unfold get_player. cbn [players set_players bag set_bag].
  rewrite Hpl. repeat split.
  - rewrite nth_update_nth by assumption. reflexivity.
  - apply update_nth_length.
  - intro Hb. rewrite Hb in Hlen. simpl in Hlen.
    destruct (List.length (bag w) <? 10)%nat eqn:E; [lia |].
    apply Nat.ltb_ge in E. lia.
Qed.

Lemma replenish_loop_eq fuel p :
  replenish_loop fuel p
  = (len <- get_rack_length p ;;
     n <- get_remaining_tiles ;;
     if (len <? 7) && (0 <? n)
     then match fuel with
          | O => raise OutOfFuel
          | S k => add_to_rack p ;;; replenish_loop k p
          end
     else ret tt).
Proof. destruct fuel; reflexivity. Qed.

(** The loop stops by its own test, never for lack of fuel; it appends the
    tiles drawn, up to seven on the rack unless the bag is empty. *)
Lemma replenish_loop_run p fuel :
  forall w,
    (p < List.length (players w))%nat ->
    (7 - List.length (rack (get_player p w)) <= fuel)%nat ->
    exists drawn,
      fst (replenish_loop fuel p w) = Ok tt
      /\ rack (get_player p (snd (replenish_loop fuel p w)))
         = rack (get_player p w) ++ drawn
      /\ List.length (rack (get_player p w) ++ drawn)
         = replenished_length (List.length (rack (get_player p w))) (bag w).
Proof.
  induction fuel as [| k IH]; intros w Hp Hf; rewrite replenish_loop_eq;
    unfold get_rack_length, get_rack, get_remaining_tiles;
    cbv beta iota delta [bind gets ret];
    destruct ((Z.of_nat (List.length (rack (get_player p w))) <? 7)
              && (0 <? Z.of_nat (List.length (bag w)))) eqn:E.
  - apply andb_true_iff in E. destruct E as [E1 E2].
    apply Z.ltb_lt in E1. exfalso. lia.
  - exists []. rewrite app_nil_r. repeat split.
    unfold replenished_length. destruct (bag w) as [| t b]; [reflexivity |].
    simpl in E. rewrite andb_true_r in E. apply Z.ltb_ge in E. lia.
  - apply andb_true_iff in E. destruct E as [E1 E2].
    apply Z.ltb_lt in E1. apply Z.ltb_lt in E2.
    destruct (add_to_rack_run p w Hp) as [t [Hok [Hr [Hl Hb]]]].
    destruct (add_to_rack p w) as [res w1]. simpl in Hok, Hr, Hl, Hb.
    subst res.
    destruct (IH w1) as [drawn [Hok1 [Hr1 Hlen1]]].
    + rewrite Hl. exact Hp.
    + rewrite Hr, length_app. cbn [List.length]. lia.
    + exists (t :: drawn). split; [exact Hok1 |]. split.
      * rewrite Hr1, Hr, <- app_assoc. reflexivity.
      * rewrite Hr, <- app_assoc in Hlen1. simpl in Hlen1.
        rewrite Hlen1. unfold replenished_length.
        destruct (bag w1) as [| t1 b1]; [contradiction |].
        destruct (bag w) as [| t0 b0]; [simpl in E2; lia |].
        rewrite length_app. simpl. lia.
  - exists []. rewrite app_nil_r. repeat split.
    unfold replenished_length. destruct (bag w) as [| t b]; [reflexivity |].
    simpl in E. rewrite andb_true_r in E. apply Z.ltb_ge in E. lia.
Qed.

Lemma keeps_bind {A B} (m : M A) (k : A -> M B) :
  keeps m -> (forall a, keeps (k a)) -> keeps (bind m k).
Proof.
  intros Hm Hk w. unfold bind. specialize (Hm w).
  destruct (m w) as [[a | e] w1]; simpl in Hm.
  - destruct (Hk a w1) as [H1 H2]. destruct Hm. split; congruence.
  - exact Hm.
Qed.

Lemma keeps_readonly {A} (m : M A) : readonly m -> keeps m.
Proof. intros H w. rewrite H. auto. Qed.

Lemma keeps_for_each {A S} (xs : list A) (body : A -> S -> M S) :
  (forall x acc, keeps (body x acc)) ->
  forall acc, keeps (for_each xs body acc).
Proof.
  intro Hb. induction xs as [| x r IH]; intro acc; simpl.
  - apply keeps_readonly, readonly_ret.
  - apply keeps_bind; [apply Hb | intro; apply IH].
Qed.

Lemma keeps_write_cell r c v : keeps (write_cell r c v).
Proof.
  intro w. unfold write_cell. cbv beta iota delta [bind gets].
  destruct (board_set (board w) r c v); simpl; auto.
Qed.

Lemma keeps_place_letter chk tgt wi : keeps (place_letter chk tgt wi).
Proof.
  unfold place_letter.
  apply keeps_bind; [apply keeps_readonly, readonly_read_cell | intro c].
  apply keeps_bind; [| intro; apply keeps_write_cell].
  destruct (negb _); [| apply keeps_readonly, readonly_ret].
  intro w. simpl. auto.
Qed.

Lemma keeps_place_letters word loc dir : keeps (place_letters word loc dir).
Proof.
  unfold place_letters.
  destruct (String.eqb _ "right");
    [apply keeps_for_each; intros; apply keeps_place_letter |].
  destruct (String.eqb _ "down");
    [apply keeps_for_each; intros; apply keeps_place_letter |].
  apply keeps_readonly, readonly_ret.
Qed.

End ReplenishFacts.

Section PlaceWordFacts.

Context {RNG : Shuffler}.

(** Once the letters are on the board, [place_word] is the replenishment
    of the rack left by the passes. *)
Lemma place_word_phases word0 loc dir0 p w :
  (p < List.length (players w))%nat ->
  fst (place_letters (Py.upper word0) loc (Py.lower dir0)
         (set_premium_spots [] w)) = Ok tt ->
  place_word word0 loc dir0 p w
  = replenish_rack p
      (with_rack p
         (strike_word (Py.chars (Py.upper word0)) (rack (get_player p w)))
         (snd (place_letters (Py.upper word0) loc (Py.lower dir0)
                 (set_premium_spots [] w)))).
Proof.
  intros Hp Hok. unfold place_word.
  unfold bind at 1, modify at 1.
  destruct (keeps_place_letters (Py.upper word0) loc (Py.lower dir0)
              (set_premium_spots [] w)) as [Hpl Hbag].
  unfold bind at 1.
  destruct (place_letters (Py.upper word0) loc (Py.lower dir0)
              (set_premium_spots [] w)) as [res w1].
  simpl in Hok, Hpl, Hbag. subst res. simpl snd.
  assert (Hp1 : (p < List.length (players w1))%nat) by (rewrite Hpl; exact Hp).
  unfold bind at 1. rewrite use_tiles_run by exact Hp1.
  unfold get_player. rewrite Hpl. reflexivity.
Qed.

Lemma place_word_run word0 loc dir0 p w :
  (p < List.length (players w))%nat ->
  fst (place_letters (Py.upper word0) loc (Py.lower dir0)
         (set_premium_spots [] w)) = Ok tt ->
  exists drawn,
    fst (place_word word0 loc dir0 p w) = Ok tt
    /\ rack (get_player p (snd (place_word word0 loc dir0 p w)))
       = strike_word (Py.chars (Py.upper word0)) (rack (get_player p w))
         ++ drawn
    /\ List.length
         (strike_word (Py.chars (Py.upper word0)) (rack (get_player p w))
          ++ drawn)
       = replenished_length
           (List.length (strike_word (Py.chars (Py.upper word0))
                           (rack (get_player p w))))
           (bag w).
Proof.
  intros Hp Hok. rewrite (place_word_phases _ _ _ _ _ Hp Hok).
  destruct (keeps_place_letters (Py.upper word0) loc (Py.lower dir0)
              (set_premium_spots [] w)) as [Hpl Hbag].
  set (w1 := snd (place_letters (Py.upper word0) loc (Py.lower dir0)
                    (set_premium_spots [] w))) in *.
  simpl in Hpl, Hbag.
  assert (Hp1 : (p < List.length (players w1))%nat) by (rewrite Hpl; exact Hp).
  set (r1 := strike_word (Py.chars (Py.upper word0)) (rack (get_player p w))).
  unfold replenish_rack.
  destruct (replenish_loop_run p 7 (with_rack p r1 w1))
    as [drawn [Hok2 [Hrack Hlen]]].
  - rewrite players_with_rack. exact Hp1.
  - lia.
  - rewrite rack_with_rack in Hrack, Hlen by exact Hp1.
    exists drawn. split; [exact Hok2 |]. split; [exact Hrack |].
    rewrite Hlen. unfold with_rack. simpl bag. rewrite Hbag. reflexivity.
Qed.

End PlaceWordFacts.

(** C10, as stated, fails: Ann holds two A tiles that are not adjacent and
    plays BA, which uses A once.  The pass for B removes the tile between
    them, the pass for A removes the first A and steps over the second,
    which stays on the rack; two tiles are then drawn. *)
Lemma two_apart_tiles_counterexample :
  let w := aba_game in
  let w' := snd (@place_word keep_order "ba" (7, 7) "right" 0%nat w) in
  fst (check_word (Word_new "ba" (7, 7) 0 "right") w) = Ok VTrue
  /\ map letter (rack (get_player 0 w)) = ["A"; "B"; "A"; "C"; "D"; "E"; "F"]
  /\ fst (@place_word keep_order "ba" (7, 7) "right" 0%nat w) = Ok tt
  /\ strike_word ["B"; "A"] (rack (get_player 0 w))
     = [tile "A" 0; tile "C" 2; tile "D" 3; tile "E" 4; tile "F" 5]
  /\ rack (get_player 0 w')
     = [tile "A" 0; tile "C" 2; tile "D" 3; tile "E" 4; tile "F" 5;
        tile "T" 19; tile "T" 19].
Proof. vm_compute. repeat split; reflexivity. Qed.

(** C10 (amended).  When the letters have been written without error,
    [place_word] returns normally.  The rack of the player is then the rack
    left by one forward pass per letter of the word, followed by the tiles
    drawn to bring it to seven (none if the bag is empty).  A pass removes
    only tiles showing its letter, and does nothing, without error, when no
    tile shows it; tiles whose letter the word does not contain all stay.
    A rack holding two tiles of a letter of the word that are kept apart by
    a tile whose letter the word does not contain loses both of them. *)
Theorem place_word_rack {RNG : Shuffler} (word0 : string) (loc : Z * Z)
  (dir0 : string) (p : nat) (w : World) :
  (p < List.length (players w))%nat ->
  fst (place_letters (Py.upper word0) loc (Py.lower dir0)
         (set_premium_spots [] w)) = Ok tt ->
  let ls := Py.chars (Py.upper word0) in
  let r0 := rack (get_player p w) in
  let r1 := strike_word ls r0 in
  fst (place_word word0 loc dir0 p w) = Ok tt
  /\ (exists drawn,
         rack (get_player p (snd (place_word word0 loc dir0 p w)))
         = r1 ++ drawn
         /\ List.length (r1 ++ drawn)
            = replenished_length (List.length r1) (bag w))
  /\ (forall l r, Deletes l r (strike l r))
  /\ (forall l r, lacks l r -> strike l r = r)
  /\ (forall t, In t r0 -> ~ In (letter t) ls -> In t r1)
  /\ (forall l x pre a mid b post,
         In l ls ->
         r0 = pre ++ a :: mid ++ b :: post ->
         letter a = l -> letter b = l ->
         In x mid -> ~ In (letter x) ls ->
         lacks l pre -> lacks l mid -> lacks l post ->
         lacks l r1).
Proof.
  intros Hp Hok ls r0 r1.
  destruct (place_word_run word0 loc dir0 p w Hp Hok)
    as [drawn [H1 [H2 H3]]].
  split; [exact H1 |].
  split; [exists drawn; split; assumption |].
  split; [exact strike_Deletes |].
  split; [exact strike_lacks |].
  split.
  - intros t Hin Hn. apply strike_word_keeps; assumption.
  - intros l x pre a mid b post Hl Hr Ha Hb Hx Hn Hpre Hmid Hpost.
    unfold r1. rewrite Hr.
    apply (strike_word_two_apart l x ls Hl Hn); assumption.
Qed.

Lemma place_word_rack_witness :
  let w := aba_game in
  (0 < List.length (players w))%nat
  /\ fst (@place_letters (Py.upper "ae") (7, 7) (Py.lower "right")
            (set_premium_spots [] w)) = Ok tt
  /\ fst (@place_word keep_order "ae" (7, 7) "right" 0%nat w) = Ok tt
  /\ lacks "A" (strike_word (Py.chars (Py.upper "ae"))
                  (rack (get_player 0 w))).
Proof.
  intro w.
  assert (Hp : (0 < List.length (players w))%nat) by (simpl; lia).
  assert (Hok : fst (place_letters (Py.upper "ae") (7, 7) (Py.lower "right")
                       (set_premium_spots [] w)) = Ok tt) by reflexivity.
  refine (conj Hp (conj Hok _)).
  destruct (@place_word_rack keep_order "ae" (7, 7) "right" 0%nat w Hp Hok)
    as [H1 [_ [_ [_ [_ H6]]]]].
  split; [exact H1 |].
  apply (H6 "A" (tile "B" 1) [] (tile "A" 0) [tile "B" 1] (tile "A" 0)
            [tile "C" 2; tile "D" 3; tile "E" 4; tile "F" 5]).
  - left. reflexivity.
  - reflexivity.
  - reflexivity.
  - reflexivity.
  - left. reflexivity.
  - simpl. intros [H | [H | []]]; discriminate H.
  - intros t [].
  - intros t [<- | []]. discriminate.
  - intros t [<- | [<- | [<- | [<- | []]]]]; discriminate.
Defined.

(* ------------------------------------------------------------------ *)
(** * Further properties *)

(** ** Frame rules *)

Lemma preserves_readonly {X A} (f : World -> X) (m : M A) :
  readonly m -> preserves f m.
Proof. intros H w. rewrite H. reflexivity. Qed.

Lemma preserves_bind {X A B} (f : World -> X) (m : M A) (k : A -> M B) :
  preserves f m -> (forall a, preserves f (k a)) -> preserves f (bind m k).
Proof.
  intros Hm Hk w. unfold bind. specialize (Hm w).
  destruct (m w) as [[a | e] w1]; simpl in Hm.
  - rewrite Hk. exact Hm.
  - exact Hm.
Qed.

Lemma preserves_for_each {X A S} (f : World -> X) (xs : list A)
  (body : A -> S -> M S) :
  (forall x acc, preserves f (body x acc)) ->
  forall acc, preserves f (for_each xs body acc).
Proof.
  intro Hb. induction xs as [| x r IH]; intro acc; simpl.
  - intro w. reflexivity.
  - apply preserves_bind; [apply Hb | intro; apply IH].
Qed.

Lemma preserves_modify {X} (f : World -> X) (g : World -> World) :
  (forall w, f (g w) = f w) -> preserves f (modify g).
Proof. intros H w. apply H. Qed.

Lemma preserves_if {X A} (f : World -> X) (b : bool) (m1 m2 : M A) :
  preserves f m1 -> preserves f m2 -> preserves f (if b then m1 else m2).
Proof. destruct b; auto. Qed.

Lemma maintains_bind {A B} (P : World -> Prop) (m : M A) (k : A -> M B) :
  maintains P m -> (forall a, maintains P (k a)) -> maintains P (bind m k).
Proof.
  intros Hm Hk w Hw. unfold bind. specialize (Hm w Hw).
  destruct (m w) as [[a | e] w1]; simpl in Hm.
  - apply Hk. exact Hm.
  - exact Hm.
Qed.

Lemma maintains_for_each {A S} (P : World -> Prop) (xs : list A)
  (body : A -> S -> M S) :
  (forall x acc, In x xs -> maintains P (body x acc)) ->
  forall acc, maintains P (for_each xs body acc).
Proof.
  induction xs as [| x r IH]; intros Hb acc; simpl.
  - intros w Hw. exact Hw.
  - apply maintains_bind; [apply Hb; left; reflexivity |].
    intro. apply IH. intros y acc' Hy. apply Hb. right. exact Hy.
Qed.

Lemma maintains_readonly {A} (P : World -> Prop) (m : M A) :
  readonly m -> maintains P m.
Proof. intros H w Hw. rewrite H. exact Hw. Qed.

(** ** The retry loop *)

Lemma retry_step self wtp loc dir a r :
  retry self wtp loc dir (a :: r)
  = (checked <- check_word self ;;
     match checked with
     | VTrue => ret (Some (self, wtp, loc, dir))
     | _ => retry (retyped self a) (a_word a) (loc_of a) (a_dir a) r
     end).
Proof.
  unfold retyped, set_direction, set_location, set_word. simpl.
  destruct (a_loc a); reflexivity.
Qed.

(** Whatever is typed, and whether an attempt is accepted or not, the retry
    loop leaves the world as [check_word] does: only the lexicon is loaded. *)
Lemma retry_world more :
  forall self wtp loc dir w,
    snd (retry self wtp loc dir more w) = loaded w.
Proof.
  induction more as [| a r IH]; intros self wtp loc dir w.
  - simpl. unfold bind. rewrite check_word_run.
    destruct (fst (check_word_body self (loaded w))) as [[| msg |] | e];
      reflexivity.
  - rewrite retry_step. unfold bind. rewrite check_word_run.
    destruct (fst (check_word_body self (loaded w))) as [[| msg |] | e];
      try reflexivity; rewrite IH; apply loaded_idem.
Qed.

(** X1.  The attempts typed into the retry loop of [turn], accepted or
    rejected, never change the board, the players (racks and scores), the
    bag, the round number, the skip counter or the recorded triggers. *)
Theorem retry_changes_nothing (self : Word) (wtp : string) (loc : Z * Z)
  (dir : string) (more : list Attempt) (w : World) :
  let w' := snd (retry self wtp loc dir more w) in
  board w' = board w /\ players w' = players w /\ bag w' = bag w
  /\ round_number w' = round_number w
  /\ skipped_turns w' = skipped_turns w
  /\ premium_spots w' = premium_spots w.
Proof.
  intro w'. unfold w'. rewrite retry_world. repeat split; reflexivity.
Qed.

(** ** The direction test *)

(** X2.  For a non-empty word, a direction other than exactly "right" or
    "down" gets the direction message, before any cell is read: whatever the
    location, the board, the round and the lexicon. *)
Theorem check_word_invalid_direction (self : Word) (w : World) :
  word self <> "" ->
  direction self <> "right" ->
  direction self <> "down" ->
  fst (check_word self w) = Ok (VStr MSG_DIRECTION).
Proof.
  intros Hw Hr Hd. rewrite check_word_run. unfold check_word_body.
  apply String.eqb_neq in Hw, Hr, Hd. rewrite Hw, Hr, Hd. reflexivity.
Qed.

Lemma check_word_invalid_direction_witness :
  let self := set_direction (Word_new "cat" (7, 7) 0 "right") "RIGHT" in
  word self <> "" /\ direction self <> "right" /\ direction self <> "down"
  /\ fst (check_word self fresh_game) = Ok (VStr MSG_DIRECTION).
Proof.
  intro self.
  assert (Hw : word self <> "") by discriminate.
  assert (Hr : direction self <> "right") by discriminate.
  assert (Hd : direction self <> "down") by discriminate.
  exact (conj Hw (conj Hr (conj Hd
           (check_word_invalid_direction self fresh_game Hw Hr Hd)))).
Defined.

(** ** What an accepted placement guarantees *)

Lemma readonly_touch_cells self : readonly (touch_cells self).
Proof.
  unfold touch_cells.
  repeat apply readonly_if; auto using readonly_touch with ro.
Qed.

Lemma check_rest_true self cur w :
  fst (check_rest self cur "" w) = Ok VTrue ->
  Py.str_in (word self) (match dictionary w with Some d => d | None => [] end)
  = true
  /\ (1 <? round_number w)
     && String.eqb cur (Py.repeat_str " " (String.length (word self)))
     = false
  /\ fails self w OutOfBounds = false
  /\ (round_number w =? 1) && Nat.eqb 0 (wplayer self)
     && negb (loc_eqb (location self) (7, 7)) = false.
Proof.
  unfold check_rest. cbv beta iota delta [bind gets].
  destruct (negb (Py.str_in (word self) _)) eqn:Elex; [discriminate |].
  apply negb_false_iff in Elex.
  rewrite (readonly_run (touch_cells self) w (readonly_touch_cells self)).
  destruct (fst (touch_cells self w)) as [[] | e]; [| discriminate].
  destruct ((1 <? round_number w) && _); [discriminate |].
  cbn [Py.chars check_tiles]. unfold ret at 1.
  unfold fails.
  destruct (_ || _ || _ || _); [discriminate |].
  destruct (round_number w =? 1); [| auto].
  destruct (Py.get (players w) 0); [| discriminate].
  unfold of_option, ret. cbn [andb].
  destruct (Nat.eqb 0 (wplayer self) && _); [discriminate | auto].
Qed.

Lemma cell_piece_blank : cell_piece EMPTY_CELL = Some " ".
Proof. reflexivity. Qed.

Lemma scan_all_blank b cell loc :
  forall xs acc cur,
    fold_res (scan_step b cell loc) xs acc = Ok cur ->
    forallb (is_blank b) (map (cell loc) xs) = true ->
    Py.chars cur = Py.chars acc ++ repeat " " (List.length xs).
Proof.
  induction xs as [| i r IH]; intros acc cur H Hb; simpl in *.
  - injection H as <-. rewrite app_nil_r. reflexivity.
  - apply andb_true_iff in Hb. destruct Hb as [Hi Hr].
    unfold scan_step at 1 in H. unfold is_blank in Hi.
    destruct (board_get b _ _) as [c |]; [| discriminate].
    apply String.eqb_eq in Hi. subst c. rewrite cell_piece_blank in H.
    rewrite (IH _ _ H Hr), chars_app, <- app_assoc. reflexivity.
Qed.

Lemma scan_ok_reads b cell loc :
  forall xs acc cur,
    fold_res (scan_step b cell loc) xs acc = Ok cur ->
    Forall (fun rc => board_get b (fst rc) (snd rc) <> None)
      (map (cell loc) xs).
Proof.
  induction xs as [| i r IH]; intros acc cur H; simpl in *;
    constructor.
  - unfold scan_step in H. destruct (board_get b _ _); [discriminate |].
    discriminate.
  - unfold scan_step at 1 in H.
    destruct (board_get b _ _) as [c |]; [| discriminate].
    destruct (cell_piece c); [| discriminate]. eapply IH, H.
Qed.

Lemma get_some_range {A} (l : list A) i x :
  Py.get l i = Some x -> 0 <= i -> i < Z.of_nat (List.length l).
Proof.
  unfold Py.get, Py.norm_index. intros H Hi.
  destruct ((0 <=? i) && (i <? Z.of_nat (List.length l))) eqn:E.
  - apply andb_true_iff in E. destruct E as [_ E]. apply Z.ltb_lt in E. lia.
  - destruct ((- Z.of_nat (List.length l) <=? i) && (i <? 0)) eqn:E2;
      [| discriminate].
    apply andb_true_iff in E2. destruct E2 as [_ E2].
    apply Z.ltb_lt in E2. lia.
Qed.

Lemma board_get_in_range b rc :
  grid15 b -> 0 <= fst rc -> 0 <= snd rc ->
  board_get b (fst rc) (snd rc) <> None -> in_grid rc.
Proof.
  intros Hg Hr Hc H. unfold board_get in H.
  destruct (Py.get b (fst rc)) as [row |] eqn:Er; [| congruence].
  destruct (Py.get row (snd rc)) as [x |] eqn:Ec; [| congruence].
  pose proof (get_some_range _ _ _ Er Hr) as H1.
  pose proof (get_some_range _ _ _ Ec Hc) as H2.
  destruct Hg as [Hlen Hrows]. rewrite Forall_forall in Hrows.
  rewrite (Hrows row (get_in _ _ _ Er)) in H2.
  unfold in_grid. lia.
Qed.

Lemma check_word_true_scanned cell self w :
  check_word_body self
  = (cur <- scan cell self ;; check_rest self cur "") ->
  target_cells self = map (cell (location self))
                        (range (String.length (word self))) ->
  (forall i, 0 <= i -> 0 <= fst (location self) -> 0 <= snd (location self)
             -> 0 <= fst (cell (location self) i)
                /\ 0 <= snd (cell (location self) i)) ->
  fst (check_word self w) = Ok VTrue ->
  Py.str_in (word self) (lexicon w) = true
  /\ fails self w OutOfBounds = false
  /\ fails self w MustStartAtCenter = false
  /\ fails self w Disconnected = false
  /\ (grid15 (board w) -> Forall in_grid (target_cells self)).
Proof.
  intros Hbody Hcells Hpos H.
  rewrite check_word_run, Hbody in H. simpl fst in H.
  unfold bind in H. rewrite scan_run in H.
  change (board (loaded w)) with (board w) in H.
  destruct (fold_res _ _ _) as [cur | e] eqn:Escan; [| discriminate].
  apply check_rest_true in H. destruct H as [Hlex [Hcon [Hoob Hctr]]].
  change (fails self (loaded w) OutOfBounds)
    with (fails self w OutOfBounds) in Hoob.
  change (round_number (loaded w)) with (round_number w) in Hcon, Hctr.
  split; [exact Hlex |]. split; [exact Hoob |]. split; [| split].
  - unfold fails. rewrite (Nat.eqb_sym (wplayer self)). exact Hctr.
  - unfold fails. rewrite Hcells.
    destruct (1 <? round_number w); [| reflexivity]. simpl in *.
    destruct (forallb _ _) eqn:Eb; [| reflexivity].
    pose proof (scan_all_blank _ _ _ _ _ _ Escan Eb) as Hch.
    rewrite range_length in Hch. simpl in Hch.
    rewrite <- chars_repeat in Hch. apply chars_inj in Hch.
    rewrite Hch, String.eqb_refl in Hcon. discriminate.
  - intro Hg. rewrite Hcells.
    pose proof (scan_ok_reads _ _ _ _ _ _ Escan) as Hreads.
    unfold fails in Hoob.
    apply orb_false_iff in Hoob. destruct Hoob as [Hoob _].
    apply orb_false_iff in Hoob. destruct Hoob as [Hoob _].
    apply orb_false_iff in Hoob. destruct Hoob as [H1 H2].
    apply Z.ltb_ge in H1, H2.
    apply Forall_forall. intros rc Hin.
    rewrite Forall_forall in Hreads. specialize (Hreads rc Hin).
    apply in_map_iff in Hin. destruct Hin as [i [<- Hi]].
    apply in_range in Hi.
    destruct (Hpos i) as [Ha Hb]; try lia.
    apply (board_get_in_range (board w)); assumption.
Qed.

(** The answer True is given only to an accepted placement. *)
Lemma check_word_accepts (self : Word) (w : World) :
  fst (check_word self w) = Ok VTrue -> accepted self w.
Proof.
  intro H. unfold accepted.
  assert (Hw : word self <> "").
  { intro He. rewrite check_word_run in H. unfold check_word_body in H.
    rewrite He in H. discriminate. }
  split; [exact Hw |].
  destruct (String.eqb (direction self) "right") eqn:Er.
  - apply String.eqb_eq in Er. split; [left; exact Er |].
    apply (check_word_true_scanned cell_right); auto.
    + apply check_word_body_right; assumption.
    + unfold target_cells. rewrite Er. reflexivity.
    + intros i Hi Hr Hc. unfold cell_right. simpl. lia.
  - destruct (String.eqb (direction self) "down") eqn:Ed.
    + apply String.eqb_eq in Ed. split; [right; exact Ed |].
      apply (check_word_true_scanned cell_down); auto.
      * apply check_word_body_down; assumption.
      * unfold target_cells. rewrite Er, Ed. reflexivity.
      * intros i Hi Hr Hc. unfold cell_down. simpl. lia.
    + rewrite check_word_run in H. unfold check_word_body in H.
      apply String.eqb_neq in Hw. rewrite Hw, Er, Ed in H. discriminate.
Qed.

(** X3.  When [check_word] answers True, the word is non-empty and in the
    lexicon, the direction is right or down, the location has no negative
    coordinate and the word ends by index 15 along its axis, the first
    player's round-1 word starts at (7,7), after round 1 some covered cell
    is not blank, and on a 15 x 15 board every covered cell is on the
    board. *)
Theorem check_word_true_sound (self : Word) (w : World) :
  fst (check_word self w) = Ok VTrue -> accepted self w.
Proof. apply check_word_accepts. Qed.

Lemma check_word_true_sound_witness :
  let self := Word_new "cat" (7, 7) 0 "right" in
  fst (check_word self fresh_game) = Ok VTrue /\ accepted self fresh_game.
Proof.
  intro self.
  assert (H : fst (check_word self fresh_game) = Ok VTrue) by reflexivity.
  exact (conj H (check_word_true_sound self fresh_game H)).
Defined.

(** ** Rack and bag operations touch nothing else *)

Section PlayerBlindFacts.

Context {RNG : Shuffler}.
Context {X : Type} (f : World -> X) (Hf : player_blind f).

Lemma blind_player p g w :
  f (set_players (update_nth (players w) p g) w) = f w.
Proof. apply Hf. Qed.

Lemma preserves_update_player p g : preserves f (update_player p g).
Proof. intro w. apply blind_player. Qed.

Lemma preserves_remove_from_rack p t : preserves f (remove_from_rack p t).
Proof.
  unfold remove_from_rack, get_rack.
  apply preserves_bind; [apply preserves_readonly, readonly_gets |].
  intro r. apply preserves_bind;
    [apply preserves_readonly, readonly_of_option
    | intro; apply preserves_update_player].
Qed.

Lemma preserves_strike_loop p l fuel :
  forall i, preserves f (strike_loop fuel p l i).
Proof.
  induction fuel as [| k IH]; intro i; rewrite strike_loop_eq;
    unfold get_rack;
    (apply preserves_bind; [apply preserves_readonly, readonly_gets |]);
    intro r; destruct (nth_error r i) as [t |];
    try (apply preserves_readonly, readonly_ret).
  - apply preserves_readonly, readonly_raise.
  - apply preserves_bind; [| intro; apply IH].
    apply preserves_if;
      [apply preserves_remove_from_rack
      | apply preserves_readonly, readonly_ret].
Qed.

Lemma preserves_use_tiles word p : preserves f (use_tiles word p).
Proof.
  unfold use_tiles. apply preserves_for_each. intros l _.
  unfold strike_letter, get_rack.
  apply preserves_bind; [apply preserves_readonly, readonly_gets |].
  intro r. apply preserves_strike_loop.
Qed.

Lemma preserves_shuffle_rack p : preserves f (shuffle_rack p).
Proof.
  unfold shuffle_rack.
  apply preserves_bind; [apply preserves_readonly, readonly_gets |].
  intro g. apply preserves_bind;
    [intro w; apply Hf | intro; apply preserves_update_player].
Qed.

End PlayerBlindFacts.

Section BlindFacts.

Context {RNG : Shuffler}.
Context {X : Type} (f : World -> X) (Hf : rack_blind f).

Lemma blind_bag b w : f (set_bag b w) = f w.
Proof. apply Hf. Qed.

Lemma blind_next_obj n w : f (set_next_obj n w) = f w.
Proof. apply Hf. Qed.

Lemma blind_rng n w : f (set_rng n w) = f w.
Proof. apply Hf. Qed.

Lemma rack_blind_player_blind : player_blind f.
Proof. destruct Hf as [_ [_ [H3 H4]]]. split; assumption. Qed.

Lemma preserves_add_to_bag t q : preserves f (add_to_bag t q).
Proof.
  unfold add_to_bag. apply preserves_for_each. intros _ _ w.
  apply blind_bag.
Qed.

Lemma preserves_initialize_bag : preserves f initialize_bag.
Proof.
  unfold initialize_bag. apply preserves_bind.
  - apply preserves_for_each. intros lq _. unfold new_tile.
    apply preserves_bind; [| intro; apply preserves_add_to_bag].
    apply preserves_bind; [apply preserves_readonly, readonly_gets |].
    intro o. apply preserves_bind;
      [intro w; apply blind_next_obj
      | intro; apply preserves_readonly, readonly_ret].
  - intros _ w. unfold shuffle_bag. simpl.
    rewrite blind_rng. apply blind_bag.
Qed.

Lemma preserves_take_from_bag : preserves f take_from_bag.
Proof.
  unfold take_from_bag.
  apply preserves_bind; [apply preserves_readonly, readonly_gets |].
  intro n. apply preserves_bind.
  - apply preserves_if;
      [apply preserves_initialize_bag
      | apply preserves_readonly, readonly_ret].
  - intros _. unfold bag_pop.
    apply preserves_bind; [apply preserves_readonly, readonly_gets |].
    intro b. destruct (rev b) as [| t r].
    + apply preserves_readonly, readonly_raise.
    + apply preserves_bind;
        [intro w; apply blind_bag
        | intro; apply preserves_readonly, readonly_ret].
Qed.

Lemma preserves_add_to_rack p : preserves f (add_to_rack p).
Proof.
  unfold add_to_rack.
  apply preserves_bind; [apply preserves_take_from_bag |].
  intro t. apply preserves_update_player, rack_blind_player_blind.
Qed.

Lemma preserves_replenish_loop p fuel : preserves f (replenish_loop fuel p).
Proof.
  induction fuel as [| k IH]; rewrite replenish_loop_eq;
    (apply preserves_bind;
     [unfold get_rack_length, get_rack;
      apply preserves_readonly, readonly_bind;
      [apply readonly_gets | intro; apply readonly_ret] |]);
    intro len;
    (apply preserves_bind; [apply preserves_readonly, readonly_gets |]);
    intro n; apply preserves_if;
    try (apply preserves_readonly, readonly_ret).
  - apply preserves_readonly, readonly_raise.
  - apply preserves_bind; [apply preserves_add_to_rack | intro; exact IH].
Qed.

Lemma preserves_replenish_rack p : preserves f (replenish_rack p).
Proof. apply preserves_replenish_loop. Qed.

End BlindFacts.

Lemma rack_blind_board : rack_blind board.
Proof. repeat split. Qed.

Lemma rack_blind_premium_spots : rack_blind premium_spots.
Proof. repeat split. Qed.

Lemma rack_blind_skipped_turns : rack_blind skipped_turns.
Proof. repeat split. Qed.

Lemma rack_blind_round_number : rack_blind round_number.
Proof. repeat split. Qed.

Lemma rack_blind_players_length :
  rack_blind (fun w => List.length (players w)).
Proof.
  repeat split. intros p g w. simpl. apply update_nth_length.
Qed.

(** ** The board through place_word *)

Lemma cell_step_refl x : cell_step x x.
Proof. left. reflexivity. Qed.

Lemma cell_step_trans x y z : cell_step x y -> cell_step y z -> cell_step x z.
Proof.
  intros Hxy [-> | Hz]; [exact Hxy | right; exact Hz].
Qed.

Lemma Forall2_refl {A} (R : A -> A -> Prop) :
  (forall x, R x x) -> forall l, Forall2 R l l.
Proof. intros H l. induction l; constructor; auto. Qed.

Lemma Forall2_trans {A} (R : A -> A -> Prop) :
  (forall x y z, R x y -> R y z -> R x z) ->
  forall a b c, Forall2 R a b -> Forall2 R b c -> Forall2 R a c.
Proof.
  intros H a b c Hab. revert c. induction Hab; intros c Hbc;
    inversion Hbc; subst; constructor; eauto.
Qed.

Lemma evolves_refl b : evolves b b.
Proof.
  apply Forall2_refl. intro row. apply Forall2_refl, cell_step_refl.
Qed.

Lemma evolves_trans a b c : evolves a b -> evolves b c -> evolves a c.
Proof.
  apply Forall2_trans. intros x y z. apply Forall2_trans, cell_step_trans.
Qed.

Lemma Forall2_set_nth {A} (R : A -> A -> Prop) (l : list A) n y :
  (forall x, R x x) ->
  (forall x, nth_error l n = Some x -> R x y) ->
  Forall2 R l (Py.set_nth l n y).
Proof.
  intros Hrefl. revert n. induction l as [| x r IH]; intros [| n] H; simpl;
    constructor.
  - apply H. reflexivity.
  - apply Forall2_refl, Hrefl.
  - apply Hrefl.
  - apply IH. intros z Hz. apply H. exact Hz.
Qed.

Lemma get_set_index {A} (l : list A) i x :
  Py.get l i = Some x ->
  exists n, nth_error l n = Some x
            /\ forall v, Py.set l i v = Some (Py.set_nth l n v).
Proof.
  unfold Py.get, Py.set. destruct (Py.norm_index _ _) as [n |];
    [| discriminate].
  intro H. exists n. split; [exact H | reflexivity].
Qed.

Lemma set_some_get {A} (l : list A) i v l' :
  Py.set l i v = Some l' -> exists n, l' = Py.set_nth l n v.
Proof.
  unfold Py.set. destruct (Py.norm_index _ _) as [n |]; [| discriminate].
  intro H. injection H as <-. eauto.
Qed.

(** Writing a letter, at whatever index that Python accepts, changes one
    cell into a letter cell. *)
Lemma board_set_evolves b r c ch b' :
  board_set b r c (letter_cell (String ch EmptyString)) = Some b' ->
  evolves b b'.
Proof.
  unfold board_set.
  destruct (Py.get b r) as [row |] eqn:Erow; [| discriminate].
  destruct (Py.set row c _) as [row' |] eqn:Eset; [| discriminate].
  intro H. destruct (get_set_index _ _ _ Erow) as [n [Hn Hs]].
  rewrite Hs in H. injection H as <-.
  apply Forall2_set_nth; [intro; apply Forall2_refl, cell_step_refl |].
  intros x Hx. rewrite Hn in Hx. injection Hx as <-.
  destruct (set_some_get _ _ _ _ Eset) as [m ->].
  apply Forall2_set_nth; [apply cell_step_refl |].
  intros y _. right. exists ch. reflexivity.
Qed.

Lemma maintains_write_letter b0 r c ch :
  maintains (fun w => evolves b0 (board w))
    (write_cell r c (letter_cell (String ch EmptyString))).
Proof.
  intros w Hw. unfold write_cell. cbv beta iota delta [bind gets].
  destruct (board_set (board w) r c _) as [b' |] eqn:E; simpl; [| exact Hw].
  eapply evolves_trans; [exact Hw | eapply board_set_evolves, E].
Qed.

Lemma maintains_place_letter b0 chk tgt ch :
  maintains (fun w => evolves b0 (board w))
    (place_letter chk tgt (String ch EmptyString)).
Proof.
  unfold place_letter.
  apply maintains_bind;
    [apply maintains_readonly, readonly_read_cell | intro c].
  apply maintains_bind; [| intro; apply maintains_write_letter].
  destruct (negb _); [| apply maintains_readonly, readonly_ret].
  intros w Hw. exact Hw.
Qed.

Lemma enumerate_single {A} (l : list A) iw :
  In iw (enumerate l) -> In (snd iw) l.
Proof.
  unfold enumerate. destruct iw as [i x]. intro H.
  apply in_combine_r in H. exact H.
Qed.

Lemma maintains_letters (P : World -> Prop) (chk tgt : Z -> Z * Z) word :
  (forall c t ch, maintains P (place_letter c t (String ch EmptyString))) ->
  maintains P
    (for_each (enumerate (Py.chars word))
       (fun iw (_ : unit) => place_letter (chk (fst iw)) (tgt (fst iw))
                               (snd iw)) tt).
Proof.
  intro H. apply maintains_for_each. intros iw acc Hin.
  apply enumerate_single, chars_single in Hin. destruct Hin as [ch ->].
  apply H.
Qed.

Lemma maintains_place_letters (P : World -> Prop) word loc dir :
  (forall c t ch, maintains P (place_letter c t (String ch EmptyString))) ->
  maintains P (place_letters word loc dir).
Proof.
  intro H. unfold place_letters.
  destruct (String.eqb _ "right");
    [apply (maintains_letters P (cell_right loc) (cell_right loc)), H |].
  destruct (String.eqb _ "down");
    [apply (maintains_letters P (cell_right loc) (cell_down loc)), H |].
  apply maintains_readonly, readonly_ret.
Qed.

Lemma evolves_grid15 b b' : evolves b b' -> grid15 b -> grid15 b'.
Proof.
  intros H [Hlen Hrows]. split.
  - rewrite <- (Forall2_length H). exact Hlen.
  - clear Hlen. induction H; constructor; inversion Hrows; subst; auto.
    rewrite <- (Forall2_length H). assumption.
Qed.

Lemma cell_step_program x y : cell_step x y -> program_cell x -> program_cell y.
Proof.
  intros [-> | [ch ->]] H; [exact H |]. right; right. eauto.
Qed.

Lemma evolves_cells_ok b b' : evolves b b' -> cells_ok b -> cells_ok b'.
Proof.
  unfold evolves, cells_ok. intro H.
  induction H as [| row row' b b' Hrow Hb IH]; intro Hok; constructor;
    inversion Hok; subst; auto.
  clear - Hrow H1. induction Hrow; constructor; inversion H1; subst; auto.
  eapply cell_step_program; eauto.
Qed.

Lemma Forall2_nth_error {A} (R : A -> A -> Prop) l l' n x :
  Forall2 R l l' -> nth_error l n = Some x ->
  exists x', nth_error l' n = Some x' /\ R x x'.
Proof.
  intro H. revert n. induction H; intros [| n] Hn; simpl in *;
    try discriminate.
  - injection Hn as <-. eauto.
  - apply IHForall2, Hn.
Qed.

Lemma Forall2_get {A} (R : A -> A -> Prop) l l' i x :
  Forall2 R l l' -> Py.get l i = Some x ->
  exists x', Py.get l' i = Some x' /\ R x x'.
Proof.
  intros H. unfold Py.get. rewrite <- (Forall2_length H).
  destruct (Py.norm_index _ _); [| discriminate].
  apply Forall2_nth_error, H.
Qed.

(** A cell that exists before exists after, unchanged or holding a letter. *)
Lemma evolves_get b b' r c x :
  evolves b b' -> board_get b r c = Some x ->
  exists x', board_get b' r c = Some x' /\ cell_step x x'.
Proof.
  intros H. unfold board_get.
  destruct (Py.get b r) as [row |] eqn:E; [| discriminate].
  destruct (Forall2_get _ _ _ _ _ H E) as [row' [-> Hrow]].
  apply Forall2_get, Hrow.
Qed.

Lemma letter_cell_not_blank ch :
  letter_cell (String ch EmptyString) <> EMPTY_CELL.
Proof. discriminate. Qed.

Section BoardThroughPlacement.

Context {RNG : Shuffler}.

Lemma place_word_evolves word0 loc dir0 p w :
  evolves (board w) (board (snd (place_word word0 loc dir0 p w))).
Proof.
  assert (H : maintains (fun w' => evolves (board w) (board w'))
                (place_word word0 loc dir0 p)).
  { unfold place_word.
    apply maintains_bind; [intros w1 H1; exact H1 | intros _].
    apply maintains_bind;
      [apply maintains_place_letters; intros;
       apply maintains_place_letter |].
    intros _. apply maintains_bind.
    - intros w1 H1.
      rewrite (preserves_use_tiles board (rack_blind_player_blind board rack_blind_board)). exact H1.
    - intros _ w1 H1.
      rewrite (preserves_replenish_rack board rack_blind_board). exact H1. }
  apply H, evolves_refl.
Qed.

(** X4.  Whatever its arguments, and also when it stops on an error half
    way, [place_word] only ever turns cells into letter cells: the board
    keeps its 15 x 15 shape, every cell that existed still exists and is
    unchanged or holds a letter, and a cell that was not blank is not blank
    afterwards. *)
Theorem place_word_board_invariant (word0 : string) (loc : Z * Z)
  (dir0 : string) (p : nat) (w : World) :
  let b' := board (snd (place_word word0 loc dir0 p w)) in
  evolves (board w) b'
  /\ (grid15 (board w) -> grid15 b')
  /\ (cells_ok (board w) -> cells_ok b')
  /\ (forall r c x,
        board_get (board w) r c = Some x -> x <> EMPTY_CELL ->
        exists x', board_get b' r c = Some x' /\ x' <> EMPTY_CELL).
Proof.
  intro b'. pose proof (place_word_evolves word0 loc dir0 p w) as H.
  fold b' in H. split; [exact H |].
  split; [apply evolves_grid15, H |].
  split; [apply evolves_cells_ok, H |].
  intros r c x Hx Hne.
  destruct (evolves_get _ _ _ _ _ H Hx) as [x' [Hx' Hstep]].
  exists x'. split; [exact Hx' |].
  destruct Hstep as [-> | [ch ->]];
    [exact Hne | apply letter_cell_not_blank].
Qed.

End BoardThroughPlacement.

(** ** Scoring *)

Lemma letter_value_range l v :
  dict_get LETTER_VALUES l = Some v -> 1 <= v <= 10.
Proof.
  unfold LETTER_VALUES. simpl.
  repeat (match goal with
          | |- context [if ?b then _ else _] => destruct b
          end; [intro H; injection H as <-; lia |]).
  discriminate.
Qed.

Lemma program_cell_not_tag c :
  program_cell c ->
  String.eqb c "TLS" = false /\ String.eqb c "DLS" = false
  /\ String.eqb c "TWS" = false /\ String.eqb c "DWS" = false.
Proof.
  intros [-> | [Hin | [ch ->]]].
  - repeat split.
  - simpl in Hin.
    destruct Hin as [<- | [<- | [<- | [<- | [<- | []]]]]]; repeat split.
  - repeat split.
Qed.

Lemma letter_bonus_tags_ok l spots :
  tags_ok spots ->
  forall acc w, for_each spots (letter_bonus l) acc w = (Ok acc, w).
Proof.
  induction 1 as [| spot spots Hspot _ IH]; intros acc w; simpl;
    [reflexivity |].
  unfold bind. unfold letter_bonus at 1.
  destruct (program_cell_not_tag _ Hspot) as [H1 [H2 _]].
  rewrite H1, H2. destruct (String.eqb l (fst spot)); apply IH.
Qed.

Lemma word_bonus_tags_ok spots :
  tags_ok spots ->
  forall acc w, for_each spots word_bonus acc w = (Ok acc, w).
Proof.
  induction 1 as [| spot spots Hspot _ IH]; intros acc w; simpl;
    [reflexivity |].
  unfold bind. unfold word_bonus at 1.
  destruct (program_cell_not_tag _ Hspot) as [_ [_ [H3 H4]]].
  rewrite H3, H4. apply IH.
Qed.

Lemma letters_tags_ok spots ls :
  tags_ok spots ->
  forall acc w,
    for_each ls
      (fun l acc =>
         acc' <- for_each spots (letter_bonus l) acc ;;
         v <- letter_value l ;;
         ret (acc' + v))
      acc w
    = (match face_value ls with
       | Some v => Ok (acc + v)
       | None => Raise KeyError
       end, w).
Proof.
  intro Hspots. induction ls as [| l r IH]; intros acc w;
    cbn [for_each face_value].
  - unfold ret. rewrite Z.add_0_r. reflexivity.
  - unfold bind at 1. unfold bind at 1.
    rewrite (letter_bonus_tags_ok l spots Hspots).
    unfold letter_value, of_option.
    destruct (dict_get LETTER_VALUES l) as [v |]; [| reflexivity].
    unfold ret at 1. unfold bind at 1. unfold ret at 1.
    rewrite IH. destruct (face_value r) as [s |]; [| reflexivity].
    f_equal. f_equal. lia.
Qed.

Lemma word_score_tags_ok self w :
  tags_ok (premium_spots w) ->
  word_score_of self w
  = (match face_value (Py.chars (word self)) with
     | Some v => Ok v
     | None => Raise KeyError
     end, w).
Proof.
  intro H. unfold word_score_of. cbv beta iota delta [bind gets].
  rewrite (letters_tags_ok _ _ H).
  destruct (face_value _) as [v |]; [| reflexivity].
  simpl. apply word_bonus_tags_ok, H.
Qed.

Lemma get_program_cell b r c x :
  cells_ok b -> board_get b r c = Some x -> program_cell x.
Proof.
  intros Hok. unfold board_get.
  destruct (Py.get b r) as [row |] eqn:E; [| discriminate].
  intro Hx. apply get_in in E. apply get_in in Hx.
  unfold cells_ok in Hok. rewrite Forall_forall in Hok.
  specialize (Hok row E). rewrite Forall_forall in Hok. auto.
Qed.

(** The cells and the recorded triggers are cell texts of the program. *)
Lemma maintains_tags_place_letter chk tgt ch :
  maintains (fun w => cells_ok (board w) /\ tags_ok (premium_spots w))
    (place_letter chk tgt (String ch EmptyString)).
Proof.
  intros w [Hc Ht]. unfold place_letter, read_cell, write_cell.
  cbv beta iota delta [bind gets of_option ret raise modify].
  destruct (board_get (board w) (fst chk) (snd chk)) as [c |] eqn:Ec;
    [| split; assumption].
  assert (Hpc : program_cell c) by (eapply get_program_cell; eauto).
  assert (Ht' : tags_ok (premium_spots w ++ [(String ch EmptyString, c)])).
  { apply Forall_app. split; [exact Ht |]. constructor; [exact Hpc |].
    constructor. }
  destruct (negb (String.eqb c EMPTY_CELL));
    cbn [board set_premium_spots];
    destruct (board_set (board w) _ _ _) as [b' |] eqn:Es;
    cbn [snd board premium_spots set_board set_premium_spots];
    (split;
     [first [exact Hc
            | eapply evolves_cells_ok;
              [eapply board_set_evolves, Es | exact Hc]]
     | first [exact Ht' | exact Ht]]).
Qed.

Section ScoreThroughPlacement.

Context {RNG : Shuffler}.

Lemma place_word_tags_ok word0 loc dir0 p w :
  cells_ok (board w) ->
  tags_ok (premium_spots (snd (place_word word0 loc dir0 p w))).
Proof.
  intro Hc.
  assert (H : maintains
                (fun w' => cells_ok (board w') /\ tags_ok (premium_spots w'))
                (place_letters (Py.upper word0) loc (Py.lower dir0) ;;;
                 use_tiles (Py.upper word0) p ;;; replenish_rack p)).
  { apply maintains_bind;
      [apply maintains_place_letters; intros;
       apply maintains_tags_place_letter |].
    intros _. apply maintains_bind.
    - intros w1 [H1 H2].
      rewrite (preserves_use_tiles board (rack_blind_player_blind board rack_blind_board)).
      rewrite (preserves_use_tiles premium_spots
                 (rack_blind_player_blind _ rack_blind_premium_spots)).
      split; assumption.
    - intros _ w1 [H1 H2].
      rewrite (preserves_replenish_rack board rack_blind_board).
      rewrite (preserves_replenish_rack premium_spots
                 rack_blind_premium_spots).
      split; assumption. }
  unfold place_word. unfold bind at 1, modify at 1.
  apply H. split; [exact Hc | constructor].
Qed.

(** X5.  On a board whose cells are cell texts of the program, the word
    score computed after [place_word] is the plain sum of the letter values
    of the word, whatever cells it covers: no premium cell ever adds to or
    multiplies a score (and a word with a character outside A-Z gets
    KeyError). *)
Theorem premium_cells_never_score (wtp : string) (loc : Z * Z)
  (dir : string) (p : nat) (w : World) :
  cells_ok (board w) ->
  let placed := snd (place_word wtp loc dir p w) in
  word_score_of (Word_new wtp loc p dir) placed
  = (match face_value (Py.chars (Py.upper wtp)) with
     | Some v => Ok v
     | None => Raise KeyError
     end, placed).
Proof.
  intros Hc placed. apply word_score_tags_ok.
  apply place_word_tags_ok, Hc.
Qed.

End ScoreThroughPlacement.

Lemma cells_okb_sound b :
  forallb (forallb program_cellb) b = true -> cells_ok b.
Proof.
  intro H. apply Forall_forall. intros row Hrow.
  rewrite forallb_forall in H. specialize (H row Hrow).
  apply Forall_forall. intros c Hc.
  rewrite forallb_forall in H. apply program_cellb_sound, H, Hc.
Defined.

(** AT across the triple-letter cell (1,5) of a new game scores 2. *)
Lemma premium_cells_never_score_witness :
  let placed := snd (@place_word keep_order "at" (1, 5) "right" 0%nat
                       fresh_game) in
  cells_ok (board fresh_game)
  /\ board_get (board fresh_game) 1 5 = Some TLS_CELL
  /\ word_score_of (Word_new "at" (1, 5) 0 "right") placed = (Ok 2, placed).
Proof.
  intro placed.
  assert (Hc : cells_ok (board fresh_game))
    by (apply cells_okb_sound; reflexivity).
  refine (conj Hc (conj eq_refl _)).
  exact (@premium_cells_never_score keep_order "at" (1, 5) "right" 0%nat
           fresh_game Hc).
Defined.

Lemma letter_bonus_known l v spots :
  dict_get LETTER_VALUES l = Some v ->
  forall acc w,
    exists acc', for_each spots (letter_bonus l) acc w = (Ok acc', w)
                 /\ acc <= acc'.
Proof.
  intro Hv. pose proof (letter_value_range l v Hv) as Hr.
  induction spots as [| spot spots IH]; intros acc w; cbn [for_each].
  - exists acc. split; [reflexivity | lia].
  - unfold bind. unfold letter_bonus at 1. unfold letter_value, of_option.
    rewrite Hv.
    destruct (String.eqb l (fst spot));
      [destruct (String.eqb (snd spot) "TLS");
       [| destruct (String.eqb (snd spot) "DLS")] |];
      cbv beta iota delta [bind ret];
      match goal with
      | |- context [for_each spots (letter_bonus l) ?a w] =>
          destruct (IH a w) as [acc' [-> Hle]]
      end;
      exists acc'; (split; [reflexivity | lia]).
Qed.

Lemma letter_bonus_unknown_step l spot acc w :
  dict_get LETTER_VALUES l = None ->
  letter_bonus l spot acc w = (Ok acc, w)
  \/ letter_bonus l spot acc w = (Raise KeyError, w).
Proof.
  intro Hv. unfold letter_bonus, letter_value, of_option. rewrite Hv.
  destruct (String.eqb l (fst spot));
    [destruct (String.eqb (snd spot) "TLS");
     [| destruct (String.eqb (snd spot) "DLS")] |];
    cbv beta iota delta [bind ret raise]; auto.
Qed.

Lemma letter_bonus_unknown l spots :
  dict_get LETTER_VALUES l = None ->
  forall acc w,
    for_each spots (letter_bonus l) acc w = (Ok acc, w)
    \/ for_each spots (letter_bonus l) acc w = (Raise KeyError, w).
Proof.
  intro Hv.
  induction spots as [| spot spots IH]; intros acc w; cbn [for_each].
  - left. reflexivity.
  - unfold bind.
    destruct (letter_bonus_unknown_step l spot acc w Hv) as [-> | ->];
      [apply IH | right; reflexivity].
Qed.

Lemma letter_step_known l v spots acc w :
  dict_get LETTER_VALUES l = Some v ->
  exists acc',
    (acc' <- for_each spots (letter_bonus l) acc ;;
     v <- letter_value l ;;
     ret (acc' + v)) w = (Ok (acc' + v), w)
    /\ acc <= acc'.
Proof.
  intro Hv.
  destruct (letter_bonus_known l v spots Hv acc w) as [acc' [H Hle]].
  exists acc'. split; [| exact Hle].
  unfold bind at 1. rewrite H.
  unfold letter_value, of_option. rewrite Hv. reflexivity.
Qed.

Lemma letter_step_unknown l spots acc w :
  dict_get LETTER_VALUES l = None ->
  (acc' <- for_each spots (letter_bonus l) acc ;;
   v <- letter_value l ;;
   ret (acc' + v)) w = (Raise KeyError, w).
Proof.
  intro Hv. unfold bind at 1.
  destruct (letter_bonus_unknown l spots Hv acc w) as [-> | ->];
    [| reflexivity].
  unfold letter_value, of_option. rewrite Hv. reflexivity.
Qed.

Lemma letters_known spots ls :
  forall v acc w,
    face_value ls = Some v ->
    exists s,
      for_each ls
        (fun l acc =>
           acc' <- for_each spots (letter_bonus l) acc ;;
           v <- letter_value l ;;
           ret (acc' + v))
        acc w = (Ok s, w)
      /\ acc + v <= s.
Proof.
  induction ls as [| l r IH]; intros v acc w H; cbn [for_each face_value] in *.
  - injection H as <-. exists acc. split; [reflexivity | lia].
  - destruct (dict_get LETTER_VALUES l) as [x |] eqn:Hx; [| discriminate].
    destruct (face_value r) as [s0 |]; [| discriminate].
    injection H as <-.
    destruct (letter_step_known l x spots acc w Hx) as [acc' [Hstep Hle]].
    unfold bind at 1. rewrite Hstep.
    destruct (IH s0 (acc' + x) w eq_refl) as [s [-> Hs]].
    exists s. split; [reflexivity | lia].
Qed.

Lemma letters_unknown spots ls :
  forall acc w,
    face_value ls = None ->
    for_each ls
      (fun l acc =>
         acc' <- for_each spots (letter_bonus l) acc ;;
         v <- letter_value l ;;
         ret (acc' + v))
      acc w = (Raise KeyError, w).
Proof.
  induction ls as [| l r IH]; intros acc w H; cbn [for_each face_value] in *.
  - discriminate.
  - unfold bind at 1.
    destruct (dict_get LETTER_VALUES l) as [x |] eqn:Hx.
    + destruct (letter_step_known l x spots acc w Hx) as [acc' [Hstep _]].
      rewrite Hstep. apply IH.
      destruct (face_value r); [discriminate | reflexivity].
    + rewrite (letter_step_unknown l spots acc w Hx). reflexivity.
Qed.

Lemma word_bonus_any spots :
  forall acc w,
    0 <= acc ->
    exists s, for_each spots word_bonus acc w = (Ok s, w) /\ acc <= s.
Proof.
  induction spots as [| spot spots IH]; intros acc w Hacc; cbn [for_each].
  - exists acc. split; [reflexivity | lia].
  - unfold bind. unfold word_bonus at 1.
    destruct (String.eqb (snd spot) "TWS");
      [| destruct (String.eqb (snd spot) "DWS")];
      cbv beta iota delta [ret];
      match goal with
      | |- context [for_each spots word_bonus ?a w] =>
          destruct (IH a w) as [s [-> Hle]]; [lia |]
      end;
      exists s; (split; [reflexivity | lia]).
Qed.

Lemma face_value_length ls v :
  face_value ls = Some v -> Z.of_nat (List.length ls) <= v.
Proof.
  revert v. induction ls as [| l r IH]; intros v H; cbn [face_value] in H.
  - injection H as <-. simpl. lia.
  - destruct (dict_get LETTER_VALUES l) as [x |] eqn:Hx; [| discriminate].
    destruct (face_value r) as [s |]; [| discriminate].
    injection H as <-. pose proof (letter_value_range l x Hx).
    specialize (IH s eq_refl). cbn [List.length]. lia.
Qed.

Lemma bind_gets {A B} (f : World -> A) (k : A -> M B) w :
  bind (gets f) k w = k (f w) w.
Proof. reflexivity. Qed.

Lemma bind_ok {A B} (m : M A) (k : A -> M B) w a w' :
  m w = (Ok a, w') -> bind m k w = k a w'.
Proof. intro H. unfold bind. rewrite H. reflexivity. Qed.

Lemma bind_raise {A B} (m : M A) (k : A -> M B) w e w' :
  m w = (Raise e, w') -> bind m k w = (Raise e, w').
Proof. intro H. unfold bind. rewrite H. reflexivity. Qed.

Lemma word_score_of_outcome self w :
  match face_value (Py.chars (word self)) with
  | None => word_score_of self w = (Raise KeyError, w)
  | Some v =>
      exists s, Z.of_nat (String.length (word self)) <= v <= s
                /\ word_score_of self w = (Ok s, w)
  end.
Proof.
  unfold word_score_of. rewrite bind_gets.
  destruct (face_value (Py.chars (word self))) as [v |] eqn:Hv.
  - destruct (letters_known (premium_spots w) _ v 0 w Hv) as [s [Hs Hle]].
    rewrite (bind_ok _ _ _ _ _ Hs).
    pose proof (face_value_length _ _ Hv) as Hlen.
    rewrite chars_length in Hlen.
    destruct (word_bonus_any (premium_spots w) s w) as [s' [-> Hs']];
      [lia |].
    exists s'. split; [lia | reflexivity].
  - apply bind_raise, letters_unknown, Hv.
Qed.

(** X6.  [calculate_word_score], whatever triggers are recorded: when some
    character of the word has no letter value it raises KeyError and leaves
    every score as it was; otherwise it returns normally and adds to the
    score of the acting player, and of nobody else, at least the sum of the
    letter values of the word, which is at least the length of the word. *)
Theorem calculate_word_score_outcome (self : Word) (w : World) :
  match face_value (Py.chars (word self)) with
  | None => calculate_word_score self w = (Raise KeyError, w)
  | Some v =>
      exists s,
        Z.of_nat (String.length (word self)) <= v <= s
        /\ calculate_word_score self w
           = (Ok tt,
              set_players
                (update_nth (players w) (wplayer self)
                   (fun pl => mkPlayer (name pl) (rack pl) (score pl + s)))
                w)
  end.
Proof.
  unfold calculate_word_score.
  pose proof (word_score_of_outcome self w) as H.
  destruct (face_value (Py.chars (word self))) as [v |].
  - destruct H as [s [Hs H]]. exists s. split; [exact Hs |].
    rewrite (bind_ok _ _ _ _ _ H). reflexivity.
  - apply bind_raise, H.
Qed.

(** ** Validation followed by placement *)

Lemma lower_right : Py.lower "right" = "right".
Proof. reflexivity. Qed.

Lemma lower_down : Py.lower "down" = "down".
Proof. reflexivity. Qed.

Lemma accepted_bounds self w :
  accepted self w -> grid15 (board w) ->
  0 <= fst (location self) < 15 /\ 0 <= snd (location self) < 15
  /\ (direction self = "right" ->
      snd (location self) + Z.of_nat (String.length (word self)) <= 15)
  /\ (direction self = "down" ->
      fst (location self) + Z.of_nat (String.length (word self)) <= 15).
Proof.
  intros [Hw [Hdir [_ [Hoob [_ [_ Hgrid]]]]]] Hg.
  specialize (Hgrid Hg).
  unfold fails in Hoob.
  apply orb_false_iff in Hoob. destruct Hoob as [Hoob Hd].
  apply orb_false_iff in Hoob. destruct Hoob as [Hoob Hr].
  apply orb_false_iff in Hoob. destruct Hoob as [H1 H2].
  apply Z.ltb_ge in H1, H2.
  assert (Hfirst : in_grid (location self)).
  { destruct (word self) as [| c s] eqn:Ew; [congruence |].
    unfold target_cells in Hgrid. rewrite Ew in Hgrid.
    destruct Hdir as [Hd' | Hd']; rewrite Hd' in Hgrid; simpl in Hgrid;
      inversion Hgrid as [| ? ? Hin _]; subst;
      unfold in_grid, cell_right, cell_down in Hin; simpl in Hin;
      unfold in_grid; lia. }
  destruct Hfirst as [Ha Hb].
  split; [exact Ha |]. split; [exact Hb |]. split.
  - intro He. rewrite He in Hr. simpl in Hr. apply Z.ltb_ge in Hr. lia.
  - intro He. rewrite He in Hd. simpl in Hd. apply Z.ltb_ge in Hd. lia.
Qed.

Section AcceptedPlacement.

Context {RNG : Shuffler}.

Lemma place_word_board_spots word0 loc dir0 p w :
  (p < List.length (players w))%nat ->
  fst (place_letters (Py.upper word0) loc (Py.lower dir0)
         (set_premium_spots [] w)) = Ok tt ->
  board (snd (place_word word0 loc dir0 p w))
  = board (snd (place_letters (Py.upper word0) loc (Py.lower dir0)
                  (set_premium_spots [] w)))
  /\ premium_spots (snd (place_word word0 loc dir0 p w))
     = premium_spots (snd (place_letters (Py.upper word0) loc (Py.lower dir0)
                             (set_premium_spots [] w))).
Proof.
  intros Hp Hok. rewrite (place_word_phases _ _ _ _ _ Hp Hok).
  rewrite (preserves_replenish_rack board rack_blind_board).
  rewrite (preserves_replenish_rack premium_spots rack_blind_premium_spots).
  split; reflexivity.
Qed.

(** X7.  On a 15 x 15 board, a placement to the right that [check_word] has
    accepted is carried out by [place_word] without error: the covered cells
    then hold the letters of the word, and the triggers recorded are the
    non-blank contents those cells had. *)
Theorem accepted_right_placement (wtp : string) (loc : Z * Z) (dir : string)
  (p : nat) (w : World) :
  grid15 (board w) ->
  (p < List.length (players w))%nat ->
  Py.lower dir = "right" ->
  fst (check_word (Word_new wtp loc p dir) w) = Ok VTrue ->
  let cells := map (cell_right loc) (range (String.length (Py.upper wtp))) in
  let placed := place_word wtp loc dir p w in
  fst placed = Ok tt
  /\ contents (snd placed) cells
     = map (fun l => Some (letter_cell l)) (Py.chars (Py.upper wtp))
  /\ premium_spots (snd placed)
     = triggers (board w) cells (Py.chars (Py.upper wtp)).
Proof.
  intros Hg Hp Hd Hok cells placed.
  apply check_word_accepts in Hok.
  destruct (accepted_bounds _ _ Hok Hg) as [Hr [Hc [Hlen _]]].
  cbn [Word_new location word direction] in Hr, Hc, Hlen.
  specialize (Hlen Hd).
  destruct (place_letters_right (Py.upper wtp) (Py.lower dir) loc
              (set_premium_spots [] w))
    as [H1 [H2 H3]]; try assumption; try lia.
  { rewrite Hd. apply lower_right. }
  cbv zeta in H1, H2, H3.
  destruct (place_word_board_spots wtp loc dir p w Hp H1) as [Hb Hs].
  destruct (place_word_run wtp loc dir p w Hp H1) as [drawn [Hrun _]].
  unfold placed. split; [exact Hrun |]. split.
  - unfold contents in *. rewrite Hb. exact H3.
  - rewrite Hs, H2. reflexivity.
Qed.

End AcceptedPlacement.

Lemma accepted_right_placement_witness :
  let placed := @place_word keep_order "cat" (7, 7) "Right" 0%nat fresh_game in
  grid15 (board fresh_game)
  /\ (0 < List.length (players fresh_game))%nat
  /\ Py.lower "Right" = "right"
  /\ fst (check_word (Word_new "cat" (7, 7) 0 "Right") fresh_game) = Ok VTrue
  /\ fst placed = Ok tt
  /\ contents (snd placed) [(7, 7); (7, 8); (7, 9)]
     = [Some (letter_cell "C"); Some (letter_cell "A");
        Some (letter_cell "T")]
  /\ premium_spots (snd placed) = [("C", CENTER_CELL)].
Proof.
  intro placed.
  assert (Hg : grid15 (board fresh_game)) by apply grid15_fresh_game.
  assert (Hp : (0 < List.length (players fresh_game))%nat) by (simpl; lia).
  assert (Hd : Py.lower "Right" = "right") by reflexivity.
  assert (Hok : fst (check_word (Word_new "cat" (7, 7) 0 "Right") fresh_game)
                = Ok VTrue) by reflexivity.
  refine (conj Hg (conj Hp (conj Hd (conj Hok _)))).
  exact (@accepted_right_placement keep_order "cat" (7, 7) "Right" 0%nat
           fresh_game Hg Hp Hd Hok).
Defined.

Lemma bind_raise_fst {A B} (m : M A) (k : A -> M B) w e :
  fst (m w) = Raise e -> fst (bind m k w) = Raise e.
Proof.
  intro H. unfold bind. destruct (m w) as [[a | e'] w1]; simpl in *;
    congruence.
Qed.

(** A loop with an iteration that must fail fails, when the iterations
    before it can only succeed or fail in the same way. *)
Lemma for_each_raises {A S} (P : World -> Prop) (e : exn)
  (body : A -> S -> M S) (xs : list A) :
  (forall x acc, In x xs -> maintains P (body x acc)) ->
  (forall x acc w, In x xs ->
     fst (body x acc w) = Raise e \/ exists a, fst (body x acc w) = Ok a) ->
  (exists x, In x xs /\ forall acc w, P w -> fst (body x acc w) = Raise e) ->
  forall acc w, P w -> fst (for_each xs body acc w) = Raise e.
Proof.
  induction xs as [| y r IH]; intros Hm Hc [x [Hin Hx]] acc w Hw.
  - destruct Hin.
  - cbn [for_each]. destruct Hin as [-> | Hin].
    + apply bind_raise_fst, Hx, Hw.
    + destruct (Hc y acc w (or_introl eq_refl)) as [Hy | [a Hy]].
      * apply bind_raise_fst, Hy.
      * pose proof (Hm y acc (or_introl eq_refl) w Hw) as Hw1.
        unfold bind. destruct (body y acc w) as [res w1].
        simpl in Hy, Hw1. subst res.
        apply IH; try assumption.
        -- intros z acc' Hz. apply Hm. right. exact Hz.
        -- intros z acc' w' Hz. apply Hc. right. exact Hz.
        -- exists x. auto.
Qed.

Lemma place_letter_cases chk tgt l w :
  fst (place_letter chk tgt l w) = Raise IndexError
  \/ exists a, fst (place_letter chk tgt l w) = Ok a.
Proof.
  unfold place_letter, read_cell, write_cell.
  cbv beta iota delta [bind gets of_option ret raise modify].
  destruct (board_get (board w) _ _) as [c |]; [| auto].
  destruct (negb _); cbn [board set_premium_spots];
    destruct (board_set (board w) _ _ _); simpl; eauto.
Qed.

Lemma place_letter_unreadable chk tgt l w :
  board_get (board w) (fst chk) (snd chk) = None ->
  fst (place_letter chk tgt l w) = Raise IndexError.
Proof.
  intro H. unfold place_letter, read_cell.
  cbv beta iota delta [bind gets of_option]. rewrite H. reflexivity.
Qed.

Lemma combine_nth_in {A B} (a : list A) (b : list B) i u v :
  nth_error a i = Some u -> nth_error b i = Some v -> In (u, v) (combine a b).
Proof.
  revert b i. induction a as [| x a IH]; intros [| y b] [| i] Hu Hv;
    simpl in *; try discriminate.
  - injection Hu as <-. injection Hv as <-. left. reflexivity.
  - right. eapply IH; eauto.
Qed.

Lemma enumerate_in {A} (l : list A) (i : nat) :
  (i < List.length l)%nat -> exists x, In (Z.of_nat i, x) (enumerate l).
Proof.
  intro H. destruct (nth_error l i) as [x |] eqn:E.
  - exists x. unfold enumerate, range.
    apply (combine_nth_in _ _ i); [| exact E].
    rewrite nth_error_map, nth_error_seq.
    destruct (Nat.ltb_spec i (List.length l)); [reflexivity | lia].
  - apply nth_error_None in E. lia.
Qed.

Section DownNearTheEdge.

Context {RNG : Shuffler}.

(** X8.  On a 15 x 15 board, a placement downwards that [check_word] has
    accepted and whose column plus the length of the word exceeds 15 makes
    [place_word] raise IndexError: its bonus test reads the row to the
    right of the start (line 281) and runs off the board. *)
Theorem accepted_down_placement_raises (wtp : string) (loc : Z * Z)
  (dir : string) (p : nat) (w : World) :
  grid15 (board w) ->
  Py.lower dir = "down" ->
  fst (check_word (Word_new wtp loc p dir) w) = Ok VTrue ->
  15 < snd loc + Z.of_nat (String.length (Py.upper wtp)) ->
  fst (place_word wtp loc dir p w) = Raise IndexError.
Proof.
  intros Hg Hd Hok Hover.
  apply check_word_accepts in Hok.
  destruct (accepted_bounds _ _ Hok Hg) as [Hr [Hc _]].
  cbn [Word_new location] in Hr, Hc.
  unfold place_word. unfold bind at 1, modify at 1.
  apply bind_raise_fst. unfold place_letters.
  rewrite Hd, lower_down. cbn [String.eqb Ascii.eqb Bool.eqb andb].
  cbv iota.
  apply (for_each_raises (fun w' => evolves (board w) (board w'))).
  - intros iw acc Hin.
    apply enumerate_single, chars_single in Hin. destruct Hin as [ch ->].
    apply maintains_place_letter.
  - intros iw acc w' _. apply place_letter_cases.
  - destruct (enumerate_in (Py.chars (Py.upper wtp))
                (Z.to_nat (15 - snd loc))) as [l Hl].
    { rewrite chars_length. lia. }
    exists (Z.of_nat (Z.to_nat (15 - snd loc)), l).
    split; [exact Hl |]. intros acc w' Hw'.
    apply place_letter_unreadable. unfold cell_right. cbn [fst snd].
    replace (snd loc + Z.of_nat (Z.to_nat (15 - snd loc))) with 15 by lia.
    apply board_get_col15. eapply evolves_grid15; eauto.
  - apply evolves_refl.
Qed.

End DownNearTheEdge.

Lemma accepted_down_placement_raises_witness :
  grid15 (board round2_game)
  /\ Py.lower "down" = "down"
  /\ fst (check_word (Word_new "ate" (0, 13) 0 "down") round2_game) = Ok VTrue
  /\ 15 < snd (0, 13) + Z.of_nat (String.length (Py.upper "ate"))
  /\ fst (@place_word keep_order "ate" (0, 13) "down" 0%nat round2_game)
     = Raise IndexError.
Proof.
  assert (Hg : grid15 (board round2_game))
    by (split; [reflexivity | repeat constructor]).
  assert (Hd : Py.lower "down" = "down") by reflexivity.
  assert (Hok : fst (check_word (Word_new "ate" (0, 13) 0 "down")
                       round2_game) = Ok VTrue) by reflexivity.
  assert (Ho : 15 < snd (0, 13) + Z.of_nat (String.length (Py.upper "ate")))
    by (simpl; lia).
  refine (conj Hg (conj Hd (conj Hok (conj Ho _)))).
  exact (@accepted_down_placement_raises keep_order "ate" (0, 13) "down"
           0%nat round2_game Hg Hd Hok Ho).
Defined.

(** ** Drawing and removing tiles *)

Section DrawFacts.

Context {RNG : Shuffler}.

Lemma bag_pop_last w :
  bag w <> [] ->
  exists t b', bag w = b' ++ [t] /\ bag_pop w = (Ok t, set_bag b' w).
Proof.
  intro Hne. unfold bag_pop. cbv beta iota delta [bind gets].
  destruct (rev (bag w)) as [| t r] eqn:E.
  - apply (f_equal (@rev Tile)) in E. rewrite rev_involutive in E.
    contradiction.
  - exists t, (rev r). split; [| reflexivity].
    rewrite <- (rev_involutive (bag w)), E. reflexivity.
Qed.

(** X9.  [take_from_bag] always returns a tile.  With 10 tiles or more in
    the bag it takes the last one and changes nothing else; with fewer it
    first adds a whole fill to the tiles still there, and the tile returned
    together with the tiles left are exactly the old tiles and the fill:
    no tile is lost or made up. *)
Theorem take_from_bag_conserves (w : World) :
  exists t,
    fst (take_from_bag w) = Ok t
    /\ if (List.length (bag w) <? 10)%nat
       then Permutation (bag (snd (take_from_bag w)) ++ [t])
              (bag w ++ fill_tiles (next_obj w) BAG_FILL)
       else bag w = bag (snd (take_from_bag w)) ++ [t]
            /\ snd (take_from_bag w) = set_bag (bag (snd (take_from_bag w))) w.
Proof.
  rewrite take_from_bag_refilled.
  destruct (bag_pop_last (refilled w) (refilled_nonempty w))
    as [t [b' [Hb Hpop]]].
  exists t. rewrite Hpop. cbn [fst snd bag set_bag].
  split; [reflexivity |]. unfold refilled in *.
  destruct (List.length (bag w) <? 10)%nat eqn:E.
  - apply Nat.ltb_lt in E.
    destruct (Z.of_nat (List.length (bag w)) <? 10) eqn:E';
      [| apply Z.ltb_ge in E'; lia].
    rewrite initialize_bag_run in Hb. cbn [snd bag set_rng set_bag] in Hb.
    rewrite <- Hb. apply shuffle_perm.
  - apply Nat.ltb_ge in E.
    destruct (Z.of_nat (List.length (bag w)) <? 10) eqn:E';
      [apply Z.ltb_lt in E'; lia |].
    split; [exact Hb | reflexivity].
Qed.

End DrawFacts.

Lemma list_remove_none t r : ~ In t r -> list_remove t r = None.
Proof.
  induction r as [| y r IH]; intro H; simpl; [reflexivity |].
  destruct (tile_eqb y t) eqn:E.
  - apply tile_eqb_eq in E. subst y. exfalso. apply H. left. reflexivity.
  - rewrite IH; [reflexivity |]. intro Hin. apply H. right. exact Hin.
Qed.

Lemma list_remove_perm t r r' :
  list_remove t r = Some r' -> Permutation (t :: r') r.
Proof.
  revert r'. induction r as [| y r IH]; intros r' H; simpl in H;
    [discriminate |].
  destruct (tile_eqb y t) eqn:E.
  - injection H as <-. apply tile_eqb_eq in E. subst y. reflexivity.
  - destruct (list_remove t r) as [r1 |]; [| discriminate].
    injection H as <-. rewrite perm_swap. constructor. auto.
Qed.

(** X10.  [remove_from_rack] on a tile the rack holds returns normally and
    takes exactly one occurrence of it off that rack; on a tile the rack
    does not hold it raises ValueError and changes nothing. *)
Theorem remove_from_rack_outcome (p : nat) (tile : Tile) (w : World) :
  (In tile (rack (get_player p w)) ->
   exists r', remove_from_rack p tile w = (Ok tt, with_rack p r' w)
              /\ Permutation (tile :: r') (rack (get_player p w)))
  /\ (~ In tile (rack (get_player p w)) ->
      remove_from_rack p tile w = (Raise ValueError, w)).
Proof.
  split.
  - intro Hin. destruct (list_remove_in tile _ Hin) as [r' [Hr _]].
    exists r'. split; [apply remove_from_rack_run, Hr |].
    apply list_remove_perm, Hr.
  - intro Hn. unfold remove_from_rack, get_rack.
    cbv beta iota delta [bind gets]. rewrite (list_remove_none _ _ Hn).
    reflexivity.
Qed.

Section ReplenishOutcome.

Context {RNG : Shuffler}.

Lemma add_to_rack_players p w :
  exists t,
    fst (add_to_rack p w) = Ok tt
    /\ players (snd (add_to_rack p w))
       = update_nth (players w) p (fun pl => set_rack (rack pl ++ [t]) pl)
    /\ bag (snd (add_to_rack p w)) <> [].
Proof.
  destruct (take_from_bag_run w) as [t [Ht [Hpl Hlen]]].
  exists t. unfold add_to_rack, bind.
  destruct (take_from_bag w) as [res w1]. simpl in Ht, Hpl, Hlen. subst res.
  unfold update_player, modify. cbn [fst snd players set_players bag].
  rewrite Hpl. repeat split.
  intro Hb. rewrite Hb in Hlen. simpl in Hlen.
  destruct (List.length (bag w) <? 10)%nat eqn:E; [lia |].
  apply Nat.ltb_ge in E. lia.
Qed.

Lemma update_nth_ext {A} (l : list A) n (g h : A -> A) :
  (forall x, g x = h x) -> update_nth l n g = update_nth l n h.
Proof.
  intro H. revert n. induction l as [| x r IH]; intros [| n]; simpl;
    try reflexivity; [rewrite H | rewrite IH]; reflexivity.
Qed.

Lemma update_nth_id {A} (l : list A) n (g : A -> A) :
  (forall x, g x = x) -> update_nth l n g = l.
Proof.
  intro H. revert n. induction l as [| x r IH]; intros [| n]; simpl;
    try reflexivity; [rewrite H | rewrite IH]; reflexivity.
Qed.

End ReplenishOutcome.

(** ** start_game *)

Lemma Board_init_run w : Board_init w = (Ok tt, set_board STANDARD_BOARD w).
Proof. destruct w. vm_compute. reflexivity. Qed.

Section StartFacts.

Context {RNG : Shuffler}.

Lemma take_no_refill w :
  (10 <= List.length (bag w))%nat ->
  exists t b', bag w = b' ++ [t] /\ take_from_bag w = (Ok t, set_bag b' w).
Proof.
  intro H. rewrite take_from_bag_refilled.
  assert (Hr : refilled w = w).
  { unfold refilled.
    destruct (Z.of_nat (List.length (bag w)) <? 10) eqn:E;
      [apply Z.ltb_lt in E; lia | reflexivity]. }
  rewrite Hr. apply bag_pop_last. intro Hb. rewrite Hb in H. simpl in H. lia.
Qed.

(** [k] draws for player [p] from a bag that needs no refill. *)
Lemma draws_no_refill p k :
  forall s w,
    (9 + k <= List.length (bag w))%nat ->
    exists drawn b',
      List.length drawn = k
      /\ bag w = b' ++ rev drawn
      /\ for_each (seq s k) (fun _ (_ : unit) => add_to_rack p) tt w
         = (Ok tt,
            set_players
              (update_nth (players w) p
                 (fun pl => set_rack (rack pl ++ drawn) pl))
              (set_bag b' w)).
Proof.
  induction k as [| k IH]; intros s w H.
  - exists [], (bag w). simpl. rewrite app_nil_r.
    split; [reflexivity |]. split; [reflexivity |]. unfold ret.
    f_equal. rewrite update_nth_id.
    + destruct w; reflexivity.
    + intros [n r sc]. unfold set_rack. simpl. rewrite app_nil_r.
      reflexivity.
  - cbn [seq for_each]. unfold bind at 1. unfold add_to_rack at 1.
    destruct (take_no_refill w) as [t [b1 [Hb Htake]]]; [lia |].
    rewrite (bind_ok _ _ _ _ _ Htake).
    unfold update_player, modify.
    match goal with
    | |- context [for_each _ _ tt ?w1] =>
        destruct (IH (S s) w1) as [drawn [b' [Hlen [Hb' Hrun]]]]
    end.
    { cbn [bag set_players set_bag]. rewrite Hb, length_app in H.
      simpl in H. lia. }
    exists (t :: drawn), b'. split; [simpl; lia |]. split.
    + cbn [bag set_players set_bag] in Hb'. rewrite Hb, Hb'. simpl.
      rewrite <- app_assoc. reflexivity.
    + rewrite Hrun. f_equal. cbn [players bag set_players set_bag].
      unfold set_players, set_bag.
      cbn [board players bag next_obj rng round_number skipped_turns
           premium_spots dictionary dic_txt].
      f_equal. apply update_nth_twice. intros [n r sc]. unfold set_rack.
      simpl. rewrite <- app_assoc. reflexivity.
Qed.

Lemma update_nth_last {A} (l : list A) x (g : A -> A) :
  update_nth (l ++ [x]) (List.length l) g = l ++ [g x].
Proof.
  induction l as [| y l IH]; simpl; [reflexivity | rewrite IH; reflexivity].
Qed.

(** [Player(bag)]: seven tiles leave the bag for the new rack. *)
Lemma Player_new_no_refill w :
  (16 <= List.length (bag w))%nat ->
  exists drawn b',
    List.length drawn = 7%nat
    /\ bag w = b' ++ rev drawn
    /\ Player_new w
       = (Ok (List.length (players w)),
          set_players (players w ++ [mkPlayer "" drawn 0]) (set_bag b' w)).
Proof.
  intro H. unfold Player_new. rewrite bind_gets.
  unfold bind at 1. unfold modify at 1. cbv beta iota.
  unfold Rack_initialize.
  destruct (draws_no_refill (List.length (players w)) 7 0%nat
              (set_players (players w ++ [mkPlayer "" [] 0]) w))
    as [drawn [b' [Hlen [Hb Hrun]]]].
  { cbn [bag set_players]. lia. }
  exists drawn, b'. split; [exact Hlen |].
  split; [exact Hb |].
  rewrite (bind_ok _ _ _ _ _ Hrun). unfold ret.
  cbn [players set_players set_bag]. f_equal.
  unfold set_players, set_bag.
  cbn [board players bag next_obj rng round_number skipped_turns
       premium_spots dictionary dic_txt].
  f_equal. rewrite update_nth_last. reflexivity.
Qed.

(** One player joins. *)
Lemma join_no_refill n w :
  (16 <= List.length (bag w))%nat ->
  exists drawn b',
    List.length drawn = 7%nat
    /\ bag w = b' ++ rev drawn
    /\ (p <- Player_new ;; set_name p n) w
       = (Ok tt,
          set_players (players w ++ [mkPlayer n drawn 0]) (set_bag b' w)).
Proof.
  intro H.
  destruct (Player_new_no_refill w H) as [drawn [b' [Hlen [Hb Hrun]]]].
  exists drawn, b'. split; [exact Hlen |]. split; [exact Hb |].
  rewrite (bind_ok _ _ _ _ _ Hrun).
  unfold set_name, update_player, modify.
  cbn [players set_players set_bag]. f_equal.
  unfold set_players, set_bag.
  cbn [board players bag next_obj rng round_number skipped_turns
       premium_spots dictionary dic_txt].
  f_equal. rewrite update_nth_last. reflexivity.
Qed.

Lemma joins_no_refill names :
  forall w,
    (9 + 7 * List.length names <= List.length (bag w))%nat ->
    exists ps b',
      map name ps = names
      /\ Forall (fun pl => List.length (rack pl) = 7%nat /\ score pl = 0) ps
      /\ Permutation (b' ++ List.concat (map rack ps)) (bag w)
      /\ for_each names (fun n (_ : unit) => p <- Player_new ;; set_name p n)
           tt w
         = (Ok tt, set_players (players w ++ ps) (set_bag b' w)).
Proof.
  induction names as [| n names IH]; intros w H.
  - exists [], (bag w). simpl. rewrite !app_nil_r.
    repeat split; [constructor | reflexivity |].
    unfold ret. destruct w; reflexivity.
  - cbn [for_each].
    destruct (join_no_refill n w) as [drawn [b1 [Hlen [Hb Hjoin]]]].
    { simpl in H. lia. }
    rewrite (bind_ok _ _ _ _ _ Hjoin).
    match goal with
    | |- context [for_each names _ tt ?w1] =>
        destruct (IH w1) as [ps [b' [Hn [Hr [Hperm Hrun]]]]]
    end.
    { cbn [bag set_players set_bag].
      apply (f_equal (@List.length Tile)) in Hb.
      rewrite length_app, length_rev in Hb. simpl in H. lia. }
    exists (mkPlayer n drawn 0 :: ps), b'.
    split; [simpl; rewrite Hn; reflexivity |].
    split; [constructor; [split; [exact Hlen | reflexivity] | exact Hr] |].
    split.
    + cbn [bag set_players set_bag] in Hperm. rewrite Hb.
      cbn [map List.concat rack].
      transitivity ((b' ++ List.concat (map rack ps)) ++ drawn).
      * rewrite <- app_assoc. apply Permutation_app_head.
        apply Permutation_app_comm.
      * apply Permutation_app; [exact Hperm | apply Permutation_rev].
    + rewrite Hrun. f_equal. cbn [players set_players set_bag].
      unfold set_players, set_bag.
      cbn [board players bag next_obj rng round_number skipped_turns
           premium_spots dictionary dic_txt].
      rewrite <- app_assoc. reflexivity.
Qed.

Lemma bind_modify {B} (g : World -> World) (k : unit -> M B) w :
  bind (modify g) k w = k tt (g w).
Proof. reflexivity. Qed.

Lemma start_game_run names w :
  (List.length names <= 13)%nat ->
  exists ps b',
    map name ps = names
    /\ Forall (fun pl => List.length (rack pl) = 7%nat /\ score pl = 0) ps
    /\ Permutation (b' ++ List.concat (map rack ps)) (bag (seated w))
    /\ start_game names w
       = (Ok tt,
          set_skipped_turns 0
            (set_round_number 1
               (set_players ps (set_bag b' (seated w))))).
Proof.
  intro Hn.
  destruct (joins_no_refill names (seated w))
    as [ps [b' [Hnames [Hr [Hp Hrun]]]]].
  { unfold seated. cbn [bag set_players set_rng set_bag].
    rewrite (Permutation_length (shuffle_perm _ _)), fill_tiles_length.
    change (list_sum (map snd BAG_FILL)) with 106%nat. lia. }
  exists ps, b'. split; [exact Hnames |]. split; [exact Hr |].
  split; [exact Hp |].
  unfold start_game.
  rewrite (bind_ok _ _ _ _ _ (Board_init_run w)).
  rewrite (bind_ok _ _ _ _ _ (Bag_init_run _)).
  rewrite bind_modify.
  change (set_players [] _) with (seated w).
  rewrite (bind_ok _ _ _ _ _ Hrun).
  rewrite bind_modify. reflexivity.
Qed.

(** X12.  [start_game] with up to 13 player names (the program asks for 2
    to 4) never fails.  It leaves the standard board, the players in the
    order of their names, each with a rack of 7 tiles and a score of 0,
    round 1 and no skipped turn; the bag and the racks together hold exactly
    the tiles of one fill, so the bag keeps 106 - 7n tiles. *)
Theorem start_game_outcome (names : list string) (w : World) :
  (List.length names <= 13)%nat ->
  let started := snd (start_game names w) in
  fst (start_game names w) = Ok tt
  /\ board started = STANDARD_BOARD
  /\ map name (players started) = names
  /\ Forall (fun pl => List.length (rack pl) = 7%nat /\ score pl = 0)
       (players started)
  /\ round_number started = 1
  /\ skipped_turns started = 0
  /\ Permutation (bag started ++ List.concat (map rack (players started)))
       (fill_tiles (next_obj w) BAG_FILL)
  /\ List.length (bag started) = (106 - 7 * List.length names)%nat.
Proof.
  intros Hn started.
  destruct (start_game_run names w Hn)
    as [ps [b' [Hnames [Hr [Hp Hrun]]]]].
  unfold started. rewrite Hrun.
  cbn [fst snd board players bag round_number skipped_turns set_players
       set_bag set_round_number set_skipped_turns set_rng set_next_obj
       set_board app].
  unfold seated in Hp.
  cbn [bag set_players set_rng set_bag set_next_obj set_board next_obj rng]
    in Hp.
  repeat split; try assumption.
  - rewrite Hp. apply shuffle_perm.
  - apply Permutation_length in Hp.
    rewrite (Permutation_length (shuffle_perm _ _)), fill_tiles_length in Hp.
    change (list_sum (map snd BAG_FILL)) with 106%nat in Hp.
    rewrite length_app, length_concat in Hp.
    assert (Hs : list_sum (map (@List.length Tile) (map rack ps))
                 = (7 * List.length ps)%nat).
    { clear - Hr. induction Hr as [| pl ps [H7 _] _ IH]; simpl;
        [reflexivity |]. rewrite H7, IH. lia. }
    rewrite Hs in Hp. rewrite <- Hnames, length_map. lia.
Qed.

End StartFacts.

Lemma start_game_outcome_witness :
  (List.length ["Ann"; "Bob"] <= 13)%nat
  /\ snd (@start_game keep_order ["Ann"; "Bob"] (boot LEXICON)) = fresh_game
  /\ List.length (bag fresh_game) = 92%nat.
Proof.
  assert (H : (List.length ["Ann"; "Bob"] <= 13)%nat) by (simpl; lia).
  refine (conj H (conj eq_refl _)).
  destruct (@start_game_outcome keep_order ["Ann"; "Bob"] (boot LEXICON) H)
    as [_ [_ [_ [_ [_ [_ [_ H8]]]]]]].
  exact H8.
Defined.

(** ** What every step of a turn keeps *)

Lemma maintains_if {A} (Q : World -> Prop) (b : bool) (m1 m2 : M A) :
  maintains Q m1 -> maintains Q m2 -> maintains Q (if b then m1 else m2).
Proof. destruct b; auto. Qed.

Section TurnClosed.

Context {RNG : Shuffler}.
Variable Q : World -> Prop.
Hypothesis HQ : turn_closed Q.
Hypothesis Hdraw : maintains Q take_from_bag.

Lemma closed_modify_skipped g :
  maintains Q (modify (fun w => set_skipped_turns (g w) w)).
Proof. intros w Hw. apply HQ, Hw. Qed.

Lemma closed_update_player p g : maintains Q (update_player p g).
Proof. intros w Hw. apply HQ, Hw. Qed.

Lemma closed_shuffle_rack p : maintains Q (shuffle_rack p).
Proof.
  unfold shuffle_rack.
  apply maintains_bind; [apply maintains_readonly, readonly_gets |].
  intro g. apply maintains_bind; [| intro; apply closed_update_player].
  intros w Hw. apply HQ, Hw.
Qed.

Lemma closed_add_to_rack p : maintains Q (add_to_rack p).
Proof.
  unfold add_to_rack. apply maintains_bind; [exact Hdraw |].
  intro. apply closed_update_player.
Qed.

Lemma closed_replenish_loop p fuel : maintains Q (replenish_loop fuel p).
Proof.
  induction fuel as [| k IH]; rewrite replenish_loop_eq;
    (apply maintains_bind;
     [unfold get_rack_length, get_rack;
      apply maintains_readonly, readonly_bind;
      [apply readonly_gets | intro; apply readonly_ret] |]);
    intro len;
    (apply maintains_bind; [apply maintains_readonly, readonly_gets |]);
    intro n; apply maintains_if;
    try (apply maintains_readonly, readonly_ret).
  - apply maintains_readonly, readonly_raise.
  - apply maintains_bind; [apply closed_add_to_rack | intro; exact IH].
Qed.

Lemma closed_replenish_rack p : maintains Q (replenish_rack p).
Proof. apply closed_replenish_loop. Qed.

Lemma closed_remove_from_rack p t : maintains Q (remove_from_rack p t).
Proof.
  unfold remove_from_rack, get_rack.
  apply maintains_bind; [apply maintains_readonly, readonly_gets |].
  intro r. apply maintains_bind;
    [apply maintains_readonly, readonly_of_option
    | intro; apply closed_update_player].
Qed.

Lemma closed_strike_loop p l fuel :
  forall i, maintains Q (strike_loop fuel p l i).
Proof.
  induction fuel as [| k IH]; intro i; rewrite strike_loop_eq;
    unfold get_rack;
    (apply maintains_bind; [apply maintains_readonly, readonly_gets |]);
    intro r; destruct (nth_error r i) as [t |];
    try (apply maintains_readonly, readonly_ret).
  - apply maintains_readonly, readonly_raise.
  - apply maintains_bind; [| intro; apply IH].
    apply maintains_if;
      [apply closed_remove_from_rack
      | apply maintains_readonly, readonly_ret].
Qed.

Lemma closed_use_tiles word p : maintains Q (use_tiles word p).
Proof.
  unfold use_tiles. apply maintains_for_each. intros l acc _.
  unfold strike_letter, get_rack.
  apply maintains_bind; [apply maintains_readonly, readonly_gets |].
  intro r. apply closed_strike_loop.
Qed.

Lemma closed_place_letter chk tgt l : maintains Q (place_letter chk tgt l).
Proof.
  unfold place_letter.
  apply maintains_bind; [apply maintains_readonly, readonly_read_cell |].
  intro c. apply maintains_bind.
  - apply maintains_if; [| apply maintains_readonly, readonly_ret].
    intros w Hw. apply HQ, Hw.
  - intros _. unfold write_cell.
    apply maintains_bind; [apply maintains_readonly, readonly_gets |].
    intro b. apply maintains_bind;
      [apply maintains_readonly, readonly_of_option |].
    intros b' w Hw. apply HQ, Hw.
Qed.

Lemma closed_place_word word0 loc dir0 p :
  maintains Q (place_word word0 loc dir0 p).
Proof.
  unfold place_word.
  apply maintains_bind; [intros w Hw; apply HQ, Hw | intros _].
  apply maintains_bind.
  - unfold place_letters.
    repeat apply maintains_if;
      try (apply maintains_for_each; intros; apply closed_place_letter).
    apply maintains_readonly, readonly_ret.
  - intros _. apply maintains_bind;
      [apply closed_use_tiles | intro; apply closed_replenish_rack].
Qed.

Lemma readonly_word_score_of self : readonly (word_score_of self).
Proof.
  unfold word_score_of.
  apply readonly_bind; [apply readonly_gets | intro spots].
  apply readonly_bind.
  - apply readonly_for_each. intros l acc.
    apply readonly_bind.
    + apply readonly_for_each. intros spot acc'. unfold letter_bonus.
      repeat apply readonly_if; try apply readonly_ret;
        (apply readonly_bind;
         [apply readonly_of_option | intro; apply readonly_ret]).
    + intro. apply readonly_bind;
        [apply readonly_of_option | intro; apply readonly_ret].
  - intro s. apply readonly_for_each. intros spot acc. unfold word_bonus.
    repeat apply readonly_if; apply readonly_ret.
Qed.

Lemma closed_calculate_word_score self :
  maintains Q (calculate_word_score self).
Proof.
  unfold calculate_word_score.
  apply maintains_bind;
    [apply maintains_readonly, readonly_word_score_of |].
  intro s. apply closed_update_player.
Qed.

Lemma closed_next_player p : maintains Q (next_player p).
Proof.
  unfold next_player.
  apply maintains_bind; [apply maintains_readonly, readonly_gets |].
  intro ps. apply maintains_if; [apply maintains_readonly, readonly_ret |].
  apply maintains_bind; [| intro; apply maintains_readonly, readonly_ret].
  intros w Hw. apply HQ, Hw.
Qed.

Lemma closed_retry self wtp loc dir more :
  maintains Q (retry self wtp loc dir more).
Proof. intros w Hw. rewrite retry_world. apply HQ, Hw. Qed.

End TurnClosed.

Section TurnLoop.

Context {RNG : Shuffler}.

Lemma readonly_turn_continues p : readonly (turn_continues p).
Proof.
  unfold turn_continues, get_rack_length, get_rack, get_remaining_tiles.
  repeat (apply readonly_bind; [| intro]);
    try apply readonly_gets; apply readonly_ret.
Qed.

Lemma readonly_end_game : readonly end_game.
Proof.
  unfold end_game. apply readonly_bind; [apply readonly_gets | intro ps].
  apply readonly_bind; [| intro; apply readonly_ret].
  apply readonly_for_each. intros pl hw. unfold py_gt.
  apply readonly_bind; [apply readonly_raise | intro].
  apply readonly_if; apply readonly_ret.
Qed.

Lemma closed_menu (Q : World -> Prop) :
  turn_closed Q -> maintains Q take_from_bag ->
  forall cmds p, maintains Q (menu cmds p).
Proof.
  intros HQ Hdraw.
  assert (Hturn : forall r p,
             maintains Q (menu r p) ->
             maintains Q
               (go <- turn_continues p ;;
                if go then menu r p else w <- end_game ;; ret (Ended w))).
  { intros r p Hm.
    apply maintains_bind;
      [apply maintains_readonly, readonly_turn_continues | intro go].
    apply maintains_if; [exact Hm |].
    apply maintains_readonly, readonly_bind;
      [apply readonly_end_game | intro; apply readonly_ret]. }
  induction cmds as [| c r IH]; intro p.
  - apply maintains_readonly, readonly_ret.
  - destruct c as [| | | | a more]; cbn [menu].
    + apply maintains_bind;
        [apply closed_shuffle_rack; assumption | intro; apply IH].
    + apply maintains_bind;
        [apply closed_update_player; assumption | intro].
      apply maintains_bind;
        [apply closed_replenish_rack; assumption | intro; apply IH].
    + apply maintains_bind;
        [apply (closed_modify_skipped Q HQ (fun w => skipped_turns w + 1))
        | intro].
      apply maintains_bind;
        [apply closed_next_player; assumption | intro p'].
      apply Hturn, IH.
    + apply maintains_readonly, readonly_ret.
    + apply maintains_bind; [apply closed_retry; assumption | intro ok].
      destruct ok as [[[[self wtp] loc] dir] |];
        [| apply maintains_readonly, readonly_ret].
      apply maintains_bind;
        [apply closed_place_word; assumption | intro].
      apply maintains_bind;
        [apply closed_calculate_word_score; assumption | intro].
      apply maintains_bind;
        [apply (closed_modify_skipped Q HQ (fun _ => 0)) | intro].
      apply maintains_bind;
        [apply closed_next_player; assumption | intro p'].
      apply Hturn, IH.
Qed.

Lemma bag_closed : turn_closed (fun w => bag w <> []).
Proof. repeat split; intros; assumption. Qed.

Lemma bag_draw : maintains (fun w => bag w <> []) take_from_bag.
Proof.
  intros w _ H. destruct (take_from_bag_run w) as [t [_ [_ Hlen]]].
  rewrite H in Hlen. cbn [List.length] in Hlen.
  destruct (List.length (bag w) <? 10)%nat eqn:E; [lia |].
  apply Nat.ltb_ge in E. lia.
Qed.

Lemma players_closed : turn_closed (fun w => players w <> []).
Proof.
  repeat split; try (intros; assumption).
  intros p g w H H'. cbn [players set_players] in H'.
  apply (f_equal (@List.length Player)) in H'.
  rewrite update_nth_length in H'.
  destruct (players w); [congruence | discriminate].
Qed.

Lemma players_draw : maintains (fun w => players w <> []) take_from_bag.
Proof.
  intros w H. destruct (take_from_bag_run w) as [t [_ [Hp _]]].
  rewrite Hp. exact H.
Qed.

Lemma bind_congr {A B} (Q : World -> Prop) (m : M A) (k k' : A -> M B) w :
  Q w -> maintains Q m ->
  (forall a w', Q w' -> k a w' = k' a w') ->
  bind m k w = bind m k' w.
Proof.
  intros Hw Hm Hk. specialize (Hm w Hw). unfold bind.
  destruct (m w) as [[a | e] w']; [apply Hk, Hm | reflexivity].
Qed.

Lemma end_game_players w :
  players w <> [] -> end_game w = (Raise TypeError, w).
Proof. intro H. unfold end_game. destruct (players w) eqn:E; [congruence |].
  cbv beta iota delta [bind gets]. rewrite E. reflexivity.
Qed.

Lemma turn_continues_bag p w :
  bag w <> [] -> turn_continues p w = skips_only p w.
Proof.
  intro H. unfold turn_continues, skips_only, get_rack_length, get_rack,
    get_remaining_tiles.
  cbv beta iota delta [bind gets ret].
  destruct (bag w) as [| t b]; [congruence |].
  replace (Z.of_nat (List.length (t :: b)) =? 0) with false
    by (symmetry; apply Z.eqb_neq; cbn [List.length]; lia).
  rewrite Bool.andb_false_r, Bool.orb_false_r. reflexivity.
Qed.

Lemma menu_skips_only cmds :
  forall p w, bag w <> [] -> menu cmds p w = menu_with skips_only cmds p w.
Proof.
  pose (Q := fun w : World => bag w <> []).
  assert (Hturn : forall r,
             (forall p w, Q w -> menu r p w = menu_with skips_only r p w) ->
             forall p w, Q w ->
             (go <- turn_continues p ;;
              if go then menu r p else w <- end_game ;; ret (Ended w)) w
             = (go <- skips_only p ;;
                if go then menu_with skips_only r p
                else w <- end_game ;; ret (Ended w)) w).
  { intros r IH p w Hw. unfold bind at 1 3.
    rewrite (turn_continues_bag p w Hw).
    pose proof (readonly_run (skips_only p) w) as Hr.
    rewrite Hr by (unfold skips_only; apply readonly_bind;
                   [apply readonly_gets | intro; apply readonly_ret]).
    destruct (fst (skips_only p w)) as [[|] | e];
      [apply IH, Hw | reflexivity | reflexivity]. }
  induction cmds as [| c r IH]; intros p w Hw; [reflexivity |].
  destruct c as [| | | | a more]; cbn [menu menu_with].
  - apply (bind_congr Q); [exact Hw | | intros; apply IH; assumption].
    apply closed_shuffle_rack; first [apply bag_closed | apply bag_draw].
  - apply (bind_congr Q);
      [exact Hw | apply closed_update_player, bag_closed | intros _ w1 H1].
    apply (bind_congr Q); [exact H1 | | intros; apply IH; assumption].
    apply closed_replenish_rack; first [apply bag_closed | apply bag_draw].
  - apply (bind_congr Q); [exact Hw | | intros _ w1 H1].
    { apply (closed_modify_skipped Q bag_closed
               (fun w => skipped_turns w + 1)). }
    apply (bind_congr Q);
      [exact H1 | apply closed_next_player, bag_closed | intros p' w2 H2].
    apply Hturn; assumption.
  - reflexivity.
  - apply (bind_congr Q);
      [exact Hw | apply closed_retry, bag_closed | intros ok w1 H1].
    destruct ok as [[[[self wtp] loc] dir] |]; [| reflexivity].
    apply (bind_congr Q); [exact H1 | | intros _ w2 H2].
    { apply closed_place_word; first [apply bag_closed | apply bag_draw]. }
    apply (bind_congr Q);
      [exact H2 | apply closed_calculate_word_score, bag_closed
      | intros _ w3 H3].
    apply (bind_congr Q); [exact H3 | | intros _ w4 H4].
    { apply (closed_modify_skipped Q bag_closed (fun _ => 0)). }
    apply (bind_congr Q);
      [exact H4 | apply closed_next_player, bag_closed | intros p' w5 H5].
    apply Hturn; assumption.
Qed.

(** X13.  Once the bag holds a tile it never runs out again, because a
    draw refills it before it is empty: the bag is still non-empty when the
    turns return, and every test of line 453 reduces to
    [skipped_turns < 6], its clause on an empty rack and an empty bag being
    false each time. *)
Theorem turn_tests_skips_only (cmds : list Command) (p : nat) (w : World) :
  bag w <> [] ->
  turn cmds p w = turn_with skips_only cmds p w
  /\ bag (snd (turn cmds p w)) <> [].
Proof.
  intro Hw. split.
  - unfold turn, turn_with. unfold bind at 1 3.
    rewrite (turn_continues_bag p w Hw).
    rewrite (readonly_run (skips_only p) w)
      by (unfold skips_only; apply readonly_bind;
          [apply readonly_gets | intro; apply readonly_ret]).
    destruct (fst (skips_only p w)) as [[|] | e];
      [apply menu_skips_only, Hw | reflexivity | reflexivity].
  - revert Hw. apply (maintains_bind (fun w => bag w <> [])).
    + apply maintains_readonly, readonly_turn_continues.
    + intro go. apply maintains_if.
      * apply closed_menu; first [apply bag_closed | apply bag_draw].
      * apply maintains_readonly, readonly_bind;
          [apply readonly_end_game | intro; apply readonly_ret].
Qed.

Lemma not_ended_bind {A} (Q : World -> Prop) (m : M A) (k : A -> M Outcome)
  w s :
  Q w -> maintains Q m ->
  (forall a w', Q w' -> fst (k a w') <> Ok (Ended s)) ->
  fst (bind m k w) <> Ok (Ended s).
Proof.
  intros Hw Hm Hk. specialize (Hm w Hw). unfold bind.
  destruct (m w) as [[a | e] w']; [apply Hk, Hm | discriminate].
Qed.

Lemma turn_step cmds p w :
  turn cmds p w
  = if skipped_turns w <? 6 then menu cmds p w
    else if (Z.of_nat (List.length (rack (get_player p w))) =? 0)
            && (Z.of_nat (List.length (bag w)) =? 0)
         then menu cmds p w
         else (w' <- end_game ;; ret (Ended w')) w.
Proof.
  unfold turn, turn_continues, get_rack_length, get_rack,
    get_remaining_tiles.
  cbv beta iota delta [bind gets ret].
  destruct (skipped_turns w <? 6); [reflexivity |].
  cbn [orb]. destruct (_ && _); reflexivity.
Qed.

Lemma end_game_not_ended w s :
  players w <> [] ->
  fst ((w' <- end_game ;; ret (Ended w')) w) <> Ok (Ended s).
Proof.
  intro H. unfold bind. rewrite (end_game_players w H). discriminate.
Qed.

Lemma menu_not_ended s cmds :
  forall p w, players w <> [] -> fst (menu cmds p w) <> Ok (Ended s).
Proof.
  pose (Q := fun w : World => players w <> []).
  assert (Hturn : forall r,
             (forall p w, Q w -> fst (menu r p w) <> Ok (Ended s)) ->
             forall p w, Q w ->
             fst ((go <- turn_continues p ;;
                   if go then menu r p else w <- end_game ;; ret (Ended w)) w)
             <> Ok (Ended s)).
  { intros r IH p w Hw. fold (turn r p). rewrite turn_step.
    destruct (skipped_turns w <? 6); [apply IH, Hw |].
    destruct (_ && _); [apply IH, Hw | apply end_game_not_ended, Hw]. }
  induction cmds as [| c r IH]; intros p w Hw; [discriminate |].
  destruct c as [| | | | a more]; cbn [menu].
  - apply (not_ended_bind Q); [exact Hw | | intros; apply IH; assumption].
    apply closed_shuffle_rack, players_closed.
  - apply (not_ended_bind Q);
      [exact Hw | apply closed_update_player, players_closed
      | intros _ w1 H1].
    apply (not_ended_bind Q); [exact H1 | | intros; apply IH; assumption].
    apply closed_replenish_rack; first [apply players_closed
                                       | apply players_draw].
  - apply (not_ended_bind Q); [exact Hw | | intros _ w1 H1].
    { apply (closed_modify_skipped Q players_closed
               (fun w => skipped_turns w + 1)). }
    apply (not_ended_bind Q);
      [exact H1 | apply closed_next_player, players_closed
      | intros p' w2 H2].
    apply Hturn; assumption.
  - discriminate.
  - apply (not_ended_bind Q);
      [exact Hw | apply closed_retry, players_closed | intros ok w1 H1].
    destruct ok as [[[[self wtp] loc] dir] |]; [| discriminate].
    apply (not_ended_bind Q); [exact H1 | | intros _ w2 H2].
    { apply closed_place_word; first [apply players_closed
                                     | apply players_draw]. }
    apply (not_ended_bind Q);
      [exact H2 | apply closed_calculate_word_score, players_closed
      | intros _ w3 H3].
    apply (not_ended_bind Q); [exact H3 | | intros _ w4 H4].
    { apply (closed_modify_skipped Q players_closed (fun _ => 0)). }
    apply (not_ended_bind Q);
      [exact H4 | apply closed_next_player, players_closed
      | intros p' w5 H5].
    apply Hturn; assumption.
Qed.

(** X14.  With at least one player, no sequence of menu choices makes
    [turn] return from [end_game] with a winner: the game stops only by
    the exit choice, by running out of input, or by an exception. *)
Theorem turn_never_names_a_winner (cmds : list Command) (p : nat)
  (w : World) (s : string) :
  players w <> [] -> fst (turn cmds p w) <> Ok (Ended s).
Proof.
  intro Hw. rewrite turn_step.
  destruct (skipped_turns w <? 6); [apply menu_not_ended, Hw |].
  destruct (_ && _); [apply menu_not_ended, Hw | apply end_game_not_ended, Hw].
Qed.

Lemma skip_step r p w :
  menu (CSkip :: r) p w
  = turn r (if negb (Z.of_nat p =? Z.of_nat (List.length (players w)) - 1)
            then S p else 0%nat)
      (if negb (Z.of_nat p =? Z.of_nat (List.length (players w)) - 1)
       then set_skipped_turns (skipped_turns w + 1) w
       else set_round_number (round_number w + 1)
              (set_skipped_turns (skipped_turns w + 1) w)).
Proof.
  cbn [menu]. fold (turn r). unfold next_player.
  cbv beta iota delta [bind gets modify ret].
  cbn [players set_skipped_turns].
  destruct (negb _); reflexivity.
Qed.

(** X15.  Skipping is the way into [end_game]: when the bag is not empty
    and there is a player, [k] skips in a row that bring the skip counter
    to 6 or more end in the TypeError of [end_game], whatever is typed
    afterwards. *)
Theorem skips_end_in_type_error (k : nat) (cmds : list Command) (p : nat)
  (w : World) :
  bag w <> [] -> players w <> [] ->
  6 <= skipped_turns w + Z.of_nat k ->
  fst (turn (repeat CSkip k ++ cmds) p w) = Raise TypeError.
Proof.
  revert p w. induction k as [| k IH]; intros p w Hb Hp Hk;
    rewrite turn_step.
  - destruct (skipped_turns w <? 6) eqn:E; [apply Z.ltb_lt in E; lia |].
    destruct (bag w) as [| t b] eqn:Eb; [congruence |].
    replace (Z.of_nat (List.length (t :: b)) =? 0) with false
      by (symmetry; apply Z.eqb_neq; cbn [List.length]; lia).
    rewrite Bool.andb_false_r. unfold bind.
    rewrite (end_game_players w Hp). reflexivity.
  - destruct (skipped_turns w <? 6) eqn:E.
    + cbn [repeat app]. rewrite skip_step.
      destruct (negb _); apply IH; cbn [bag players skipped_turns
        set_skipped_turns set_round_number]; try assumption; lia.
    + destruct (bag w) as [| t b] eqn:Eb; [congruence |].
      replace (Z.of_nat (List.length (t :: b)) =? 0) with false
        by (symmetry; apply Z.eqb_neq; cbn [List.length]; lia).
      rewrite Bool.andb_false_r. unfold bind.
      rewrite (end_game_players w Hp). reflexivity.
Qed.

End TurnLoop.

Lemma turn_never_names_a_winner_witness :
  players fresh_game <> []
  /\ fst (@turn keep_order [CSkip; CSkip; CSkip; CSkip; CSkip; CSkip] 0%nat
            fresh_game) <> Ok (Ended "Ann").
Proof.
  assert (H : players fresh_game <> []) by discriminate.
  exact (conj H (turn_never_names_a_winner _ _ _ _ H)).
Defined.

Lemma turn_tests_skips_only_witness :
  bag fresh_game <> []
  /\ @turn keep_order [CSkip; CSkip] 0%nat fresh_game
     = @turn_with keep_order skips_only [CSkip; CSkip] 0%nat fresh_game
  /\ bag (snd (@turn keep_order [CSkip; CSkip] 0%nat fresh_game)) <> [].
Proof.
  assert (H : bag fresh_game <> []) by discriminate.
  exact (conj H (turn_tests_skips_only _ _ _ H)).
Defined.

Lemma skips_end_in_type_error_witness :
  bag fresh_game <> [] /\ players fresh_game <> []
  /\ 6 <= skipped_turns fresh_game + Z.of_nat 6
  /\ fst (@turn keep_order (repeat CSkip 6 ++ [CShuffle]) 0%nat fresh_game)
     = Raise TypeError.
Proof.
  assert (Hb : bag fresh_game <> []) by discriminate.
  assert (Hp : players fresh_game <> []) by discriminate.
  assert (Hk : 6 <= skipped_turns fresh_game + Z.of_nat 6)
    by (vm_compute; discriminate).
  exact (conj Hb (conj Hp (conj Hk
           (skips_end_in_type_error 6 [CShuffle] 0 fresh_game Hb Hp Hk)))).
Defined.

(** ** Renewing the rack, and skipping *)

Section MenuFacts.

Context {RNG : Shuffler}.

(** The loop of [replenish_rack] when the bag needs no refill: the tiles
    drawn are the last tiles of the bag, the last one first. *)
Lemma replenish_no_refill p fuel :
  forall w,
    (p < List.length (players w))%nat ->
    (7 - List.length (rack (get_player p w)) <= fuel)%nat ->
    (9 + (7 - List.length (rack (get_player p w))) <= List.length (bag w))%nat ->
    exists drawn b',
      List.length drawn = (7 - List.length (rack (get_player p w)))%nat
      /\ bag w = b' ++ rev drawn
      /\ replenish_loop fuel p w
         = (Ok tt,
            set_players
              (update_nth (players w) p
                 (fun pl => set_rack (rack pl ++ drawn) pl))
              (set_bag b' w)).
Proof.
  induction fuel as [| k IH]; intros w Hp Hf Hb; rewrite replenish_loop_eq;
    unfold get_rack_length, get_rack, get_remaining_tiles;
    cbv beta iota delta [bind gets ret];
    destruct ((Z.of_nat (List.length (rack (get_player p w))) <? 7)
              && (0 <? Z.of_nat (List.length (bag w)))) eqn:E;
    try (apply andb_true_iff in E; destruct E as [E1 E2];
         apply Z.ltb_lt in E1; apply Z.ltb_lt in E2);
    try (apply andb_false_iff in E;
         assert (E' : (7 <= List.length (rack (get_player p w)))%nat)
           by (destruct E as [E | E]; apply Z.ltb_ge in E; lia);
         exists [], (bag w); cbn [List.length rev]; rewrite app_nil_r;
         split; [lia |]; split; [reflexivity |]; f_equal;
         rewrite update_nth_id;
         [destruct w; reflexivity
         | intros [n r sc]; unfold set_rack; simpl; rewrite app_nil_r;
           reflexivity]).
  - exfalso. lia.
  - destruct (take_no_refill w) as [t [b1 [Hbag Htake]]]; [lia |].
    assert (Hadd : add_to_rack p w
                   = (Ok tt,
                      set_players
                        (update_nth (players w) p
                           (fun pl => set_rack (rack pl ++ [t]) pl))
                        (set_bag b1 w))).
    { unfold add_to_rack. rewrite (bind_ok _ _ _ _ _ Htake). reflexivity. }
    rewrite Hadd.
    match goal with
    | |- context [replenish_loop k p ?w1] =>
        assert (Hr : rack (get_player p w1) = rack (get_player p w) ++ [t])
    end.
    { unfold get_player. cbn [players set_players set_bag].
      rewrite nth_update_nth by exact Hp. reflexivity. }
    match goal with
    | |- context [replenish_loop k p ?w1] =>
        destruct (IH w1) as [drawn [b' [Hlen [Hb' Hrun]]]]
    end.
    + cbn [players set_players]. rewrite update_nth_length. exact Hp.
    + rewrite Hr, length_app. cbn [List.length]. lia.
    + rewrite Hr, length_app. cbn [List.length bag set_players set_bag].
      rewrite Hbag, length_app in Hb. cbn [List.length] in Hb. lia.
    + exists (t :: drawn), b'. rewrite Hr, length_app in Hlen.
      cbn [List.length] in Hlen. split; [cbn [List.length]; lia |]. split.
      * cbn [bag set_players set_bag] in Hb'. rewrite Hbag, Hb'. simpl.
        rewrite <- app_assoc. reflexivity.
      * rewrite Hrun. f_equal. cbn [players bag set_players set_bag].
        unfold set_players, set_bag.
        cbn [board players bag next_obj rng round_number skipped_turns
             premium_spots dictionary dic_txt].
        f_equal. apply update_nth_twice. intros [n r sc]. unfold set_rack.
        simpl. rewrite <- app_assoc. reflexivity.
Qed.

(** X16.  Menu choice 3 costs nothing and throws the rack away.  With 16
    tiles or more in the bag, the player gets the last seven tiles of the
    bag as the new rack; the tiles held before are in no rack and do not
    return to the bag; and the same player goes on choosing, with the skip
    counter, the round and the scores as they were. *)
Theorem renew_rack_outcome (r : list Command) (p : nat) (w : World) :
  (p < List.length (players w))%nat ->
  (16 <= List.length (bag w))%nat ->
  exists drawn b',
    List.length drawn = 7%nat
    /\ bag w = b' ++ rev drawn
    /\ menu (CRenew :: r) p w
       = menu r p
           (set_players (update_nth (players w) p (set_rack drawn))
              (set_bag b' w)).
Proof.
  intros Hp Hb. cbn [menu]. unfold update_player. rewrite bind_modify.
  set (w0 := set_players (update_nth (players w) p (set_rack [])) w).
  assert (Hr : rack (get_player p w0) = []).
  { unfold get_player, w0. cbn [players set_players].
    rewrite nth_update_nth by exact Hp. reflexivity. }
  destruct (replenish_no_refill p 7 w0) as [drawn [b' [Hlen [Hbag Hrun]]]].
  - unfold w0. cbn [players set_players]. rewrite update_nth_length.
    exact Hp.
  - lia.
  - rewrite Hr. cbn [List.length]. exact Hb.
  - rewrite Hr in Hlen. cbn [List.length] in Hlen.
    exists drawn, b'. split; [exact Hlen |]. split; [exact Hbag |].
    unfold replenish_rack. rewrite (bind_ok _ _ _ _ _ Hrun).
    f_equal. unfold w0, set_players, set_bag.
    cbn [board players bag next_obj rng round_number skipped_turns
         premium_spots dictionary dic_txt].
    f_equal. apply update_nth_twice. intros [n rk sc]. reflexivity.
Qed.

Lemma skips_run (k : nat) (cmds : list Command) (p : nat) (w : World) :
  (p < List.length (players w))%nat ->
  skipped_turns w + Z.of_nat k <= 6 ->
  turn (repeat CSkip k ++ cmds) p w
  = turn cmds ((p + k) mod List.length (players w))
      (set_round_number
         (round_number w
          + Z.of_nat ((p + k) / List.length (players w)))
         (set_skipped_turns (skipped_turns w + Z.of_nat k) w)).
Proof.
  revert p w. induction k as [| k IH]; intros p w Hp Hk.
  - cbn [repeat app]. rewrite Nat.add_0_r, Nat.mod_small, Nat.div_small
      by exact Hp.
    f_equal. destruct w; unfold set_round_number, set_skipped_turns; simpl.
    f_equal; lia.
  - rewrite turn_step.
    destruct (skipped_turns w <? 6) eqn:E; [| apply Z.ltb_ge in E; lia].
    cbn [repeat app]. rewrite skip_step.
    set (n := List.length (players w)) in *.
    destruct (negb (Z.of_nat p =? Z.of_nat n - 1)) eqn:En.
    + apply negb_true_iff, Z.eqb_neq in En.
      rewrite IH; cbn [players skipped_turns round_number
        set_skipped_turns set_round_number]; fold n; try lia.
      replace (S p + k)%nat with (p + S k)%nat by lia.
      f_equal. destruct w;
        unfold set_round_number, set_skipped_turns; simpl.
      f_equal; lia.
    + apply negb_false_iff, Z.eqb_eq in En.
      rewrite IH; cbn [players skipped_turns round_number
        set_skipped_turns set_round_number]; fold n; try lia.
      assert (Hn : (p + S k = k + 1 * n)%nat) by lia.
      rewrite Hn, Nat.Div0.mod_add, Nat.div_add by lia.
      cbn [Nat.add]. f_equal. destruct w;
        unfold set_round_number, set_skipped_turns; simpl.
      f_equal; lia.
Qed.

(** X17.  Skips hand the turn round the table.  From player [p] of [n],
    [k] skips in a row that keep the skip counter at 6 or below give the
    turn to player [(p + k) mod n], add [k] to the skip counter and add to
    the round counter the number of times the last player was passed;
    nothing else changes. *)
Theorem skips_go_round (k : nat) (cmds : list Command) (p : nat) (w : World) :
  (p < List.length (players w))%nat ->
  skipped_turns w + Z.of_nat k <= 6 ->
  turn (repeat CSkip k ++ cmds) p w
  = turn cmds ((p + k) mod List.length (players w))
      (set_round_number
         (round_number w
          + Z.of_nat ((p + k) / List.length (players w)))
         (set_skipped_turns (skipped_turns w + Z.of_nat k) w)).
Proof. apply skips_run. Qed.

End MenuFacts.

Lemma renew_rack_outcome_witness :
  (0 < List.length (players fresh_game))%nat
  /\ (16 <= List.length (bag fresh_game))%nat
  /\ exists drawn b',
       List.length drawn = 7%nat
       /\ bag fresh_game = b' ++ rev drawn
       /\ @menu keep_order [CRenew] 0%nat fresh_game
          = @menu keep_order [] 0%nat
              (set_players
                 (update_nth (players fresh_game) 0 (set_rack drawn))
                 (set_bag b' fresh_game)).
Proof.
  assert (Hp : (0 < List.length (players fresh_game))%nat)
    by (vm_compute; lia).
  assert (Hb : (16 <= List.length (bag fresh_game))%nat)
    by (vm_compute; lia).
  exact (conj Hp (conj Hb
           (@renew_rack_outcome keep_order [] 0%nat fresh_game Hp Hb))).
Defined.

Lemma skips_go_round_witness :
  (1 < List.length (players fresh_game))%nat
  /\ skipped_turns fresh_game + Z.of_nat 3 <= 6
  /\ @turn keep_order (repeat CSkip 3 ++ [CExit]) 1%nat fresh_game
     = @turn keep_order [CExit]
         ((1 + 3) mod List.length (players fresh_game))
         (set_round_number
            (round_number fresh_game
             + Z.of_nat ((1 + 3) / List.length (players fresh_game)))
            (set_skipped_turns (skipped_turns fresh_game + Z.of_nat 3)
               fresh_game)).
Proof.
  assert (Hp : (1 < List.length (players fresh_game))%nat)
    by (vm_compute; lia).
  assert (Hk : skipped_turns fresh_game + Z.of_nat 3 <= 6)
    by (vm_compute; discriminate).
  exact (conj Hp (conj Hk
           (@skips_go_round keep_order 3 [CExit] 1%nat fresh_game Hp Hk))).
Defined.

(** ** A retry with unusable coordinates *)

Lemma get_minus_one {A} (l : list A) :
  List.length l = 15%nat -> Py.get l (-1) = Py.get l 14.
Proof. intro H. unfold Py.get. rewrite H. reflexivity. Qed.

Lemma set_minus_one {A} (l : list A) v :
  List.length l = 15%nat -> Py.set l (-1) v = Py.set l 14 v.
Proof. intro H. unfold Py.set. rewrite H. reflexivity. Qed.

Lemma board_get_corner b i :
  grid15 b ->
  board_get b (-1) (-1 + i)
  = board_get b (fst (corner_cell i)) (snd (corner_cell i)).
Proof.
  intros [Hlen Hrows]. unfold board_get, corner_cell. cbn [fst snd].
  rewrite (get_minus_one b Hlen).
  destruct (Py.get b 14) as [row |] eqn:E; [| reflexivity].
  destruct (i =? 0) eqn:Ei.
  - apply Z.eqb_eq in Ei. subst i. apply get_minus_one.
    rewrite Forall_forall in Hrows. apply Hrows. eapply get_in, E.
  - replace (-1 + i) with (i - 1) by lia. reflexivity.
Qed.

Lemma board_set_corner b i v :
  grid15 b ->
  board_set b (-1) (-1 + i) v
  = board_set b (fst (corner_cell i)) (snd (corner_cell i)) v.
Proof.
  intros [Hlen Hrows]. unfold board_set, corner_cell. cbn [fst snd].
  rewrite (get_minus_one b Hlen).
  destruct (Py.get b 14) as [row |] eqn:E; [| reflexivity].
  assert (Hrow : List.length row = 15%nat).
  { rewrite Forall_forall in Hrows. apply Hrows. eapply get_in, E. }
  assert (Hs : Py.set row (-1 + i) v
               = Py.set row (if i =? 0 then 14 else i - 1) v).
  { destruct (i =? 0) eqn:Ei.
    - apply Z.eqb_eq in Ei. subst i. apply set_minus_one, Hrow.
    - replace (-1 + i) with (i - 1) by lia. reflexivity. }
  rewrite Hs. clear Hs.
  destruct (Py.set row (if i =? 0 then 14 else i - 1) v) as [row' |];
    [| reflexivity].
  apply set_minus_one, Hlen.
Qed.

Lemma place_letter_corner i l w :
  grid15 (board w) ->
  place_letter (cell_right (-1, -1) i) (cell_right (-1, -1) i) l w
  = place_letter (corner_cell i) (corner_cell i) l w.
Proof.
  intro Hg. unfold place_letter, read_cell, write_cell, cell_right.
  cbn [fst snd].
  cbv beta iota delta [bind gets of_option ret raise modify].
  rewrite (board_get_corner _ i Hg).
  destruct (board_get (board w) _ _) as [c |]; [| reflexivity].
  destruct (negb _); cbn [board set_premium_spots];
    rewrite (board_set_corner _ i _ Hg); reflexivity.
Qed.

Lemma for_each_congr {A S} (Q : World -> Prop) (xs : list A)
  (f g : A -> S -> M S) :
  (forall x acc, In x xs -> maintains Q (g x acc)) ->
  (forall x acc w, In x xs -> Q w -> f x acc w = g x acc w) ->
  forall acc w, Q w -> for_each xs f acc w = for_each xs g acc w.
Proof.
  induction xs as [| x r IH]; intros Hm He acc w Hw; [reflexivity |].
  cbn [for_each]. unfold bind.
  rewrite (He x acc w (or_introl eq_refl) Hw).
  pose proof (Hm x acc (or_introl eq_refl) w Hw) as Hw'.
  destruct (g x acc w) as [[a | e] w']; [| reflexivity].
  apply IH; [| | exact Hw'].
  - intros y acc' Hy. apply Hm. right. exact Hy.
  - intros y acc' w0 Hy. apply He. right. exact Hy.
Qed.

Lemma maintains_grid15_place_letter chk tgt ch :
  maintains (fun w => grid15 (board w))
    (place_letter chk tgt (String ch EmptyString)).
Proof.
  intros w Hw. eapply evolves_grid15; [| exact Hw].
  apply (maintains_place_letter (board w) chk tgt ch w), evolves_refl.
Qed.

(** Direction right from [-1, -1]: the letters go to the last row, the
    first to its last cell and the others to its first cells. *)
Lemma place_letters_corner (word dir : string) (w : World) :
  Py.lower dir = "right" ->
  grid15 (board w) ->
  (String.length word <= 15)%nat ->
  let cells := map corner_cell (range (String.length word)) in
  let after := place_letters word (-1, -1) dir w in
  fst after = Ok tt
  /\ premium_spots (snd after)
     = premium_spots w ++ triggers (board w) cells (Py.chars word)
  /\ contents (snd after) cells
     = map (fun l => Some (letter_cell l)) (Py.chars word).
Proof.
  intros Hd Hg Hlen cells after. unfold after, place_letters.
  rewrite Hd. cbn [String.eqb Ascii.eqb Bool.eqb andb]. cbv iota.
  rewrite (for_each_congr (fun w => grid15 (board w)) _ _
             (fun iw _ => place_letter (corner_cell (fst iw))
                            (corner_cell (fst iw)) (snd iw))).
  - unfold enumerate, range, cells. rewrite chars_length.
    rewrite <- (chars_length word) in *.
    destruct (place_loop_run corner_cell corner_cell (Py.chars word)
                0%nat w Hg) as [H1 [H2 [H3 _]]].
    + intros i Hi. unfold in_grid, corner_cell.
      destruct (Z.of_nat i =? 0) eqn:E; cbn [fst snd];
        [| apply Z.eqb_neq in E]; lia.
    + intros i j Hj Hi. unfold corner_cell.
      destruct (Z.eqb_spec (Z.of_nat i) 0) as [E1 | E1];
        destruct (Z.eqb_spec (Z.of_nat j) 0) as [E2 | E2];
        split; intro He; inversion He; lia.
    + cbv zeta in H1, H2, H3. unfold range. rewrite !map_map in *. auto.
  - intros iw acc Hin.
    apply enumerate_single, chars_single in Hin. destruct Hin as [ch ->].
    apply maintains_grid15_place_letter.
  - intros iw acc w0 _ Hw0. apply place_letter_corner, Hw0.
  - exact Hg.
Qed.

Lemma check_word_answer self w v :
  fst (check_word self w) = Ok v ->
  check_word self w = (Ok v, loaded w)
  /\ check_word self (loaded w) = (Ok v, loaded w).
Proof.
  intro H. rewrite !check_word_run in *. rewrite loaded_idem.
  cbn [fst] in H. rewrite H. split; reflexivity.
Qed.

Section UnusableCoordinates.

Context {RNG : Shuffler}.

(** X18.  A retry typed with an unusable row or column is checked at the
    location of the attempt before, but placed at [-1, -1].  When the first
    attempt is rejected and the retry, with direction right, is accepted,
    the word object still holds the first location, and [place_word] writes
    the word into the last row of the board: its first letter to the last
    cell, the others from the first cell on.  The turn then goes on with
    the score, as after any placement. *)
Theorem unusable_retry_places_in_corner (first a : Attempt)
  (more : list Attempt) (r : list Command) (p : nat) (w : World)
  (v : verdict) :
  let self := Word_new (a_word first) (loc_of first) p (a_dir first) in
  grid15 (board w) ->
  (p < List.length (players w))%nat ->
  fst (check_word self w) = Ok v -> v <> VTrue ->
  a_loc a = None ->
  a_dir a = "right" ->
  fst (check_word (retyped self a) w) = Ok VTrue ->
  let placed := place_word (a_word a) (-1, -1) "right" p (loaded w) in
  location (retyped self a) = loc_of first
  /\ menu (CPlay first (a :: more) :: r) p w
     = (calculate_word_score (retyped self a) ;;;
        modify (set_skipped_turns 0) ;;;
        p' <- next_player p ;; turn r p') (snd placed)
  /\ fst placed = Ok tt
  /\ contents (snd placed)
       (map corner_cell (range (String.length (Py.upper (a_word a)))))
     = map (fun l => Some (letter_cell l)) (Py.chars (Py.upper (a_word a))).
Proof.
  intros self Hg Hp Hv Hne Hloc Hdir Hok placed.
  assert (Hword : word (retyped self a) = Py.upper (a_word a)).
  { unfold retyped. rewrite Hloc. reflexivity. }
  assert (Hlen : (String.length (Py.upper (a_word a)) <= 15)%nat).
  { pose proof (check_word_accepts _ _ Hok) as Hacc.
    destruct (accepted_bounds _ _ Hacc Hg) as [_ [Hc [Hr _]]].
    rewrite Hword in Hr.
    assert (Hd : direction (retyped self a) = "right")
      by (unfold retyped; rewrite Hloc; exact Hdir).
    specialize (Hr Hd). lia. }
  assert (Hg' : grid15 (board (set_premium_spots [] (loaded w))))
    by exact Hg.
  destruct (place_letters_corner (Py.upper (a_word a)) (Py.lower "right")
              (set_premium_spots [] (loaded w)) eq_refl Hg' Hlen)
    as [H1 [_ H3]].
  cbv zeta in H1, H3.
  assert (Hp' : (p < List.length (players (loaded w)))%nat) by exact Hp.
  destruct (place_word_board_spots (a_word a) (-1, -1) "right" p (loaded w)
              Hp' H1) as [Hb _].
  destruct (place_word_run (a_word a) (-1, -1) "right" p (loaded w) Hp' H1)
    as [drawn [Hrun _]].
  split; [unfold retyped; rewrite Hloc; reflexivity |].
  split; [| split; [exact Hrun |]].
  - destruct (check_word_answer _ _ _ Hv) as [Hfirst _].
    destruct (check_word_answer _ _ _ Hok) as [_ Hsecond].
    assert (Hretry : retry self (a_word first) (loc_of first) (a_dir first)
                       (a :: more) w
                     = (Ok (Some (retyped self a, a_word a, (-1, -1),
                                  "right")), loaded w)).
    { assert (Hl : loc_of a = (-1, -1))
        by (unfold loc_of; rewrite Hloc; reflexivity).
      assert (Hrest : retry (retyped self a) (a_word a) (loc_of a) (a_dir a)
                        more (loaded w)
                      = (Ok (Some (retyped self a, a_word a, (-1, -1),
                                   "right")), loaded w)).
      { rewrite Hl, Hdir.
        destruct more as [| a' more'];
          [cbn [retry] | rewrite retry_step];
          rewrite (bind_ok _ _ _ _ _ Hsecond); reflexivity. }
      rewrite retry_step. rewrite (bind_ok _ _ _ _ _ Hfirst).
      destruct v as [| msg |]; [congruence | exact Hrest | exact Hrest]. }
    cbn [menu]. fold self. rewrite (bind_ok _ _ _ _ _ Hretry).
    fold (turn r).
    assert (Hplaced : place_word (a_word a) (-1, -1) "right" p (loaded w)
                      = (Ok tt, snd placed)).
    { unfold placed. rewrite (surjective_pairing (place_word _ _ _ _ _)).
      rewrite Hrun. reflexivity. }
    rewrite (bind_ok _ _ _ _ _ Hplaced). reflexivity.
  - unfold placed, contents in *. rewrite Hb. exact H3.
Qed.

End UnusableCoordinates.

Lemma unusable_retry_places_in_corner_witness :
  let first := mkAttempt "cat" (Some (7, 7)) "up" in
  let a := mkAttempt "cat" None "right" in
  let self := Word_new (a_word first) (loc_of first) 0 (a_dir first) in
  let placed := @place_word keep_order "cat" (-1, -1) "right" 0%nat
                  (loaded fresh_game) in
  grid15 (board fresh_game)
  /\ (0 < List.length (players fresh_game))%nat
  /\ fst (check_word self fresh_game) = Ok (VStr MSG_DIRECTION)
  /\ VStr MSG_DIRECTION <> VTrue
  /\ a_loc a = None
  /\ a_dir a = "right"
  /\ fst (check_word (retyped self a) fresh_game) = Ok VTrue
  /\ location (retyped self a) = (7, 7)
  /\ fst placed = Ok tt
  /\ contents (snd placed) [(14, 14); (14, 0); (14, 1)]
     = [Some (letter_cell "C"); Some (letter_cell "A");
        Some (letter_cell "T")].
Proof.
  intros first a self placed.
  assert (Hg : grid15 (board fresh_game)) by apply grid15_fresh_game.
  assert (Hp : (0 < List.length (players fresh_game))%nat) by (simpl; lia).
  assert (Hv : fst (check_word self fresh_game) = Ok (VStr MSG_DIRECTION))
    by reflexivity.
  assert (Hne : VStr MSG_DIRECTION <> VTrue) by discriminate.
  assert (Hloc : a_loc a = None) by reflexivity.
  assert (Hdir : a_dir a = "right") by reflexivity.
  assert (Hok : fst (check_word (retyped self a) fresh_game) = Ok VTrue)
    by reflexivity.
  destruct (@unusable_retry_places_in_corner keep_order first a [] [] 0%nat
              fresh_game (VStr MSG_DIRECTION) Hg Hp Hv Hne Hloc Hdir Hok)
    as [H1 [_ [H3 H4]]].
  exact (conj Hg (conj Hp (conj Hv (conj Hne (conj Hloc (conj Hdir
           (conj Hok (conj H1 (conj H3 H4))))))))).
Defined.

(** ** Where the tiles of a replenished rack come from *)

Section ReplenishConserves.

Context {RNG : Shuffler}.

Lemma BAG_FILL_length o : List.length (fill_tiles o BAG_FILL) = 106%nat.
Proof. rewrite fill_tiles_length. reflexivity. Qed.

(** A draw from a bag of fewer than 10 tiles: the fill is added first. *)
Lemma take_refill w :
  (List.length (bag w) < 10)%nat ->
  exists t wr,
    take_from_bag w = (Ok t, wr)
    /\ players wr = players w
    /\ Permutation (bag wr ++ [t])
         (bag w ++ fill_tiles (next_obj w) BAG_FILL).
Proof.
  intro H. rewrite take_from_bag_refilled.
  destruct (bag_pop_last (refilled w) (refilled_nonempty w))
    as [t [b' [Hb Hpop]]].
  exists t, (set_bag b' (refilled w)). split; [exact Hpop |]. split.
  - cbn [players set_bag]. apply refilled_players.
  - cbn [bag set_bag]. rewrite <- Hb. unfold refilled.
    destruct (Z.of_nat (List.length (bag w)) <? 10) eqn:E;
      [| apply Z.ltb_ge in E; lia].
    rewrite initialize_bag_run. cbn [snd bag set_rng set_bag].
    apply shuffle_perm.
Qed.

(** The loop of [replenish_rack] conserves the tiles: the tiles appended to
    the rack and the tiles left in the bag are the tiles the bag held, and
    one fill more when a draw found fewer than 10 tiles. *)
Lemma replenish_loop_conserves p fuel :
  forall w,
    (p < List.length (players w))%nat ->
    (7 - List.length (rack (get_player p w)) <= fuel)%nat ->
    exists drawn added,
      players (snd (replenish_loop fuel p w))
      = update_nth (players w) p (fun pl => set_rack (rack pl ++ drawn) pl)
      /\ Permutation (bag (snd (replenish_loop fuel p w)) ++ drawn)
           (bag w ++ added)
      /\ (added = [] \/ added = fill_tiles (next_obj w) BAG_FILL).
Proof.
  induction fuel as [| k IH]; intros w Hp Hf; rewrite replenish_loop_eq;
    unfold get_rack_length, get_rack, get_remaining_tiles;
    cbv beta iota delta [bind gets ret];
    destruct ((Z.of_nat (List.length (rack (get_player p w))) <? 7)
              && (0 <? Z.of_nat (List.length (bag w)))) eqn:E;
    try (apply andb_true_iff in E; destruct E as [E1 E2];
        apply Z.ltb_lt in E1; apply Z.ltb_lt in E2);
    try (exists [], []; cbn [snd]; rewrite !app_nil_r;
        split; [| split; [apply Permutation_refl | left; reflexivity]];
        symmetry; apply update_nth_id;
        intros [n r sc]; unfold set_rack; simpl; rewrite app_nil_r;
        reflexivity).
  destruct (Nat.ltb_spec (List.length (bag w)) 10) as [Hlt | Hge].
  - destruct (take_refill w Hlt) as [t [wr [Htake [Hpl Hperm]]]].
    set (w1 := set_players
                 (update_nth (players wr) p
                    (fun pl => set_rack (rack pl ++ [t]) pl)) wr).
    assert (Hadd : add_to_rack p w = (Ok tt, w1)).
    { unfold add_to_rack. rewrite (bind_ok _ _ _ _ _ Htake). reflexivity. }
    rewrite Hadd.
    assert (Hp1 : (p < List.length (players w1))%nat).
    { unfold w1. cbn [players set_players].
      rewrite update_nth_length, Hpl. exact Hp. }
    assert (Hr : rack (get_player p w1) = rack (get_player p w) ++ [t]).
    { unfold get_player, w1. cbn [players set_players].
      rewrite nth_update_nth by (rewrite Hpl; exact Hp).
      rewrite Hpl. reflexivity. }
    assert (Hbl : (List.length (bag w1) = List.length (bag w) + 105)%nat).
    { apply Permutation_length in Hperm.
      rewrite !length_app, BAG_FILL_length in Hperm.
      cbn [List.length] in Hperm. unfold w1. cbn [bag set_players]. lia. }
    destruct (replenish_no_refill p k w1 Hp1)
      as [drawn1 [b' [Hlen [Hb' Hrun]]]].
    + rewrite Hr, length_app. cbn [List.length]. lia.
    + rewrite Hbl. lia.
    + rewrite Hrun. cbn [snd players bag set_players set_bag].
      exists (t :: drawn1), (fill_tiles (next_obj w) BAG_FILL).
      split; [| split; [| right; reflexivity]].
      * unfold w1. cbn [players set_players]. rewrite Hpl.
        apply update_nth_twice. intros [n r sc]. unfold set_rack. simpl.
        rewrite <- app_assoc. reflexivity.
      * eapply perm_trans; [| exact Hperm].
        assert (Hbw : bag wr = b' ++ rev drawn1) by exact Hb'.
        rewrite Hbw, <- app_assoc. apply Permutation_app_head.
        eapply perm_trans; [apply Permutation_cons_append |].
        apply Permutation_app_tail, Permutation_rev.
  - destruct (take_no_refill w Hge) as [t [b1 [Hbag Htake]]].
    set (w1 := set_players
                 (update_nth (players w) p
                    (fun pl => set_rack (rack pl ++ [t]) pl))
                 (set_bag b1 w)).
    assert (Hadd : add_to_rack p w = (Ok tt, w1)).
    { unfold add_to_rack. rewrite (bind_ok _ _ _ _ _ Htake). reflexivity. }
    rewrite Hadd.
    assert (Hr : rack (get_player p w1) = rack (get_player p w) ++ [t]).
    { unfold get_player, w1. cbn [players set_players set_bag].
      rewrite nth_update_nth by exact Hp. reflexivity. }
    destruct (IH w1) as [drawn1 [added1 [Hpl1 [Hperm1 Hadded1]]]].
    + unfold w1. cbn [players set_players]. rewrite update_nth_length.
      exact Hp.
    + rewrite Hr, length_app. cbn [List.length]. lia.
    + exists (t :: drawn1), added1.
      split; [| split; [| exact Hadded1]].
      * rewrite Hpl1. unfold w1. cbn [players set_players set_bag].
        apply update_nth_twice. intros [n r sc]. unfold set_rack. simpl.
        rewrite <- app_assoc. reflexivity.
      * rewrite Hbag, <- app_assoc. cbn [app].
        eapply perm_trans; [apply Permutation_sym, Permutation_middle |].
        eapply perm_trans; [apply perm_skip, Hperm1 |].
        apply Permutation_middle.
Qed.


End ReplenishConserves.


(* ------------------------------------------------------------------ *)
(** * The empty word, the end of the game, and the score of a placement *)

(** ** C8: the empty word *)

Lemma bind_not_none {A} (m : M A) (k : A -> M verdict) w :
  (forall a w', fst (k a w') <> Ok VNone) -> fst (bind m k w) <> Ok VNone.
Proof.
  intro H. unfold bind. destruct (m w) as [[a | e] w'];
    [apply H | discriminate].
Qed.

Lemma check_rest_not_none self cur needed w :
  fst (check_rest self cur needed w) <> Ok VNone.
Proof.
  unfold check_rest. apply bind_not_none. intros dict w1.
  destruct (negb _); [discriminate |].
  apply bind_not_none. intros _ w2.
  apply bind_not_none. intros rn w3.
  destruct (_ && _); [discriminate |].
  apply bind_not_none. intros missing w4.
  destruct missing as [msg |]; [discriminate |].
  destruct (_ || _); [discriminate |].
  destruct (rn =? 1); [| discriminate].
  apply bind_not_none. intros ps w5.
  apply bind_not_none. intros _ w6.
  destruct (_ && _); discriminate.
Qed.

(** C8, on the code.  For an empty word [check_word] returns neither the
    NotAWord message nor any other verdict: control falls off the end of
    the function and the result is None, whatever the location, the
    direction, the board and the round; only the dictionary has been
    loaded.  None is returned for no other word. *)
Theorem check_word_none_iff_empty (self : Word) (w : World) :
  (word self = "" -> check_word self w = (Ok VNone, loaded w))
  /\ (word self <> "" -> fst (check_word self w) <> Ok VNone).
Proof.
  split; intro H; rewrite check_word_run.
  - unfold check_word_body. rewrite H. reflexivity.
  - cbn [fst]. unfold check_word_body.
    apply String.eqb_neq in H. rewrite H. cbn [negb].
    destruct (String.eqb (direction self) "right");
      [apply bind_not_none; intros; apply check_rest_not_none |].
    destruct (String.eqb (direction self) "down");
      [apply bind_not_none; intros; apply check_rest_not_none |].
    discriminate.
Qed.

(** The first player of a new game presses Enter at the word prompt: the
    check answers None, which [turn] prints before asking again. *)
Lemma empty_word_typed_in_turn :
  let typed := mkAttempt "" (Some (7, 7)) "right" in
  fst (check_word (Word_new (a_word typed) (loc_of typed) 0 (a_dir typed))
         fresh_game) = Ok VNone
  /\ @turn keep_order [CPlay typed []] 0%nat fresh_game
     = (Ok (Waiting 0), loaded fresh_game).
Proof. split; reflexivity. Qed.

(** A location typed with an unusable row or column reaches [check_word]
    as [-1, -1]; its first cell is the corner (14,14), which is never
    blank, and the answer is the bounds message. *)
Lemma unusable_location_gets_bounds_message :
  fst (check_word (Word_new "AT" (-1, -1) 0 "right") round2_game)
  = Ok (VStr MSG_BOUNDS)
  /\ fst (check_word (Word_new "AT" (-1, -1) 0 "down") round2_game)
     = Ok (VStr MSG_BOUNDS)
  /\ fst (check_word (Word_new "AT" (-1, -1) 0 "right") fresh_game)
     = Ok (VStr MSG_BOUNDS).
Proof. repeat split; reflexivity. Qed.

(** ** C4: the end of the game *)

Section EndOfGame.

Context {RNG : Shuffler}.



(** Every game starts with a tile in the bag, whatever names are typed. *)
Lemma start_game_bag names w : bag (snd (start_game names w)) <> [].
Proof.
  unfold start_game.
  rewrite (bind_ok _ _ _ _ _ (Board_init_run w)).
  rewrite (bind_ok _ _ _ _ _ (Bag_init_run _)).
  rewrite bind_modify.
  match goal with
  | |- bag (snd (?m ?w0)) <> [] =>
      apply (maintains_bind (fun w => bag w <> []) _ _) with (w := w0)
  end.
  - apply maintains_for_each. intros n acc _.
    apply maintains_bind.
    + unfold Player_new.
      apply maintains_bind; [apply maintains_readonly, readonly_gets |].
      intro ps. apply maintains_bind; [intros w1 H1; exact H1 |].
      intros _. apply maintains_bind;
        [| intro; apply maintains_readonly, readonly_ret].
      unfold Rack_initialize. apply maintains_for_each. intros i acc' _.
      apply closed_add_to_rack; [apply bag_closed | apply bag_draw].
    + intro q. apply closed_update_player, bag_closed.
  - intros _. apply maintains_bind; intros; intros w1 H1; exact H1.
  - cbn [bag set_players set_rng set_bag]. intro H.
    apply (f_equal (@List.length Tile)) in H.
    rewrite (Permutation_length (shuffle_perm _ _)), BAG_FILL_length in H.
    discriminate.
Qed.


End EndOfGame.


(** ** C1: AT across a premium cell *)

Section PlacedScore.

Context {RNG : Shuffler}.

(** [place_word] changes no score. *)
Lemma place_word_score word0 loc dir0 p w :
  (p < List.length (players w))%nat ->
  fst (place_word word0 loc dir0 p w) = Ok tt ->
  (p < List.length (players (snd (place_word word0 loc dir0 p w))))%nat
  /\ score (get_player p (snd (place_word word0 loc dir0 p w)))
     = score (get_player p w).
Proof.
  intros Hp H.
  assert (Hok : fst (place_letters (Py.upper word0) loc (Py.lower dir0)
                       (set_premium_spots [] w)) = Ok tt).
  { unfold place_word in H. rewrite bind_modify in H. unfold bind in H.
    destruct (place_letters _ _ _ _) as [[[] | e] w1];
      [reflexivity | discriminate]. }
  rewrite (place_word_phases _ _ _ _ _ Hp Hok).
  destruct (keeps_place_letters (Py.upper word0) loc (Py.lower dir0)
              (set_premium_spots [] w)) as [Hpl _].
  set (w1 := snd (place_letters (Py.upper word0) loc (Py.lower dir0)
                    (set_premium_spots [] w))) in *.
  cbn [players set_premium_spots] in Hpl.
  set (r1 := strike_word _ _).
  assert (Hp1 : (p < List.length (players (with_rack p r1 w1)))%nat)
    by (rewrite players_with_rack, Hpl; exact Hp).
  destruct (replenish_loop_conserves p 7 (with_rack p r1 w1) Hp1
              ltac:(lia)) as [drawn [added [Hps _]]].
  unfold replenish_rack, get_player. rewrite Hps.
  split; [rewrite update_nth_length; exact Hp1 |].
  rewrite nth_update_nth by exact Hp1.
  unfold with_rack. cbn [players set_players].
  rewrite nth_update_nth by (rewrite Hpl; exact Hp).
  rewrite Hpl. reflexivity.
Qed.

(** C1, on the code.  Whatever cells the word AT is placed on, on a board
    that holds only cell texts written by the program, applying the
    placement and then [calculate_word_score] adds exactly 2, the plain
    letter values, to the score of the acting player: never the 6 of two
    triple-letter cells, never the 18 of a triple-word cell, and no
    letter is tripled.  The recorded triggers carry the cell text with its
    colour codes, which the scorer compares with the bare tags. *)
Theorem placed_AT_scores_2 (loc : Z * Z) (dir : string) (p : nat)
  (w : World) :
  cells_ok (board w) ->
  (p < List.length (players w))%nat ->
  fst (place_word "AT" loc dir p w) = Ok tt ->
  let after := apply_and_score (Word_new "AT" loc p dir) "AT" loc dir w in
  fst after = Ok tt
  /\ score (get_player p (snd after)) = score (get_player p w) + 2.
Proof.
  intros Hc Hp Hplace after. unfold after, apply_and_score.
  cbn [wplayer Word_new].
  destruct (place_word_score "AT" loc dir p w Hp Hplace) as [Hp' Hs].
  pose proof (place_word_tags_ok "AT" loc dir p w Hc) as Htags.
  destruct (place_word "AT" loc dir p w) as [res placed] eqn:E.
  cbn [fst snd] in *. subst res.
  rewrite (bind_ok _ _ _ _ _ E).
  unfold calculate_word_score.
  assert (Hscore : word_score_of (mkWord (Py.upper "AT") loc p (Py.lower dir))
                     placed = (Ok 2, placed))
    by (rewrite (word_score_tags_ok _ placed Htags); reflexivity).
  rewrite (bind_ok _ _ _ _ _ Hscore).
  unfold increase_score, update_player, modify. cbn [fst snd wplayer].
  split; [reflexivity |].
  rewrite get_player_update by exact Hp'. cbv beta. cbn [score].
  rewrite <- Hs. reflexivity.
Qed.

End PlacedScore.

(** Round 2 of a game in which both players have skipped: Ann plays AT
    from (1,5) to the right, the A on a triple-letter cell.  The placement
    is validated and applied, the trigger recorded is the coloured marker,
    and Ann scores 2; with the bare tag the scorer would give 1*3 + 1. *)
Lemma AT_on_a_triple_letter_cell :
  let typed := mkAttempt "AT" (Some (1, 5)) "right" in
  let played := @turn keep_order [CPlay typed []] 0%nat round2_game in
  contents round2_game [(1, 5); (1, 6)] = [Some TLS_CELL; Some EMPTY_CELL]
  /\ fst (check_word (Word_new "AT" (1, 5) 0 "right") round2_game) = Ok VTrue
  /\ premium_spots
       (snd (@place_word keep_order "AT" (1, 5) "right" 0%nat round2_game))
     = [("A", TLS_CELL)]
  /\ gain round2_game "AT" (1, 5) "right" = Ok 2
  /\ score (get_player 0 round2_game) = 0
  /\ fst played = Ok (Waiting 1)
  /\ score (get_player 0 (snd played)) = 2
  /\ score_added (Word_new "AT" (1, 5) 0 "right") [("A", "TLS")] round2_game
     = 4.
Proof. vm_compute. repeat split; reflexivity. Qed.

Lemma placed_AT_scores_2_witness :
  let scored := @apply_and_score keep_order (Word_new "AT" (1, 5) 0 "right")
                 "AT" (1, 5) "right" round2_game in
  cells_ok (board round2_game)
  /\ (0 < List.length (players round2_game))%nat
  /\ fst (@place_word keep_order "AT" (1, 5) "right" 0%nat round2_game)
     = Ok tt
  /\ fst scored = Ok tt
  /\ score (get_player 0 (snd scored)) = score (get_player 0 round2_game) + 2.
Proof.
  intro scored.
  assert (Hc : cells_ok (board round2_game))
    by (apply cells_okb_sound; reflexivity).
  assert (Hp : (0 < List.length (players round2_game))%nat)
    by (vm_compute; lia).
  assert (Hplace : fst (@place_word keep_order "AT" (1, 5) "right" 0%nat
                          round2_game) = Ok tt) by reflexivity.
  refine (conj Hc (conj Hp (conj Hplace _))).
  exact (@placed_AT_scores_2 keep_order (1, 5) "right" 0%nat round2_game
           Hc Hp Hplace).
Defined.
